(** * Birthday Surprise App: a shallow embedding of [main_code.py]

    The development follows the layout of the Python file: the drawing
    surface ([tk.Canvas]), the image loader, the confetti, the heart, the
    balloons of the welcome screen and the matching game.  Part I holds the
    definitions, Part II the properties.

    Conventions.
    - Python [str] is [string] (a sequence of bytes; for the ASCII names and
      extensions that matter here byte order and code-point order agree).
    - A raised exception is [None] in an [option] result.
    - Randomness is drawn from an explicit source that is threaded through.
    - Timers registered with [after] are kept as pending entries of the state
      and fire as separate events. *)

From Stdlib Require Import ZArith QArith Qround Lia Floats.
From Stdlib Require Import Ascii String.
From stdpp Require Import gmap strings list sorting.

Set Warnings "-inexact-float".

Local Open Scope string_scope.
Local Open Scope list_scope.

(* ===================================================================== *)
(** * Part I. Definitions *)
(* ===================================================================== *)

(** ** The drawing surface *)

(** The part of [tk.Canvas] the application uses.  The coordinate type is a
    parameter: the balloons use integers, the confetti and the heart binary64
    numbers. *)
Module Tk.

Inductive shape := oval | line.

Section Canvas.
Context {C : Type}.
Variable add : C -> C -> C.

Record item := Item {
  kind : shape;
  coords : list C;              (* x1 y1 x2 y2 *)
  fill : string;
  tags : list string
}.

(** Items in display order, oldest first; ids are handed out in sequence. *)
Record canvas := Canvas {
  next_id : nat;
  display : list (nat * item)
}.

Definition empty : canvas := Canvas 1 [].

(** [create_oval] / [create_line]: returns the id of the new item. *)
Definition create (it : item) (cv : canvas) : nat * canvas :=
  (next_id cv, Canvas (S (next_id cv)) (display cv ++ [(next_id cv, it)])).

Fixpoint shift (dx dy : C) (cs : list C) : list C :=
  match cs with
  | x :: y :: cs' => add x dx :: add y dy :: shift dx dy cs'
  | _ => cs
  end.

Definition move_item (id : nat) (dx dy : C) (e : nat * item) : nat * item :=
  if Nat.eqb (fst e) id
  then (fst e, Item (kind (snd e)) (shift dx dy (coords (snd e)))
                    (fill (snd e)) (tags (snd e)))
  else e.

(** [canvas.move(id, dx, dy)]; silently does nothing for an unknown id. *)
Definition move (id : nat) (dx dy : C) (cv : canvas) : canvas :=
  Canvas (next_id cv) (map (move_item id dx dy) (display cv)).

Definition find_item (id : nat) (cv : canvas) : option item :=
  snd <$> List.find (fun e => Nat.eqb (fst e) id) (display cv).

(** [canvas.coords(id)]: the coordinate list, empty for an unknown id. *)
Definition get_coords (id : nat) (cv : canvas) : list C :=
  match find_item id cv with
  | Some it => coords it
  | None => []
  end.

Definition has_tag (t : string) (it : item) : bool :=
  existsb (String.eqb t) (tags it).

(** [canvas.delete(tag)] for a tag name. *)
Definition delete (t : string) (cv : canvas) : canvas :=
  Canvas (next_id cv)
         (List.filter (fun e => negb (has_tag t (snd e))) (display cv)).

End Canvas.

Arguments item : clear implicits.
Arguments canvas : clear implicits.

End Tk.

(** ** Paths and strings of the Python runtime *)

(** The functions of [os.path] (POSIX flavour) and [str] that the loader
    calls, written after their definitions in the Python standard library. *)
Module Path.

Definition chars : string -> list ascii := list_ascii_of_string.
Definition str : list ascii -> string := string_of_list_ascii.

(** [os.path.isabs] *)
Definition isabs (p : string) : bool :=
  match p with
  | String "/" _ => true
  | _ => false
  end.

Definition endswith_slash (p : string) : bool :=
  match last (chars p) with
  | Some "/"%char => true
  | _ => false
  end.

(** [os.path.join] with two arguments *)
Definition join (a b : string) : string :=
  if isabs b then b
  else if String.eqb a "" || endswith_slash a then a +:+ b
  else a +:+ "/" +:+ b.

(** [str.split("/")] *)
Fixpoint split_slash (l : list ascii) : list (list ascii) :=
  match l with
  | [] => [[]]
  | c :: l' =>
      if Ascii.eqb c "/" then [] :: split_slash l'
      else match split_slash l' with
           | cur :: rest => (c :: cur) :: rest
           | [] => [[c]]
           end
  end.

(** ["/".join(comps)] *)
Fixpoint join_slash (comps : list (list ascii)) : list ascii :=
  match comps with
  | [] => []
  | [c] => c
  | c :: rest => c ++ "/"%char :: join_slash rest
  end.

Definition dotdot : list ascii := [".";"."]%char.

(** One round of the loop of [normpath] over the components. *)
Definition normpath_comp (initial_slashes : nat) (new_comps : list (list ascii))
    (comp : list ascii) : list (list ascii) :=
  if bool_decide (comp = []) || bool_decide (comp = ["."%char]) then new_comps
  else if negb (bool_decide (comp = dotdot))
          || (Nat.eqb initial_slashes 0 && bool_decide (new_comps = []))
          || bool_decide (last new_comps = Some dotdot)
       then new_comps ++ [comp]
       else removelast new_comps.

(** [os.path.normpath] *)
Definition normpath (path : string) : string :=
  if String.eqb path "" then "."
  else
    let initial_slashes :=
      match chars path with
      | "/" :: "/" :: "/" :: _ => 1
      | "/" :: "/" :: _ => 2
      | "/" :: _ => 1
      | _ => 0
      end%char%nat in
    let comps := fold_left (normpath_comp initial_slashes)
                           (split_slash (chars path)) [] in
    let path := str (repeat "/"%char initial_slashes ++ join_slash comps) in
    if String.eqb path "" then "." else path.

(** [os.path.abspath], with the working directory made explicit *)
Definition abspath (cwd path : string) : string :=
  normpath (if isabs path then path else join cwd path).

(** [str.rfind] of a single character: the last index, or -1 *)
Fixpoint rfind_from (c : ascii) (l : list ascii) (i found : Z) : Z :=
  match l with
  | [] => found
  | x :: l' => rfind_from c l' (i + 1)%Z (if Ascii.eqb x c then i else found)
  end.

Definition rfind (c : ascii) (l : list ascii) : Z := rfind_from c l 0 (-1).

(** [os.path.splitext]: the extension starts at the last dot of the last
    component, unless that component has only dots before it. *)
Definition splitext (p : string) : string * string :=
  let l := chars p in
  let sepIndex := rfind "/" l in
  let extIndex := rfind "." l in
  if (sepIndex <? extIndex)%Z
     && existsb (fun c => negb (Ascii.eqb c "."))
          (take (Z.to_nat (extIndex - (sepIndex + 1)))
                (drop (Z.to_nat (sepIndex + 1)) l))
  then (str (take (Z.to_nat extIndex) l), str (drop (Z.to_nat extIndex) l))
  else (p, "").

Definition lower_ascii (c : ascii) : ascii :=
  let n := nat_of_ascii c in
  if Nat.leb 65 n && Nat.leb n 90 then ascii_of_nat (n + 32) else c.

(** [str.lower], on the ASCII letters *)
Definition lower (s : string) : string := str (map lower_ascii (chars s)).

(** The order of [list.sort] on strings. *)
Definition str_le : relation string := fun a b => String.leb a b = true.

#[export] Instance str_le_dec a b : Decision (str_le a b).
Proof. unfold str_le. apply _. Defined.

End Path.

(** ** Media loader *)

Module ImageLoader.
Import Path.

(** What the loader sees of its environment: the optional Pillow import, the
    process working directory, the directory of the script, the file system
    and the two decoders.  A decoder yields the pixel size of the picture it
    produced, or nothing when it raises. *)
Record Env := {
  PIL_AVAILABLE : bool;
  getcwd : string;
  script_dir : string;                           (* os.path.dirname(__file__) *)
  isdir : string -> bool;
  listdir : string -> list string;
  pil_thumbnail : string -> Z -> Z -> option (Z * Z);
                  (* Image.open(path), thumbnail((max_w, max_h)), PhotoImage *)
  tk_PhotoImage : string -> option (Z * Z)       (* tk.PhotoImage(file=path) *)
}.

Definition ASSETS_DIR (env : Env) : string := join (script_dir env) "assets".
Definition IMG_DIR (env : Env) : string := join (ASSETS_DIR env) "images".

(** A decoded picture is a fresh object; [obj] is its identity. *)
Record photo := Photo { obj : nat; width : Z; height : Z }.

(** Allocation counter of the interpreter and the list of decoder calls. *)
Record Interp := { next_obj : nat; decoded : list string }.

Record t := {
  cache : gmap string photo;
  max_w : Z;
  max_h : Z
}.

Definition init (mw mh : Z) : t := {| cache := ∅; max_w := mw; max_h := mh |}.

Definition qmax (a b : Q) : Q := if Qle_bool a b then b else a.

(** [img.subsample(k, k)] keeps every k-th pixel. *)
Definition subsample (k n : Z) : Z := ((n + k - 1) / k)%Z.

Definition _load_with_pillow (env : Env) (self : t) (path : string)
  : option (Z * Z) :=
  pil_thumbnail env path (max_w self) (max_h self).

Definition _load_with_tk (env : Env) (self : t) (path : string)
  : option (Z * Z) :=
  '(w, h) ← tk_PhotoImage env path;
  if Z.eqb (max_w self) 0 || Z.eqb (max_h self) 0 then None
  else
    let scale := qmax (qmax (inject_Z w / inject_Z (max_w self))%Q
                            (inject_Z h / inject_Z (max_h self))%Q) 1%Q in
    if negb (Qle_bool scale 1)
    then let k := Qceiling scale in Some (subsample k w, subsample k h)
    else Some (w, h).

(** The body of the [try] block of [load]. *)
Definition decode (env : Env) (self : t) (path : string) : option (Z * Z) :=
  if PIL_AVAILABLE env then _load_with_pillow env self path
  else _load_with_tk env self path.

Definition load (env : Env) (self : t) (py : Interp) (path : string)
  : option photo * t * Interp :=
  let path := abspath (getcwd env) path in
  match cache self !! path with
  | Some ph => (Some ph, self, py)
  | None =>
      match decode env self path with
      | None =>
          (None, self,
           {| next_obj := next_obj py; decoded := decoded py ++ [path] |})
      | Some (w, h) =>
          let ph := Photo (next_obj py) w h in
          (Some ph,
           {| cache := <[path := ph]> (cache self);
              max_w := max_w self; max_h := max_h self |},
           {| next_obj := S (next_obj py); decoded := decoded py ++ [path] |})
      end
  end.

Definition exts (env : Env) : list string :=
  if PIL_AVAILABLE env then [".png"; ".gif"; ".jpg"; ".jpeg"]
  else [".png"; ".gif"].

Definition keep (env : Env) (f : string) : bool :=
  existsb (String.eqb (snd (splitext (lower f)))) (exts env).

Definition list_images (env : Env) : list string :=
  if negb (isdir env (IMG_DIR env)) then []
  else
    let files := map (join (IMG_DIR env))
                     (List.filter (keep env) (listdir env (IMG_DIR env))) in
    merge_sort str_le files.

End ImageLoader.

(** ** Numbers *)

(** [float(n)] for an integer [n]: how an [int] enters an operation with a
    [float], and how Tk reads an integer coordinate.  Exact below 2^53 in
    absolute value, which covers every size and position in pixels. *)
Module Num.

Definition of_int (z : Z) : float :=
  if (z <? 0)%Z then (- PrimFloat.of_uint63 (Uint63.of_Z (- z)))%float
  else PrimFloat.of_uint63 (Uint63.of_Z z).

End Num.

(** ** Random numbers *)

(** The [random] module draws from a source of raw integers; each call
    consumes one of them and maps it into the requested range. *)
Module Random.

Record source := Source { raw : nat -> Z; pos : nat }.

Definition next (g : source) : Z * source :=
  (raw g (pos g), Source (raw g) (S (pos g))).

(** [random.randint(a, b)]: an integer of [a..b]; raises on an empty range. *)
Definition randint (a b : Z) (g : source) : option (Z * source) :=
  if (b <? a)%Z then None
  else let '(r, g') := next g in Some ((a + r mod (b - a + 1))%Z, g').

(** [random.random()]: a multiple of 2^-53 in [0, 1), as a binary64
    number. *)
Definition random (g : source) : float * source :=
  let '(r, g') := next g in
  ((Num.of_int (r mod 2 ^ 53) / 0x1p+53)%float, g').

(** [random.uniform(a, b)] is [a + (b - a) * random()], each operation
    rounded to binary64. *)
Definition uniform (a b : float) (g : source) : float * source :=
  let '(u, g') := random g in ((a + (b - a) * u)%float, g').

(** [random.choice(seq)]: raises on an empty sequence. *)
Definition choice {A} (l : list A) (g : source) : option (A * source) :=
  let '(r, g') := next g in
  x ← nth_error l (Z.to_nat (r mod Z.of_nat (length l)));
  Some (x, g').

End Random.

(** ** Confetti *)

(** Tk keeps the coordinates of an item as binary64 numbers: [move] adds to
    them, [coords] reports them, and the arithmetic of [step] on what it
    reports is Python's [float] arithmetic. *)
Module Confetti.
Import Tk Random.

Definition COLORS : list string :=
  [ "#ff4d6d"; "#fca311"; "#48bfe3"; "#64dfdf"; "#80ed99";
    "#b5179e"; "#ffd166"; "#06d6a0"; "#ef476f"; "#118ab2" ].

(** A piece is [(shape, speed, drift)]. *)
Definition piece : Type := nat * float * float.

Definition shape_of (p : piece) : nat := fst (fst p).

Record t := {
  w : Z;
  h : Z;
  pieces : list piece
}.

Definition new_piece (width height : Z) (st : canvas float * source)
  : option (piece * (canvas float * source)) :=
  let '(cv, g) := st in
  '(x, g) ← randint 0 width g;
  '(y, g) ← randint (- height) 0 g;
  '(r, g) ← randint 3 7 g;
  '(color, g) ← choice COLORS g;
  let '(shape, cv) :=
    create (Item oval [Num.of_int x; Num.of_int y;
                       Num.of_int (x + r); Num.of_int (y + r)]
                 color ["confetti"]) cv in
  let '(speed, g) := uniform 1.5 4.0 g in
  let '(drift, g) := uniform (-1.0) 1.0 g in
  Some ((shape, speed, drift), (cv, g)).

Fixpoint new_pieces (width height : Z) (count : nat) (acc : list piece)
    (st : canvas float * source)
  : option (list piece * (canvas float * source)) :=
  match count with
  | O => Some (acc, st)
  | S count' =>
      '(p, st) ← new_piece width height st;
      new_pieces width height count' (acc ++ [p]) st
  end.

(** [Confetti(canvas, width, height, count)] *)
Definition init (cv : canvas float) (width height : Z) (count : nat)
    (g : source) : option (t * (canvas float * source)) :=
  '(ps, st) ← new_pieces width height count [] (cv, g);
  Some ({| w := width; h := height; pieces := ps |}, st).

(** The body of the loop of [step] for one piece. *)
Definition step_piece (self_w self_h : Z) (p : piece)
    (st : canvas float * source) : option (canvas float * source) :=
  let '(cv, g) := st in
  let '(shape, speed, drift) := p in
  let cv := move PrimFloat.add shape drift speed cv in
  match get_coords shape cv with
  | [x1; y1; x2; y2] =>
      if (Num.of_int self_h <? y1)%float then
        (* respawn at top *)
        '(rx, g) ← randint 0 self_w g;
        let dx := (Num.of_int rx - x1)%float in
        Some (move PrimFloat.add shape dx
                   (Num.of_int (- self_h) - (y2 - y1))%float cv, g)
      else Some (cv, g)
  | _ => None
  end.

Fixpoint step_pieces (self_w self_h : Z) (ps : list piece)
    (st : canvas float * source) : option (canvas float * source) :=
  match ps with
  | [] => Some st
  | p :: ps' =>
      st ← step_piece self_w self_h p st;
      step_pieces self_w self_h ps' st
  end.

(** [Confetti.step] *)
Definition step (self : t) (st : canvas float * source)
  : option (canvas float * source) :=
  step_pieces (w self) (h self) (pieces self) st.

(** [n] successive frames. *)
Fixpoint steps (n : nat) (self : t) (st : canvas float * source)
  : option (canvas float * source) :=
  match n with
  | O => Some st
  | S n' => st ← step self st; steps n' self st
  end.

End Confetti.

(** ** Balloons of the welcome screen *)

Module Balloons.
Import Tk.

(** [(body, string)] ids of one balloon *)
Definition balloon : Type := nat * nat.

Definition ids (balloons : list balloon) : list nat :=
  flat_map (fun bs => [fst bs; snd bs]) balloons.

(** The loop of [animate_balloons] that draws one balloon per colour. *)
Fixpoint make (i : nat) (colors : list string) (acc : list balloon)
    (cv : canvas Z) : list balloon * canvas Z :=
  match colors with
  | [] => (acc, cv)
  | color :: colors' =>
      let x := (if Nat.eqb (i mod 2) 0 then 30 else 70)%Z in
      let y := (400 + Z.of_nat i * 60)%Z in
      let '(b, cv) :=
        create (Item oval [x; y; x + 40; y + 50]%Z color []) cv in
      let '(s, cv) :=
        create (Item line [x + 20; y + 50; x + 20; y + 70]%Z "black" []) cv in
      make (S i) colors' (acc ++ [(b, s)]) cv
  end.

(** The body of the loop of [float_up] for one balloon. *)
Definition float_up_one (bs : balloon) (cv : canvas Z) : option (canvas Z) :=
  let '(b, s) := bs in
  let cv := move Z.add b 0%Z (-1)%Z cv in
  let cv := move Z.add s 0%Z (-1)%Z cv in
  y ← nth_error (get_coords b cv) 1;
  if (y <? -60)%Z then      (* reset if balloon goes off screen *)
    let dy := 500%Z in
    let cv := move Z.add b 0%Z dy cv in
    let cv := move Z.add s 0%Z dy cv in
    Some cv
  else Some cv.

(** One run of [float_up]; it re-arms itself with [after(50, float_up)]. *)
Fixpoint float_up (balloons : list balloon) (cv : canvas Z)
  : option (canvas Z) :=
  match balloons with
  | [] => Some cv
  | bs :: rest => cv ← float_up_one bs cv; float_up rest cv
  end.

Fixpoint ticks (n : nat) (balloons : list balloon) (cv : canvas Z)
  : option (canvas Z) :=
  match n with
  | O => Some cv
  | S n' => cv ← float_up balloons cv; ticks n' balloons cv
  end.

(** [animate_balloons(canvas, colors)]: draws the balloons and calls
    [float_up] once; every later run of [float_up] comes from the timer.
    Returns the balloons that [float_up] closes over. *)
Definition animate_balloons (colors : list string) (cv : canvas Z)
  : option (list balloon * canvas Z) :=
  let '(balloons, cv) := make 0 colors [] cv in
  cv ← float_up balloons cv;
  Some (balloons, cv).

End Balloons.

(** ** The beating heart of the home tab *)

(** The scale of the heart is a binary64 number and its thresholds are hit
    or missed by rounding, so this part computes with primitive floats.  The
    functions of the C mathematics library are parameters. *)
Module Heart.
Import Tk.
Local Open Scope float_scope.

Definition Z2F (z : Z) : float :=
  if (z <? 0)%Z then - PrimFloat.of_uint63 (Uint63.of_Z (- z))
  else PrimFloat.of_uint63 (Uint63.of_Z z).

Definition N2F (n : nat) : float := Z2F (Z.of_nat n).

(** [math.pi] *)
Definition pi : float := 0x1.921fb54442d18p+1.

Section Outline.
Variables sin cos : float -> float.
Variable pow : float -> float -> float.

(** [heart_points(cx, cy, size, steps)] *)
Definition heart_points (cx cy : Z) (size : float) (steps : nat)
  : list (float * float) :=
  map (fun i : nat =>
         let t := N2F i * (2 * pi / N2F steps) in
         let x := 16 * pow (sin t) 3 in
         let y := 13 * cos t - 5 * cos (2 * t) - 2 * cos (3 * t)
                  - cos (4 * t) in
         let x := x * (size / 32) in
         let y := y * (size / 32) in
         (Z2F cx + x, Z2F cy - y))
      (seq 0 steps).

(** The home tab: its canvas and the flag shared by the animations. *)
Record Home := {
  canvas : Tk.canvas float;
  animating : bool
}.

(** A call of [beat] waiting in the timer queue, with the variables of
    the enclosing [draw_beating_heart] it closes over. *)
Record beat_call := {
  cx : Z;
  cy : Z;
  base : float;
  scale : float;
  growing : bool
}.

Definition draw_segment (pts : list (float * float)) (cv : Tk.canvas float)
    (i : nat) : Tk.canvas float :=
  match nth_error pts i, nth_error pts ((i + 1) mod length pts) with
  | Some (x1, y1), Some (x2, y2) =>
      snd (create (Item line [x1; y1; x2; y2] "#ff4d6d" ["heart"]) cv)
  | _, _ => cv
  end.

Definition draw_outline (pts : list (float * float)) (cv : Tk.canvas float)
  : Tk.canvas float :=
  fold_left (draw_segment pts) (seq 0 (length pts)) cv.

(** The last lines of [beat]: the arguments of the next call. *)
Definition advance (scale : float) (growing : bool) : float * bool :=
  let next_scale := scale + (if growing then 0.02 else -0.02) in
  let growing := if 1.08 <? next_scale then false else growing in
  let growing := if next_scale <? 0.92 then true else growing in
  (next_scale, growing).

(** [beat(scale, growing)]: the new home tab and the call it schedules
    with [after(50, ...)], if any. *)
Definition beat (c : beat_call) (app : Home) : Home * option beat_call :=
  if negb (animating app) then (app, None)
  else
    (* delete only heart items, leave confetti/messages intact *)
    let cv := delete "heart" (canvas app) in
    let pts := heart_points (cx c) (cy c) (base c * scale c) 160 in
    let cv := draw_outline pts cv in
    let '(next_scale, growing) := advance (scale c) (growing c) in
    ({| canvas := cv; animating := animating app |},
     Some {| cx := cx c; cy := cy c; base := base c;
             scale := next_scale; growing := growing |}).

(** [draw_beating_heart], for a canvas of [w] by [h] pixels. *)
Definition draw_beating_heart (w h : Z) (app : Home)
  : Home * option beat_call :=
  if animating app then
    ({| canvas := delete "heart" (canvas app); animating := false |}, None)
  else
    let c := {| cx := w / 2; cy := h / 2;
                base := Z2F (Z.min w h) * 0.35;
                scale := 1.0; growing := true |} in
    beat c {| canvas := canvas app; animating := true |}.

(** The timer fires: the pending call runs. *)
Definition tick (st : Home * option beat_call) : Home * option beat_call :=
  match snd st with
  | Some c => beat c (fst st)
  | None => st
  end.

End Outline.

(** The scale and direction handed to the [n]-th call of [beat] of a loop
    that was started by [beat(1.0, True)]. *)
Definition beat_args (n : nat) : float * bool :=
  Nat.iter n (fun a => advance (fst a) (snd a)) (1.0, true).

Definition within (lo hi x : float) : bool := (lo <=? x) && (x <=? hi).

End Heart.

(** ** The matching game *)

Module MatchGame.

Inductive button_state := normal | disabled.

Record button := Button { text : string; state : button_state }.

(** The fields of [BirthdayApp] the game uses.  [timers] counts the pending
    [after(800, flip_back)] calls and [win_labels] the labels placed by
    [show_win_message]. *)
Record t := {
  game_words : list string;
  buttons : list button;
  flipped : list nat;
  matched : list nat;
  timers : nat;
  win_labels : nat
}.

Definition hidden : string := "❓".

(** The state [_build_quiz_tab] leaves behind for an already shuffled list
    of words, one button per word. *)
Definition build (words : list string) : t :=
  {| game_words := words;
     buttons := repeat (Button hidden normal) (length words);
     flipped := [];
     matched := [];
     timers := 0;
     win_labels := 0 |}.

Definition mem (i : nat) (l : list nat) : bool := existsb (Nat.eqb i) l.

Definition show_win_message (g : t) : t :=
  {| game_words := game_words g; buttons := buttons g;
     flipped := flipped g; matched := matched g;
     timers := timers g; win_labels := S (win_labels g) |}.

(** [flip_card(index)]; [None] is an [IndexError]. *)
Definition flip_card (index : nat) (g : t) : option t :=
  if mem index (matched g) || mem index (flipped g) then Some g
  else
    _ ← buttons g !! index;
    word ← game_words g !! index;
    let btns := <[index := Button word disabled]> (buttons g) in
    let fl := flipped g ++ [index] in
    match fl with
    | [i1; i2] =>
        w1 ← game_words g !! i1;
        w2 ← game_words g !! i2;
        if String.eqb w1 w2 then
          let g' := {| game_words := game_words g; buttons := btns;
                       flipped := []; matched := matched g ++ [i1; i2];
                       timers := timers g; win_labels := win_labels g |} in
          if Nat.eqb (length (matched g')) (length (game_words g'))
          then Some (show_win_message g')
          else Some g'
        else
          Some {| game_words := game_words g; buttons := btns;
                  flipped := fl; matched := matched g;
                  timers := S (timers g); win_labels := win_labels g |}
    | _ =>
        Some {| game_words := game_words g; buttons := btns;
                flipped := fl; matched := matched g;
                timers := timers g; win_labels := win_labels g |}
    end.

Fixpoint reset_buttons (idxs : list nat) (btns : list button)
  : option (list button) :=
  match idxs with
  | [] => Some btns
  | i :: idxs' =>
      _ ← btns !! i;
      reset_buttons idxs' (<[i := Button hidden normal]> btns)
  end.

(** [flip_back] *)
Definition flip_back (g : t) : option t :=
  btns ← reset_buttons (flipped g) (buttons g);
  Some {| game_words := game_words g; buttons := btns;
          flipped := []; matched := matched g;
          timers := timers g; win_labels := win_labels g |}.

(** What can happen to the game: a card is clicked, or the delay of a
    pending [flip_back] elapses.  A disabled button ignores clicks. *)
Inductive event := Click (index : nat) | Elapse.

Definition react (g : t) (e : event) : option t :=
  match e with
  | Click index =>
      match buttons g !! index with
      | Some (Button _ normal) => flip_card index g
      | _ => Some g
      end
  | Elapse =>
      match timers g with
      | O => Some g
      | S n =>
          flip_back {| game_words := game_words g; buttons := buttons g;
                       flipped := flipped g; matched := matched g;
                       timers := n; win_labels := win_labels g |}
      end
  end.

Fixpoint run (g : t) (es : list event) : option t :=
  match es with
  | [] => Some g
  | e :: es' => g' ← react g e; run g' es'
  end.

(** States the game can be in after some sequence of events. *)
Definition reachable (words : list string) (g : t) : Prop :=
  exists es, run (build words) es = Some g.

End MatchGame.

(** ** Observations used by the properties *)

Module Obs.
Import Tk.

(** The items of a canvas that do not carry the tag ["heart"]. *)
Definition not_heart {C} (cv : canvas C) : list (nat * item C) :=
  List.filter (fun e => negb (has_tag "heart" (snd e))) (display cv).

(** The fill colour of an item, if it exists. *)
Definition fill_of {C} (id : nat) (cv : canvas C) : option string :=
  fill <$> find_item id cv.

End Obs.

(** ** Sample runs *)

Module Demo.
Import Tk.

(** Two pieces of confetti on a canvas of 800 by 500 pixels.  The first
    twelve draws make the pieces: an oval of size 3 at (10, -13) that falls
    by 3.375 and drifts by 0.25 per frame, and one of size 5 at (200, -100)
    that falls by 2.125 and drifts by -0.5.  The thirteenth is the next
    [randint] of a respawn. *)
Definition confetti_draws : list Z :=
  [ 10; 487; 0; 0; 3 * 2 ^ 51; 5 * 2 ^ 50;
    200; 400; 2; 3; 2 ^ 51; 2 ^ 51;
    123 ]%Z.

Definition confetti_source : Random.source :=
  Random.Source (fun n => nth n confetti_draws 0%Z) 0.

(** The coordinates of oval [id] after [n] frames. *)
Definition confetti_coords (n id : nat) : list float :=
  match Confetti.init Tk.empty 800 500 2 confetti_source with
  | Some (self, st) =>
      match Confetti.steps n self st with
      | Some (cv, _) => get_coords id cv
      | None => []
      end
  | None => []
  end.

(** A source whose first draw makes [random()] return 2^-53, and one whose
    fifth draw makes the speed of the only piece round to 2.0. *)
Definition tiny_source : Random.source :=
  Random.Source (fun n => if Nat.eqb n 0 then 1%Z else 0%Z) 0.

Definition rounding_draws : list Z :=
  [ 10; 500; 0; 0; 1801439850948199; 2 ^ 52; 77 ]%Z.

Definition rounding_source : Random.source :=
  Random.Source (fun n => nth n rounding_draws 0%Z) 0.

(** The piece and the coordinates of its oval after [n] frames of a system
    of one piece built from [rounding_source]. *)
Definition rounding_run (n : nat) : option (Confetti.piece * list float) :=
  match Confetti.init Tk.empty 800 500 1 rounding_source with
  | Some (self, st) =>
      match Confetti.pieces self, Confetti.steps n self st with
      | [p], Some (cv, _) => Some (p, get_coords 1 cv)
      | _, _ => None
      end
  | None => None
  end.

(** A machine without Pillow.  The script lives in [/home/u/app], which is
    also the working directory; its picture folder holds four entries, of
    which [a.png] is a readable picture of 1500 by 500 pixels. *)
Definition files : list string := ["b.GIF"; "notes.txt"; "a.png"; "c.jpg"].

Definition env : ImageLoader.Env :=
  {| ImageLoader.PIL_AVAILABLE := false;
     ImageLoader.getcwd := "/home/u/app";
     ImageLoader.script_dir := "/home/u/app";
     ImageLoader.isdir := String.eqb "/home/u/app/assets/images";
     ImageLoader.listdir := fun _ => files;
     ImageLoader.pil_thumbnail := fun _ _ _ => None;
     ImageLoader.tk_PhotoImage := fun p =>
       if String.eqb p "/home/u/app/assets/images/a.png"
       then Some (1500, 500)%Z else None |}.

(** The same machine after [b.GIF] has been replaced by a readable file. *)
Definition env_fixed : ImageLoader.Env :=
  {| ImageLoader.PIL_AVAILABLE := false;
     ImageLoader.getcwd := "/home/u/app";
     ImageLoader.script_dir := "/home/u/app";
     ImageLoader.isdir := String.eqb "/home/u/app/assets/images";
     ImageLoader.listdir := fun _ => files;
     ImageLoader.pil_thumbnail := fun _ _ _ => None;
     ImageLoader.tk_PhotoImage := fun p =>
       if String.eqb p "/home/u/app/assets/images/a.png"
       then Some (1500, 500)%Z
       else if String.eqb p "/home/u/app/assets/images/b.GIF"
       then Some (64, 64)%Z else None |}.

Definition loader : ImageLoader.t := ImageLoader.init 720 480.

Definition py : ImageLoader.Interp :=
  {| ImageLoader.next_obj := 0; ImageLoader.decoded := [] |}.

(** The six balloons of the left canvas of the welcome screen, and the
    coordinates of item [id] after [n] runs of [float_up]. *)
Definition left_colors : list string :=
  ["red"; "blue"; "green"; "yellow"; "pink"; "purple"].

Definition balloon_coords (n id : nat) : list Z :=
  let '(balloons, cv) := Balloons.make 0 left_colors [] Tk.empty in
  match Balloons.ticks n balloons cv with
  | Some cv' => get_coords id cv'
  | None => []
  end.

End Demo.

(** ** Consistency of the matching game *)

Module GameInv.
Import MatchGame.

(** A card shows its word when it is matched or currently flipped. *)
Definition face_up (g : t) (i : nat) : bool :=
  mem i (matched g) || mem i (flipped g).

(** The cards of a list of pairs, in order. *)
Definition unpair (ps : list (nat * nat)) : list nat :=
  flat_map (fun p => [fst p; snd p]) ps.

(** What the fields of the game satisfy together, for the word list
    [words] the tab was built with. *)
Record ok (words : list string) (g : t) : Prop := Ok {
  ok_words : game_words g = words;
  ok_length : length (buttons g) = length words;
  ok_nodup : List.NoDup (matched g ++ flipped g);
  ok_range : forall i, In i (matched g ++ flipped g) -> i < length words;
  ok_buttons : forall i, i < length words ->
    buttons g !! i
    = Some (if face_up g i then Button (nth i words "") disabled
            else Button hidden normal);
  ok_timers : (timers g = 0 /\ length (flipped g) <= 1)
              \/ (timers g = 1 /\ 2 <= length (flipped g));
  ok_pairs : exists ps, matched g = unpair ps
                        /\ forall p, In p ps -> words !! fst p = words !! snd p;
  ok_win : win_labels g
           = if negb (Nat.eqb (length (matched g)) 0)
                && Nat.eqb (length (matched g)) (length words)
             then 1 else 0
}.

End GameInv.

(** ** Shuffling *)

Module Shuffle.
Import Random.

(** [x[i], x[j] = x[j], x[i]], for indices inside the list *)
Definition swap {A} (x : list A) (i j : nat) : list A :=
  match x !! i, x !! j with
  | Some a, Some b => <[j := a]> (<[i := b]> x)
  | _, _ => x
  end.

(** The loop of [random.shuffle] from index [i] down to 1: each round draws
    [j = randbelow(i + 1)] and exchanges the entries [i] and [j]. *)
Fixpoint shuffle_from {A} (i : nat) (x : list A) (g : source)
  : list A * source :=
  match i with
  | O => (x, g)
  | S i' =>
      let '(r, g') := next g in
      let j := Z.to_nat (r mod Z.of_nat (i + 1)) in
      shuffle_from i' (swap x i j) g'
  end.

(** [random.shuffle(x)] *)
Definition shuffle {A} (x : list A) (g : source) : list A * source :=
  shuffle_from (length x - 1) x g.

End Shuffle.

(** ** Setting up the game tab *)

Module Quiz.
Import MatchGame.

Definition words : list string :=
  ["nickname1"; "nickname2"; "nickname3";
   "nickname4"; "nickname5"; "nickname6"].

Definition rows : nat := 3.
Definition cols : nat := 4.

(** [_build_quiz_tab]: the deck is [words * 2], shuffled, and the grid has
    [rows * cols] buttons. *)
Definition _build_quiz_tab (g : Random.source) : MatchGame.t * Random.source :=
  let '(game_words, g') := Shuffle.shuffle (words ++ words) g in
  ({| game_words := game_words;
      buttons := repeat (Button hidden normal) (rows * cols);
      flipped := [];
      matched := [];
      timers := 0;
      win_labels := 0 |}, g').

End Quiz.

(** ** The memories tab *)

Module Gallery.
Import ImageLoader.

(** [images], [cur_idx] and the picture that [gallery_img_label] shows. *)
Record t := {
  images : list string;
  cur_idx : Z;
  label : option photo
}.

(** The gallery together with the loader and the interpreter state that
    [load] threads through. *)
Definition state : Type := t * ImageLoader.t * Interp.

(** [l[i]] for a Python list: a negative index counts from the end. *)
Definition getitem {A} (l : list A) (i : Z) : option A :=
  let n := Z.of_nat (length l) in
  if (i <? 0)%Z then
    if (i + n <? 0)%Z then None else l !! Z.to_nat (i + n)
  else l !! Z.to_nat i.

Definition _show_current (env : Env) (st : state) : option state :=
  let '(self, loader, py) := st in
  match images self with
  | [] => Some st
  | _ =>
      path ← getitem (images self) (cur_idx self);
      let '(ph, loader, py) := load env loader py path in
      match ph with
      | None => Some (self, loader, py)
      | Some p =>
          Some ({| images := images self; cur_idx := cur_idx self;
                   label := Some p |}, loader, py)
      end
  end.

Definition turn (step : Z) (env : Env) (st : state) : option state :=
  let '(self, loader, py) := st in
  match images self with
  | [] => Some st
  | _ =>
      _show_current env
        ({| images := images self;
            cur_idx := ((cur_idx self + step)
                        mod Z.of_nat (length (images self)))%Z;
            label := label self |}, loader, py)
  end.

Definition show_prev : Env -> state -> option state := turn (-1).
Definition show_next : Env -> state -> option state := turn 1.

Definition shuffle_gallery (env : Env) (g : Random.source) (st : state)
  : option state * Random.source :=
  let '(self, loader, py) := st in
  match images self with
  | [] => (Some st, g)
  | _ =>
      let '(imgs, g') := Shuffle.shuffle (images self) g in
      (_show_current env
         ({| images := imgs; cur_idx := 0; label := label self |}, loader, py),
       g')
  end.

(** The end of [_build_memories_tab]: list the pictures, show the first. *)
Definition _build_memories_tab (env : Env) (loader : ImageLoader.t)
    (py : Interp) : option state :=
  _show_current env
    ({| images := list_images env; cur_idx := 0; label := None |}, loader, py).

End Gallery.

(** The memories tab of the sample machine as it stands on its first
    picture, before anything has been loaded. *)
Module DemoGallery.

Definition gallery : Gallery.t :=
  {| Gallery.images := ImageLoader.list_images Demo.env;
     Gallery.cur_idx := 0;
     Gallery.label := None |}.

Definition start : Gallery.state := (gallery, Demo.loader, Demo.py).

End DemoGallery.

(** ** Observations on canvases and on the confetti *)

Module Frame.
Import Tk.

(** Item ids are handed out in sequence, so every item on a canvas has an
    id below [next_id]. *)
Definition canvas_ok {C} (cv : canvas C) : Prop :=
  forall e, In e (display cv) -> fst e < next_id cv.

(** Everything about the items of a canvas except their coordinates. *)
Definition outline {C} (cv : canvas C)
  : list (nat * (shape * string * list string)) :=
  map (fun e => (fst e, (kind (snd e), fill (snd e), tags (snd e))))
      (display cv).

(** [canvas.delete("all")], as [_on_home_resize] calls it. *)
Definition delete_all {C} (cv : canvas C) : canvas C :=
  Canvas (next_id cv) [].

End Frame.

Module ConfettiInv.
Import Tk Confetti.

(** An oval as [Confetti.__init__] draws it into an area of [width] by
    [height]. *)
Definition is_piece_oval (width height : Z) (it : item float) : Prop :=
  exists x y r : Z,
    (0 <= x <= width)%Z /\ (- height <= y <= 0)%Z /\ (3 <= r <= 7)%Z
    /\ In (fill it) COLORS
    /\ it = Item oval [Num.of_int x; Num.of_int y;
                       Num.of_int (x + r); Num.of_int (y + r)]
                 (fill it) ["confetti"].

(** Every piece has its oval on the canvas. *)
Definition ovals_present (self : t) (cv : canvas float) : Prop :=
  forall p, In p (pieces self) -> length (get_coords (shape_of p) cv) = 4.

End ConfettiInv.

(** ** Observations on the balloons *)

Module BalloonInv.
Import Tk Balloons.

(** Where one run of [float_up] puts a top edge that is at [y]. *)
Definition rise (y : Z) : Z :=
  if (y - 1 <? -60)%Z then (y - 1 + 500)%Z else (y - 1)%Z.

(** A balloon whose body has its top left corner at [(x, y)], with the
    string hanging from the middle of its lower edge. *)
Definition hangs (x y : Z) (bs : balloon) (cv : canvas Z) : Prop :=
  get_coords (fst bs) cv = [x; y; x + 40; y + 50]%Z
  /\ get_coords (snd bs) cv = [x + 20; y + 50; x + 20; y + 70]%Z.

End BalloonInv.

(** Where the drawing loop of [animate_balloons] puts the balloon with body
    id [2 i + 1] on an empty canvas. *)
Module DemoBalloons.

Definition start_pos (bs : Balloons.balloon) : Z * Z :=
  let i := (fst bs - 1) / 2 in
  ((if Nat.eqb (i mod 2) 0 then 30 else 70)%Z, (400 + Z.of_nat i * 60)%Z).

(** A canvas with a single balloon. *)
Definition single : list Balloons.balloon * Tk.canvas Z :=
  Balloons.make 0 ["red"] [] Tk.empty.

End DemoBalloons.

(** ** Observations on the heart *)

Module HeartObs.
Import Tk.

(** The items of a canvas that carry the tag ["heart"]. *)
Definition heart_items {C} (cv : canvas C) : list (nat * item C) :=
  List.filter (fun e => has_tag "heart" (snd e)) (display cv).

(** The line from point [i] of an outline to its successor, the successor
    of the last point being the first. *)
Definition segment (pts : list (float * float)) (i : nat) : item float :=
  let p := nth i pts (0%float, 0%float) in
  let q := nth ((i + 1) mod length pts) pts (0%float, 0%float) in
  Item line [fst p; snd p; fst q; snd q] "#ff4d6d" ["heart"].

End HeartObs.

(** ** The timer queue of the heart *)

(** Every pending [after(50, ...)] of [beat] waits in a queue; all delays
    are equal, so the calls run in the order in which they were scheduled. *)
Module HeartTimers.
Import Heart.

Section Queue.
Variables sin cos : float -> float.
Variable pow : float -> float -> float.

Definition state : Type := Home * list beat_call.

Definition scheduled (c : option beat_call) : list beat_call :=
  match c with
  | Some c => [c]
  | None => []
  end.

(** The button "Draw Heart" is pressed. *)
Definition press (w h : Z) (st : state) : state :=
  let '(app, c) := draw_beating_heart sin cos pow w h (fst st) in
  (app, snd st ++ scheduled c).

(** The oldest pending call runs. *)
Definition fire (st : state) : state :=
  match snd st with
  | [] => st
  | c :: rest =>
      let '(app, c') := beat sin cos pow c (fst st) in
      (app, rest ++ scheduled c')
  end.

End Queue.

End HeartTimers.

(** A home tab on which the heart is being drawn, and a call of [beat] as
    [draw_beating_heart] makes it for a canvas of 800 by 500 pixels.  The
    stand-ins for the mathematics library are arbitrary. *)
Module DemoHeart.
Import Heart.

Definition id_fn (x : float) : float := x.
Definition cube (x _ : float) : float := (x * x * x)%float.

Definition home : Home := {| canvas := Tk.empty; animating := true |}.

Definition idle : Home := {| canvas := Tk.empty; animating := false |}.

Definition call : beat_call :=
  {| cx := 400; cy := 250; base := (Z2F 500 * 0.35)%float;
     scale := 1.0%float; growing := true |}.

End DemoHeart.

(** ** The countdown to the important dates *)

(** [datetime.date], as far as [update_dates_countdown] uses it: the
    constructor with its range checks, the comparison and the difference in
    days, written after the pure Python implementation of the module. *)
Module Dates.

Record date := Date { year : Z; month : Z; day : Z }.

Local Open Scope Z_scope.

Definition _is_leap (y : Z) : bool :=
  (y mod 4 =? 0) && (negb (y mod 100 =? 0) || (y mod 400 =? 0)).

Definition _DAYS_IN_MONTH (m : Z) : Z :=
  nth (Z.to_nat m) [-1; 31; 28; 31; 30; 31; 30; 31; 31; 30; 31; 30; 31] 0.

Definition _DAYS_BEFORE_MONTH (m : Z) : Z :=
  nth (Z.to_nat m)
      [-1; 0; 31; 59; 90; 120; 151; 181; 212; 243; 273; 304; 334] 0.

Definition _days_before_year (y : Z) : Z :=
  let y := y - 1 in y * 365 + y / 4 - y / 100 + y / 400.

Definition _days_in_month (y m : Z) : Z :=
  if (m =? 2) && _is_leap y then 29 else _DAYS_IN_MONTH m.

Definition _days_before_month (y m : Z) : Z :=
  _DAYS_BEFORE_MONTH m + (if (2 <? m) && _is_leap y then 1 else 0).

Definition _ymd2ord (y m d : Z) : Z :=
  _days_before_year y + _days_before_month y m + d.

(** [dt.date(y, m, d)]; [None] is a [ValueError]. *)
Definition make (y m d : Z) : option date :=
  if (1 <=? y) && (y <=? 9999) && (1 <=? m) && (m <=? 12)
     && (1 <=? d) && (d <=? _days_in_month y m)
  then Some (Date y m d) else None.

Definition toordinal (a : date) : Z := _ymd2ord (year a) (month a) (day a).

(** [a < b] compares year, month and day in this order. *)
Definition lt (a b : date) : bool :=
  (year a <? year b)
  || ((year a =? year b)
      && ((month a <? month b)
          || ((month a =? month b) && (day a <? day b)))).

(** [(a - b).days] *)
Definition days_between (a b : date) : Z := toordinal a - toordinal b.

(** The body of the loop of [update_dates_countdown] for the date
    [(m, d)]: the number of days that the label will show. *)
Definition days_left (today : date) (m d : Z) : option Z :=
  event_date ← make (year today) m d;
  event_date ←
    (if lt event_date today   (* if passed, use next year *)
     then make (year today + 1) m d
     else Some event_date);
  Some (days_between event_date today).

End Dates.

(* ===================================================================== *)
(** * Part II. Properties *)
(* ===================================================================== *)

(** [NoDup] of a list of numerals. *)
Ltac nodup_literal :=
  repeat (apply List.NoDup_cons; [cbn; intuition discriminate|]);
  apply List.NoDup_nil.

(** ** The drawing surface *)

Section CanvasFacts.
Import Tk.
Context {C : Type} (add : C -> C -> C).

Lemma find_move_item id id' dx dy (l : list (nat * item C)) :
  List.find (fun e => Nat.eqb (fst e) id') (map (move_item add id dx dy) l)
  = move_item add id dx dy
      <$> List.find (fun e => Nat.eqb (fst e) id') l.
Proof.
  induction l as [|e l IH]; simpl; [reflexivity|].
  assert (Hfst : fst (move_item add id dx dy e) = fst e).
  { unfold move_item. destruct (Nat.eqb (fst e) id); reflexivity. }
  rewrite Hfst. destruct (Nat.eqb (fst e) id'); [reflexivity | exact IH].
Qed.

Lemma find_item_move id id' dx dy (cv : canvas C) :
  find_item id' (move add id dx dy cv)
  = (fun it => if Nat.eqb id' id
               then Item (kind it) (shift add dx dy (coords it))
                         (fill it) (tags it)
               else it) <$> find_item id' cv.
Proof.
  unfold find_item, move. simpl. rewrite find_move_item.
  destruct (List.find _ (display cv)) as [e|] eqn:Hf; simpl; [|reflexivity].
  apply find_some in Hf as [_ He]. apply Nat.eqb_eq in He.
  unfold move_item. rewrite He.
  destruct (Nat.eqb id' id); reflexivity.
Qed.

Lemma get_coords_move_same id dx dy (cv : canvas C) :
  get_coords id (move add id dx dy cv) = shift add dx dy (get_coords id cv).
Proof.
  unfold get_coords. rewrite find_item_move, Nat.eqb_refl.
  destruct (find_item id cv); reflexivity.
Qed.

Lemma get_coords_move_other id id' dx dy (cv : canvas C) :
  id' <> id ->
  get_coords id' (move add id dx dy cv) = get_coords id' cv.
Proof.
  intros Hne. unfold get_coords. rewrite find_item_move.
  apply Nat.eqb_neq in Hne. rewrite Hne.
  destruct (find_item id' cv); reflexivity.
Qed.

Lemma fill_of_move id id' dx dy (cv : canvas C) :
  Obs.fill_of id' (move add id dx dy cv) = Obs.fill_of id' cv.
Proof.
  unfold Obs.fill_of. rewrite find_item_move.
  destruct (find_item id' cv); simpl; [|reflexivity].
  destruct (Nat.eqb id' id); reflexivity.
Qed.

Lemma not_heart_create (it : item C) (cv : canvas C) :
  has_tag "heart" it = true ->
  Obs.not_heart (snd (create it cv)) = Obs.not_heart cv.
Proof.
  intros Ht. unfold Obs.not_heart, create. simpl.
  rewrite List.filter_app. simpl. rewrite Ht. simpl. apply app_nil_r.
Qed.

Lemma not_heart_delete (cv : canvas C) :
  Obs.not_heart (delete "heart" cv) = Obs.not_heart cv.
Proof.
  unfold Obs.not_heart, delete. simpl.
  induction (display cv) as [|e l IH]; simpl; [reflexivity|].
  destruct (has_tag "heart" (snd e)) eqn:He; simpl; rewrite ?He; simpl;
    congruence.
Qed.

End CanvasFacts.

(** ** The heart *)

Section HeartFacts.
Import Tk Heart.
Variables sin cos : float -> float.
Variable pow : float -> float -> float.

Lemma not_heart_draw_outline pts (cv : Tk.canvas float) :
  Obs.not_heart (draw_outline pts cv) = Obs.not_heart cv.
Proof.
  unfold draw_outline. generalize (seq 0 (length pts)) as idx.
  intros idx. revert cv.
  induction idx as [|i idx IH]; intros cv; simpl; [reflexivity|].
  rewrite IH. unfold draw_segment.
  destruct (nth_error pts i) as [[x1 y1]|]; [|reflexivity].
  destruct (nth_error pts ((i + 1) mod length pts)) as [[x2 y2]|];
    [|reflexivity].
  apply not_heart_create. reflexivity.
Qed.

(** While the animation runs, a beat schedules the call that [advance]
    computes; once it is switched off, nothing is scheduled. *)
Lemma beat_schedules c app :
  snd (beat sin cos pow c app)
  = if animating app
    then Some {| cx := cx c; cy := cy c; base := base c;
                 scale := fst (advance (scale c) (growing c));
                 growing := snd (advance (scale c) (growing c)) |}
    else None.
Proof.
  unfold beat. destruct (animating app); simpl; [|reflexivity].
  destruct (advance (scale c) (growing c)); reflexivity.
Qed.

Lemma beat_keeps_animating c app :
  animating (fst (beat sin cos pow c app)) = animating app.
Proof.
  unfold beat. destruct (animating app) eqn:Ha; simpl; [|exact Ha].
  destruct (advance (scale c) (growing c)); reflexivity.
Qed.

(** The loop that [draw_beating_heart] starts hands [beat_args] to its
    successive calls. *)
Lemma heart_loop_args w h app n :
  animating app = false ->
  let st := Nat.iter n (tick sin cos pow)
              (draw_beating_heart sin cos pow w h app) in
  animating (fst st) = true /\
  exists c, snd st = Some c /\ (scale c, growing c) = beat_args (S n).
Proof.
  intros Ha. cbv zeta. induction n as [|n IH].
  - unfold Nat.iter; cbn [nat_rect].
    unfold draw_beating_heart. rewrite Ha. split.
    + rewrite beat_keeps_animating. reflexivity.
    + rewrite beat_schedules. cbn [animating]. eexists.
      split; [reflexivity|]. cbn [scale growing].
      rewrite <- surjective_pairing. reflexivity.
  - rewrite Nat.iter_succ. destruct IH as [Han [c [Hc Hargs]]].
    assert (Ht : forall st c', snd st = Some c' ->
              tick sin cos pow st = beat sin cos pow c' (fst st)).
    { intros st c' Hst. unfold tick. rewrite Hst. reflexivity. }
    rewrite (Ht _ _ Hc). split.
    + rewrite beat_keeps_animating. exact Han.
    + rewrite beat_schedules, Han. eexists. split; [reflexivity|].
      cbn [scale growing]. rewrite <- surjective_pairing.
      change (beat_args (S (S n)))
        with (advance (fst (beat_args (S n))) (snd (beat_args (S n)))).
      rewrite <- Hargs. reflexivity.
Qed.

End HeartFacts.

Lemma beat_args_period n : Heart.beat_args (n + 18) = Heart.beat_args n.
Proof.
  unfold Heart.beat_args. rewrite Nat.iter_add.
  replace (Nat.iter 18 _ (1%float, true)) with (1%float, true);
    [reflexivity | vm_compute; reflexivity].
Qed.

Lemma beat_args_mod n : Heart.beat_args n = Heart.beat_args (n mod 18).
Proof.
  induction n as [n IH] using lt_wf_ind.
  destruct (Nat.lt_ge_cases n 18) as [Hlt|Hge].
  - rewrite Nat.mod_small by exact Hlt. reflexivity.
  - replace n with ((n - 18) + 18) at 1 by lia.
    rewrite beat_args_period, (IH (n - 18)) by lia.
    f_equal. replace n with ((n - 18) + 1 * 18) at 2 by lia.
    rewrite Nat.Div0.mod_add. reflexivity.
Qed.

(** C2, as stated, fails: the sixth call of the loop draws the heart at
    scale 1.1, above 1.08, and the fifteenth at 0.9199999999999999, below
    0.92. *)
Lemma beat_scale_leaves_band :
  Heart.beat_args 5 = (1.1%float, false)
  /\ Heart.within 0.92 1.08 (fst (Heart.beat_args 5)) = false
  /\ Heart.beat_args 14 = (0.9199999999999999%float, true)
  /\ Heart.within 0.92 1.08 (fst (Heart.beat_args 14)) = false.
Proof. vm_compute. repeat split; reflexivity. Qed.

(** C2, amended: the scale handed to every call of [beat] lies between
    0.9199999999999999 and 1.1, one step of 0.02 outside the thresholds 0.92
    and 1.08; each call adds 0.02 while growing and subtracts it while
    shrinking; the direction turns to shrinking when the next scale exceeds
    1.08 and to growing when it drops below 0.92; the sequence repeats every
    18 calls, so the oscillation never stops. *)
Theorem beat_scale_oscillates :
  forall n,
    Heart.within 0.9199999999999999 1.1 (fst (Heart.beat_args n)) = true
    /\ Heart.beat_args (n + 18) = Heart.beat_args n
    /\ (let '(s, g) := Heart.beat_args n in
        let '(s', g') := Heart.beat_args (S n) in
        s' = (s + (if g then 0.02 else -0.02))%float
        /\ g' = if (s' <? 0.92)%float then true
                else if (1.08 <? s')%float then false else g).
Proof.
  intros n. split; [|split].
  - rewrite beat_args_mod.
    assert (Hlt : n mod 18 < 18) by (apply Nat.mod_upper_bound; lia).
    revert Hlt. generalize (n mod 18) as r. intros r Hlt.
    do 18 (destruct r as [|r]; [vm_compute; reflexivity|]). lia.
  - apply beat_args_period.
  - change (Heart.beat_args (S n))
      with (Heart.advance (fst (Heart.beat_args n)) (snd (Heart.beat_args n))).
    destruct (Heart.beat_args n) as [s g]. simpl. unfold Heart.advance.
    split; reflexivity.
Qed.

(** C9: a beat leaves every item that is not tagged ["heart"] (the confetti
    in particular) in place on the canvas, with the same id, coordinates,
    colour and tags, and adds no such item. *)
Theorem beat_leaves_other_items :
  forall (sin cos : float -> float) (pow : float -> float -> float)
         (c : Heart.beat_call) (app : Heart.Home),
    Obs.not_heart (Heart.canvas (fst (Heart.beat sin cos pow c app)))
    = Obs.not_heart (Heart.canvas app).
Proof.
  intros sin cos pow c app. unfold Heart.beat.
  destruct (Heart.animating app); simpl; [|reflexivity].
  destruct (Heart.advance (Heart.scale c) (Heart.growing c)). simpl.
  rewrite not_heart_draw_outline. apply not_heart_delete.
Qed.

(** ** Confetti *)

Section ConfettiFacts.
Import Tk Random Confetti.
Local Open Scope float_scope.

Lemma randint_range a b g r g' :
  randint a b g = Some (r, g') -> (a <= r <= b)%Z.
Proof.
  unfold randint. destruct (b <? a)%Z eqn:Hba; [discriminate|].
  apply Z.ltb_ge in Hba. unfold next. intros [= <- _].
  pose proof (Z.mod_pos_bound (raw g (pos g)) (b - a + 1)). lia.
Qed.

(** [uniform] rounds: with [random()] at 2^-53 the exact value
    1.5 + 2.5 * 2^-53 is not a binary64 number. *)
Lemma uniform_rounds :
  fst (uniform 1.5 4.0 Demo.tiny_source) = 0x1.8000000000001p+0.
Proof. vm_compute. reflexivity. Qed.

(** What one round of the loop does to the oval it handles. *)
Lemma step_piece_own self_w self_h shape speed drift cv g cv' g' x1 y1 x2 y2 :
  step_piece self_w self_h (shape, speed, drift) (cv, g) = Some (cv', g') ->
  get_coords shape cv = [x1; y1; x2; y2] ->
  ((Num.of_int self_h <? y1 + speed) = false ->
     g' = g /\
     get_coords shape cv' = [x1 + drift; y1 + speed; x2 + drift; y2 + speed])
  /\
  ((Num.of_int self_h <? y1 + speed) = true ->
     exists rx, randint 0 self_w g = Some (rx, g') /\
       let dx := Num.of_int rx - (x1 + drift) in
       let dy := Num.of_int (- self_h) - ((y2 + speed) - (y1 + speed)) in
       get_coords shape cv' =
         [x1 + drift + dx; y1 + speed + dy; x2 + drift + dx; y2 + speed + dy]).
Proof.
  unfold step_piece. rewrite get_coords_move_same. intros Hstep Hc.
  rewrite Hc in Hstep. cbn [shift] in Hstep.
  destruct (Num.of_int self_h <? y1 + speed) eqn:Hlt.
  - split; [intros H; discriminate H|]. intros _.
    destruct (randint 0 self_w g) as [[rx g1]|]; [|discriminate].
    cbn [mbind option_bind] in Hstep. injection Hstep as <- <-. exists rx.
    split; [reflexivity|]. cbv zeta.
    rewrite !get_coords_move_same, Hc. reflexivity.
  - split; [|intros H; discriminate H]. intros _. injection Hstep as <- <-.
    split; [reflexivity|].
    rewrite get_coords_move_same, Hc. reflexivity.
Qed.

(** It leaves the other items where they are, and changes no colour. *)
Lemma step_piece_other self_w self_h p cv g cv' g' id :
  step_piece self_w self_h p (cv, g) = Some (cv', g') ->
  id <> shape_of p ->
  get_coords id cv' = get_coords id cv.
Proof.
  destruct p as [[shape speed] drift]. unfold shape_of. cbn [fst].
  unfold step_piece. intros Hstep Hne.
  destruct (get_coords shape (move PrimFloat.add shape drift speed cv))
    as [|x1 [|y1 [|x2 [|y2 [|? ?]]]]]; try discriminate.
  destruct (Num.of_int self_h <? y1).
  - destruct (randint 0 self_w g) as [[rx g1]|]; [|discriminate].
    cbn [mbind option_bind] in Hstep. injection Hstep as <- <-.
    rewrite !get_coords_move_other by exact Hne. reflexivity.
  - injection Hstep as <- <-.
    rewrite get_coords_move_other by exact Hne. reflexivity.
Qed.

Lemma step_piece_fill self_w self_h p cv g cv' g' id :
  step_piece self_w self_h p (cv, g) = Some (cv', g') ->
  Obs.fill_of id cv' = Obs.fill_of id cv.
Proof.
  destruct p as [[shape speed] drift]. unfold step_piece. intros Hstep.
  destruct (get_coords shape (move PrimFloat.add shape drift speed cv))
    as [|x1 [|y1 [|x2 [|y2 [|? ?]]]]]; try discriminate.
  destruct (Num.of_int self_h <? y1).
  - destruct (randint 0 self_w g) as [[rx g1]|]; [|discriminate].
    cbn [mbind option_bind] in Hstep. injection Hstep as <- <-.
    rewrite !fill_of_move. reflexivity.
  - injection Hstep as <- <-. apply fill_of_move.
Qed.

Lemma step_pieces_other self_w self_h ps st st' id :
  step_pieces self_w self_h ps st = Some st' ->
  ~ In id (map shape_of ps) ->
  get_coords id (fst st') = get_coords id (fst st).
Proof.
  revert st. induction ps as [|p ps IH]; intros st Hrun Hnot; cbn in Hrun.
  - injection Hrun as <-. reflexivity.
  - destruct st as [cv g].
    destruct (step_piece self_w self_h p (cv, g)) as [[cv1 g1]|] eqn:Hp;
      [|discriminate].
    cbn in Hrun. rewrite (IH _ Hrun).
    + cbn [fst]. eapply step_piece_other; [exact Hp|].
      intros ->. apply Hnot. left. reflexivity.
    + intros Hin. apply Hnot. right. exact Hin.
Qed.

Lemma step_pieces_fill self_w self_h ps st st' id :
  step_pieces self_w self_h ps st = Some st' ->
  Obs.fill_of id (fst st') = Obs.fill_of id (fst st).
Proof.
  revert st. induction ps as [|p ps IH]; intros st Hrun; cbn in Hrun.
  - injection Hrun as <-. reflexivity.
  - destruct st as [cv g].
    destruct (step_piece self_w self_h p (cv, g)) as [[cv1 g1]|] eqn:Hp;
      [|discriminate].
    cbn in Hrun. rewrite (IH _ Hrun). cbn [fst].
    eapply step_piece_fill. exact Hp.
Qed.

(** The source only moves forward, by at most one draw per piece. *)
Lemma step_pieces_draws self_w self_h ps : forall cv g cv' g',
  step_pieces self_w self_h ps (cv, g) = Some (cv', g') ->
  raw g' = raw g /\ (pos g <= pos g' <= pos g + length ps)%nat.
Proof.
  induction ps as [|p ps IH]; intros cv g cv' g' Hrun;
    cbn [step_pieces] in Hrun.
  - injection Hrun as <- <-. cbn. split; [reflexivity|lia].
  - destruct (step_piece self_w self_h p (cv, g)) as [[cv1 g1]|] eqn:Hp;
      [|discriminate].
    cbn [mbind option_bind] in Hrun.
    destruct (IH _ _ _ _ Hrun) as [Hraw Hpos].
    assert (H1 : raw g1 = raw g /\ (pos g <= pos g1 <= S (pos g))%nat).
    { destruct p as [[shape speed] drift]. unfold step_piece in Hp.
      destruct (get_coords shape (move PrimFloat.add shape drift speed cv))
        as [|x1 [|y1 [|x2 [|y2 [|? ?]]]]]; try discriminate.
      destruct (Num.of_int self_h <? y1).
      - unfold randint in Hp. destruct (self_w <? 0)%Z; [discriminate|].
        cbn in Hp. injection Hp as <- <-. cbn. split; [reflexivity|lia].
      - injection Hp as <- <-. split; [reflexivity|lia]. }
    destruct H1 as [Hraw1 Hpos1]. cbn [length].
    split; [congruence|lia].
Qed.

(** A frame of the whole system, seen from its [i]-th piece: the state in
    which the loop reaches the piece, after the pieces before it, and the
    state in which it leaves it. *)
Lemma step_pieces_split self_w self_h ps : forall st st' i p,
  step_pieces self_w self_h ps st = Some st' ->
  nth_error ps i = Some p ->
  List.NoDup (map shape_of ps) ->
  exists cv1 g1 cv2 g2,
    step_pieces self_w self_h (firstn i ps) st = Some (cv1, g1)
    /\ get_coords (shape_of p) cv1 = get_coords (shape_of p) (fst st)
    /\ step_piece self_w self_h p (cv1, g1) = Some (cv2, g2)
    /\ get_coords (shape_of p) (fst st') = get_coords (shape_of p) cv2.
Proof.
  induction ps as [|q ps IH]; intros st st' i p Hrun Hi Hnd;
    [destruct i; discriminate|].
  cbn in Hrun. destruct st as [cv g].
  destruct (step_piece self_w self_h q (cv, g)) as [[cv1 g1]|] eqn:Hq;
    [|discriminate].
  cbn in Hrun. cbn [map] in Hnd. apply List.NoDup_cons_iff in Hnd as [Hq_new Hnd].
  destruct i as [|i].
  - cbn in Hi. injection Hi as ->.
    exists cv, g, cv1, g1. split; [reflexivity|]. split; [reflexivity|].
    split; [exact Hq|].
    apply (step_pieces_other _ _ _ _ _ _ Hrun Hq_new).
  - cbn in Hi.
    destruct (IH _ _ _ _ Hrun Hi Hnd)
      as (cva & ga & cvb & gb & Hfirst & Hbefore & Hp & Hafter).
    exists cva, ga, cvb, gb. split.
    { cbn [firstn step_pieces]. rewrite Hq. exact Hfirst. }
    split; [|split; assumption].
    rewrite Hbefore. cbn [fst]. eapply step_piece_other; [exact Hq|].
    intros Heq. apply Hq_new. rewrite <- Heq. apply in_map.
    eapply nth_error_In. exact Hi.
Qed.

End ConfettiFacts.

(** The arithmetic of the animation is binary64 arithmetic: the speed of
    this piece, 1.5 + 2.5 * (1801439850948199 / 2^53), is rounded to 2.0, so
    after 250 frames the oval is exactly on the lower border, which is not
    past it, and it is respawned one frame later. *)
Lemma confetti_speed_is_rounded :
  Demo.rounding_run 250 = Some ((1%nat, 2, 0), [10; 500; 13; 503])%float
  /\ Demo.rounding_run 251 = Some ((1%nat, 2, 0), [77; -1; 80; 2])%float.
Proof. split; vm_compute; reflexivity. Qed.

(** C3, as stated, fails: the first oval enters frame 153 with its top edge
    at 500, is respawned there (its x becomes the drawn 123), and ends the
    frame with its top edge at 0.375, not above the top of the canvas. *)
Lemma confetti_respawn_below_top :
  Demo.confetti_coords 152 1 = [48; 500; 51; 503]%float
  /\ Demo.confetti_coords 153 1 = [123; 0.375; 126; 3.375]%float
  /\ (0.375 <? 0)%float = false.
Proof.
  split; [vm_compute; reflexivity|].
  split; vm_compute; reflexivity.
Qed.

(** C3, amended: in one [step] the loop reaches the oval of the [i]-th
    piece with the random source as the pieces before it have left it, and
    adds [(drift, speed)] to both corners of the oval, in binary64.  When the
    top edge is then not greater than the height, that is all.  Otherwise
    the oval is respawned: [rx] is the integer that [randint(0, w)] draws
    next from that source, and both corners are moved once more, by
    [rx - x1] and by [- h - (y2 - y1)] computed in binary64 on the
    coordinates after the first move.  That puts the left edge at [rx] and
    the top edge one size above [y1 - h], up to rounding: the top edge is
    not always negative.  In both cases the colour is kept; speed and drift
    belong to the piece, which [step] only reads. *)
Theorem confetti_step_particle :
  forall (self : Confetti.t) cv g cv' g' i shape speed drift
         (x1 y1 x2 y2 : float),
    List.NoDup (map Confetti.shape_of (Confetti.pieces self)) ->
    nth_error (Confetti.pieces self) i = Some (shape, speed, drift) ->
    Tk.get_coords shape cv = [x1; y1; x2; y2] ->
    Confetti.step self (cv, g) = Some (cv', g') ->
    Obs.fill_of shape cv' = Obs.fill_of shape cv
    /\ exists cv1 g1,
         Confetti.step_pieces (Confetti.w self) (Confetti.h self)
           (firstn i (Confetti.pieces self)) (cv, g) = Some (cv1, g1)
         /\ Random.raw g1 = Random.raw g
         /\ (Random.pos g <= Random.pos g1 <= Random.pos g + i)%nat
         /\ ((Num.of_int (Confetti.h self) <? y1 + speed)%float = false ->
             Tk.get_coords shape cv'
             = [x1 + drift; y1 + speed; x2 + drift; y2 + speed]%float)
         /\ ((Num.of_int (Confetti.h self) <? y1 + speed)%float = true ->
             exists (rx : Z) g2,
               Random.randint 0 (Confetti.w self) g1 = Some (rx, g2)
               /\ (0 <= rx <= Confetti.w self)%Z
               /\ let x1' := (x1 + drift)%float in
                  let y1' := (y1 + speed)%float in
                  let x2' := (x2 + drift)%float in
                  let y2' := (y2 + speed)%float in
                  let dx := (Num.of_int rx - x1')%float in
                  let dy := (Num.of_int (- Confetti.h self)
                             - (y2' - y1'))%float in
                  Tk.get_coords shape cv'
                  = [x1' + dx; y1' + dy; x2' + dx; y2' + dy]%float).
Proof.
  intros self cv g cv' g' i shape speed drift x1 y1 x2 y2 Hnd Hi Hc Hstep.
  split; [apply (step_pieces_fill _ _ _ _ _ shape Hstep)|].
  destruct (step_pieces_split _ _ _ _ _ _ _ Hstep Hi Hnd)
    as (cva & ga & cvb & gb & Hfirst & Hbefore & Hp & Hafter).
  unfold Confetti.shape_of in Hbefore, Hafter. cbn [fst] in Hbefore, Hafter.
  rewrite Hc in Hbefore.
  destruct (step_piece_own _ _ _ _ _ _ _ _ _ _ _ _ _ Hp Hbefore)
    as [Hstay Hfall].
  destruct (step_pieces_draws _ _ _ _ _ _ _ Hfirst) as [Hraw Hpos].
  exists cva, ga. split; [exact Hfirst|]. split; [exact Hraw|].
  split.
  { pose proof (firstn_le_length i (Confetti.pieces self)) as Hlen.
    assert (Hlt : (i < length (Confetti.pieces self))%nat).
    { apply nth_error_Some. rewrite Hi. discriminate. }
    rewrite firstn_length_le in Hpos by lia. exact Hpos. }
  split.
  - intros Hle. rewrite Hafter. apply Hstay. exact Hle.
  - intros Hlt. destruct (Hfall Hlt) as (rx & Hrx & Hcoords).
    exists rx, gb. split; [exact Hrx|].
    split; [exact (randint_range _ _ _ _ _ Hrx)|].
    cbv zeta in Hcoords |- *. rewrite Hafter. exact Hcoords.
Qed.

(** The theorem at frame 153 of the sample run, in which the first oval is
    respawned at the drawn 123. *)
Lemma confetti_step_particle_witness :
  exists self cv0 g0 cv g cv' g',
    Confetti.init Tk.empty 800 500 2 Demo.confetti_source
    = Some (self, (cv0, g0))
    /\ Confetti.steps 152 self (cv0, g0) = Some (cv, g)
    /\ Tk.get_coords 1 cv = [48; 500; 51; 503]%float
    /\ Confetti.step self (cv, g) = Some (cv', g')
    /\ exists g2,
         Random.randint 0 800 g = Some (123%Z, g2)
         /\ Tk.get_coords 1 cv' = [123; 0.375; 126; 3.375]%float.
Proof.
  let r := eval vm_compute in
    (Confetti.init Tk.empty 800 500 2 Demo.confetti_source) in
  lazymatch r with
  | Some (?s, (?c0, ?g0)) =>
      let r1 := eval vm_compute in (Confetti.steps 152 s (c0, g0)) in
      lazymatch r1 with
      | Some (?c, ?g) =>
          let r2 := eval vm_compute in (Confetti.step s (c, g)) in
          lazymatch r2 with
          | Some (?c', ?g') =>
              exists s, c0, g0, c, g, c', g';
              split; [vm_compute; reflexivity|];
              split; [vm_compute; reflexivity|];
              split; [vm_compute; reflexivity|];
              split; [vm_compute; reflexivity|];
              destruct (confetti_step_particle s c g c' g' 0%nat 1%nat
                          3.375%float 0.25%float
                          48%float 500%float 51%float 503%float)
                as (_ & cv1 & g1 & Hfirst & _ & _ & _ & Hfall)
          end
      end
  end.
  - cbn. nodup_literal.
  - reflexivity.
  - vm_compute. reflexivity.
  - vm_compute. reflexivity.
  - cbn [firstn Confetti.step_pieces] in Hfirst. injection Hfirst as <- <-.
    destruct (Hfall eq_refl) as (rx & g2 & Hrx & _ & Hcoords).
    exists g2. assert (Hdraw : rx = 123%Z).
    { vm_compute in Hrx. injection Hrx as <- _. reflexivity. }
    subst rx. split; [exact Hrx|exact Hcoords].
Defined.

(** ** Balloons *)

Section BalloonFacts.
Import Tk Balloons.
Local Open Scope Z_scope.

Lemma float_up_one_own b s cv cv' bx1 by1 bx2 by2 sx1 sy1 sx2 sy2 :
  b <> s ->
  get_coords b cv = [bx1; by1; bx2; by2] ->
  get_coords s cv = [sx1; sy1; sx2; sy2] ->
  float_up_one (b, s) cv = Some cv' ->
  (-60 <= by1 - 1 ->
     get_coords b cv' = [bx1; by1 - 1; bx2; by2 - 1]
     /\ get_coords s cv' = [sx1; sy1 - 1; sx2; sy2 - 1])
  /\ (by1 - 1 < -60 ->
     get_coords b cv' = [bx1; by1 - 1 + 500; bx2; by2 - 1 + 500]
     /\ get_coords s cv' = [sx1; sy1 - 1 + 500; sx2; sy2 - 1 + 500]).
Proof.
  intros Hne Hb Hs. unfold float_up_one.
  assert (Hb1 : get_coords b (move Z.add s 0 (-1) (move Z.add b 0 (-1) cv))
                = [bx1; by1 - 1; bx2; by2 - 1]).
  { rewrite get_coords_move_other, get_coords_move_same, Hb by exact Hne.
    cbn [shift]. rewrite !Z.add_0_r. reflexivity. }
  assert (Hs1 : get_coords s (move Z.add s 0 (-1) (move Z.add b 0 (-1) cv))
                = [sx1; sy1 - 1; sx2; sy2 - 1]).
  { rewrite get_coords_move_same, get_coords_move_other, Hs
      by (intros Heq; apply Hne; symmetry; exact Heq).
    cbn [shift]. rewrite !Z.add_0_r. reflexivity. }
  rewrite Hb1. cbn [nth_error mbind option_bind].
  destruct (by1 - 1 <? -60) eqn:Hy; intros [= <-].
  - apply Z.ltb_lt in Hy. split; [lia|]. intros _. split.
    + rewrite get_coords_move_other, get_coords_move_same, Hb1 by exact Hne.
      cbn [shift]. rewrite !Z.add_0_r. reflexivity.
    + rewrite get_coords_move_same, get_coords_move_other, Hs1
        by (intros Heq; apply Hne; symmetry; exact Heq).
      cbn [shift]. rewrite !Z.add_0_r. reflexivity.
  - apply Z.ltb_ge in Hy. split; [|lia]. intros _. split; assumption.
Qed.

Lemma float_up_one_other bs cv cv' id :
  float_up_one bs cv = Some cv' ->
  id <> fst bs -> id <> snd bs ->
  get_coords id cv' = get_coords id cv.
Proof.
  destruct bs as [b s]. cbn [fst snd]. unfold float_up_one. intros Hrun Hb Hs.
  destruct (nth_error _ 1) as [y|]; [|discriminate]. cbn in Hrun.
  destruct (y <? -60); injection Hrun as <-;
    rewrite ?get_coords_move_other by assumption; reflexivity.
Qed.

Lemma float_up_other balloons cv cv' id :
  float_up balloons cv = Some cv' ->
  ~ In id (ids balloons) ->
  get_coords id cv' = get_coords id cv.
Proof.
  revert cv. induction balloons as [|bs rest IH]; intros cv Hrun Hnot;
    cbn in Hrun.
  - injection Hrun as <-. reflexivity.
  - destruct (float_up_one bs cv) as [cv1|] eqn:Hone; [|discriminate].
    cbn in Hrun. cbn in Hnot. rewrite (IH _ Hrun) by tauto.
    eapply float_up_one_other; [exact Hone| |]; intros ->; tauto.
Qed.

End BalloonFacts.

(** C5, as stated, fails: after 401 runs the first balloon of the welcome
    screen has its top edge at -1, one unit above the top of the canvas; the
    next run moves it to -2 and does not bring it down by 500. *)
Lemma balloon_above_top_not_wrapped :
  Demo.balloon_coords 401 1 = [30; -1; 70; 49]%Z
  /\ Demo.balloon_coords 402 1 = [30; -2; 70; 48]%Z
  /\ Demo.balloon_coords 402 1 <> [30; -2 + 500; 70; 48 + 500]%Z.
Proof.
  split; [vm_compute; reflexivity|].
  split; [vm_compute; reflexivity|].
  vm_compute. discriminate.
Qed.

(** C5, amended: one run of [float_up] moves the body and the string of
    every balloon by (0, -1); a balloon whose top edge is then above -60,
    that is more than 60 units above the top of the canvas, is moved down by
    exactly 500 from that position, body and string together. *)
Theorem balloons_float_up :
  forall balloons cv cv' b s (bx1 by1 bx2 by2 sx1 sy1 sx2 sy2 : Z),
    List.NoDup (Balloons.ids balloons) ->
    In (b, s) balloons ->
    Tk.get_coords b cv = [bx1; by1; bx2; by2] ->
    Tk.get_coords s cv = [sx1; sy1; sx2; sy2] ->
    Balloons.float_up balloons cv = Some cv' ->
    ((-60 <= by1 - 1 ->
        Tk.get_coords b cv' = [bx1; by1 - 1; bx2; by2 - 1]
        /\ Tk.get_coords s cv' = [sx1; sy1 - 1; sx2; sy2 - 1])
     /\ (by1 - 1 < -60 ->
        Tk.get_coords b cv' = [bx1; by1 - 1 + 500; bx2; by2 - 1 + 500]
        /\ Tk.get_coords s cv' = [sx1; sy1 - 1 + 500; sx2; sy2 - 1 + 500]))%Z.
Proof.
  intros balloons. induction balloons as [|bs rest IH];
    intros cv cv' b s bx1 by1 bx2 by2 sx1 sy1 sx2 sy2 Hnd Hin Hb Hs Hrun;
    [contradiction|].
  cbn in Hrun.
  destruct (Balloons.float_up_one bs cv) as [cv1|] eqn:Hone; [|discriminate].
  cbn in Hrun. destruct bs as [b0 s0]. cbn in Hnd.
  apply List.NoDup_cons_iff in Hnd as [Hb0 Hnd].
  apply List.NoDup_cons_iff in Hnd as [Hs0 Hnd].
  destruct Hin as [[= -> ->]|Hin].
  - assert (Hne : b <> s) by (intros ->; apply Hb0; left; reflexivity).
    rewrite !(float_up_other _ _ _ _ Hrun).
    + eapply float_up_one_own; eassumption.
    + exact Hs0.
    + intros Hin. apply Hb0. right. exact Hin.
  - assert (Hids : In b (Balloons.ids rest) /\ In s (Balloons.ids rest)).
    { unfold Balloons.ids. rewrite !in_flat_map.
      split; exists (b, s); (split; [exact Hin|]); cbn; tauto. }
    destruct Hids as [Hbin Hsin].
    apply (IH cv1 cv' b s); try assumption.
    + rewrite (float_up_one_other _ _ _ _ Hone); cbn [fst snd];
        [exact Hb| |]; intros ->; [apply Hb0; right; exact Hbin|tauto].
    + rewrite (float_up_one_other _ _ _ _ Hone); cbn [fst snd];
        [exact Hs| |]; intros ->; [apply Hb0; right; exact Hsin|tauto].
Qed.

(** The theorem at the run in which the first balloon of the welcome screen
    wraps around: its top edge is at -60 after 460 runs. *)
Lemma balloons_float_up_witness :
  exists balloons cv0 cv cv',
    Balloons.make 0 Demo.left_colors [] Tk.empty = (balloons, cv0)
    /\ Balloons.ticks 460 balloons cv0 = Some cv
    /\ Balloons.float_up balloons cv = Some cv'
    /\ Tk.get_coords 1 cv' = [30; -60 - 1 + 500; 70; -10 - 1 + 500]%Z
    /\ Tk.get_coords 2 cv' = [50; -10 - 1 + 500; 50; 10 - 1 + 500]%Z.
Proof.
  let r := eval vm_compute in (Balloons.make 0 Demo.left_colors [] Tk.empty) in
  lazymatch r with
  | (?bl, ?c0) =>
      let r1 := eval vm_compute in (Balloons.ticks 460 bl c0) in
      lazymatch r1 with
      | Some ?c =>
          let r2 := eval vm_compute in (Balloons.float_up bl c) in
          lazymatch r2 with
          | Some ?c' =>
              exists bl, c0, c, c';
              split; [vm_compute; reflexivity|];
              split; [vm_compute; reflexivity|];
              split; [vm_compute; reflexivity|];
              refine (proj2 (balloons_float_up bl c c' 1%nat 2%nat
                        30 (-60) 70 (-10) 50 (-10) 50 10 _ _ _ _ _) _)%Z
          end
      end
  end.
  - cbn. nodup_literal.
  - left. reflexivity.
  - vm_compute. reflexivity.
  - vm_compute. reflexivity.
  - vm_compute. reflexivity.
  - lia.
Defined.

(** ** Media loader *)

Section LoaderFacts.
Import Path ImageLoader.

Lemma isabs_append a b : isabs a = true -> isabs (a +:+ b) = true.
Proof.
  destruct a as [|c a]; [discriminate|]. cbn.
  destruct c as [[] [] [] [] [] [] [] []]; intros H; try discriminate H.
  reflexivity.
Qed.

(** A relative path and the same path spelt out from the working directory
    have one canonical form. *)
Lemma abspath_join_cwd cwd p :
  isabs cwd = true -> isabs p = false ->
  abspath cwd (join cwd p) = abspath cwd p.
Proof.
  intros Hcwd Hp. unfold abspath at 2. rewrite Hp.
  unfold abspath. replace (isabs (join cwd p)) with true; [reflexivity|].
  symmetry. unfold join. rewrite Hp.
  destruct (String.eqb cwd "" || endswith_slash cwd);
    apply isabs_append; exact Hcwd.
Qed.

(** After a successful [load] the canonical path is in the cache. *)
Lemma load_some_cached env self py p ph self1 py1 :
  load env self py p = (Some ph, self1, py1) ->
  cache self1 !! abspath (getcwd env) p = Some ph.
Proof.
  unfold load.
  destruct (cache self !! abspath (getcwd env) p) as [ph0|] eqn:Hc.
  - intros [= <- <- <-]. exact Hc.
  - destruct (decode env self (abspath (getcwd env) p)) as [[w h]|];
      [|discriminate].
    intros [= <- <- <-]. cbn. apply lookup_insert_eq.
Qed.

Lemma load_hit env self py p ph :
  cache self !! abspath (getcwd env) p = Some ph ->
  load env self py p = (Some ph, self, py).
Proof. intros Hc. unfold load. rewrite Hc. reflexivity. Qed.

End LoaderFacts.

(** C6: once [load] has returned a picture for a path, a further [load] of
    any path with the same canonical form returns that very object and
    changes neither the cache nor the list of decoder calls; the path spelt
    out from the working directory is such a path for a relative one. *)
Theorem load_memoizes :
  forall env self py p ph self1 py1,
    ImageLoader.load env self py p = (Some ph, self1, py1) ->
    (forall env' q,
        Path.abspath (ImageLoader.getcwd env') q
        = Path.abspath (ImageLoader.getcwd env) p ->
        ImageLoader.load env' self1 py1 q = (Some ph, self1, py1))
    /\ (Path.isabs (ImageLoader.getcwd env) = true ->
        Path.isabs p = false ->
        ImageLoader.load env self1 py1 (Path.join (ImageLoader.getcwd env) p)
        = (Some ph, self1, py1)).
Proof.
  intros env self py p ph self1 py1 Hload.
  apply load_some_cached in Hload. split.
  - intros env' q Heq. apply load_hit. rewrite Heq. exact Hload.
  - intros Hcwd Hp. apply load_hit. rewrite abspath_join_cwd by assumption.
    exact Hload.
Qed.

(** The theorem on the sample machine: [a.png] is loaded by its relative
    path and then by its absolute one. *)
Lemma load_memoizes_witness :
  exists ph self1 py1,
    ImageLoader.load Demo.env Demo.loader Demo.py "assets/images/a.png"
    = (Some ph, self1, py1)
    /\ ImageLoader.decoded py1 = ["/home/u/app/assets/images/a.png"]
    /\ ImageLoader.load Demo.env self1 py1 "/home/u/app/assets/images/a.png"
       = (Some ph, self1, py1).
Proof.
  eexists _, _, _. split; [reflexivity|]. split; [reflexivity|].
  refine (proj2 (load_memoizes Demo.env Demo.loader Demo.py
                   "assets/images/a.png" _ _ _ _) _ _).
  - reflexivity.
  - reflexivity.
  - reflexivity.
Defined.

(** C7: when the path is not cached and the decoder raises, [load] returns
    [None] and leaves the cache as it was, so a second call fails in the
    same way; on a machine where the decoder succeeds, the next call returns
    a picture and caches it. *)
Theorem load_failure_not_cached :
  forall env self py p,
    ImageLoader.cache self !! Path.abspath (ImageLoader.getcwd env) p = None ->
    ImageLoader.decode env self (Path.abspath (ImageLoader.getcwd env) p)
    = None ->
    exists py1 py2,
      ImageLoader.load env self py p = (None, self, py1)
      /\ ImageLoader.load env self py1 p = (None, self, py2)
      /\ forall env' size,
           ImageLoader.getcwd env' = ImageLoader.getcwd env ->
           ImageLoader.decode env' self
             (Path.abspath (ImageLoader.getcwd env) p) = Some size ->
           exists ph self2 py3,
             ImageLoader.load env' self py2 p = (Some ph, self2, py3)
             /\ ImageLoader.cache self2
                  !! Path.abspath (ImageLoader.getcwd env) p = Some ph.
Proof.
  intros env self py p Hmiss Hfail.
  eexists _, _. unfold ImageLoader.load. rewrite Hmiss, Hfail.
  split; [reflexivity|]. split; [reflexivity|].
  intros env' [w h] Hcwd Hok. rewrite Hcwd, Hmiss, Hok.
  eexists _, _, _. split; [reflexivity|]. cbn. apply lookup_insert_eq.
Qed.

(** The theorem on the sample machine, for the unreadable [b.GIF]. *)
Lemma load_failure_not_cached_witness :
  exists py1 py2,
    ImageLoader.load Demo.env Demo.loader Demo.py "assets/images/b.GIF"
    = (None, Demo.loader, py1)
    /\ ImageLoader.load Demo.env Demo.loader py1 "assets/images/b.GIF"
       = (None, Demo.loader, py2)
    /\ exists ph self2 py3,
         ImageLoader.load Demo.env_fixed Demo.loader py2 "assets/images/b.GIF"
         = (Some ph, self2, py3).
Proof.
  destruct (load_failure_not_cached Demo.env Demo.loader Demo.py
              "assets/images/b.GIF" eq_refl eq_refl)
    as (py1 & py2 & H1 & H2 & H3).
  exists py1, py2. split; [exact H1|]. split; [exact H2|].
  destruct (H3 Demo.env_fixed (64, 64)%Z eq_refl eq_refl)
    as (ph & self2 & py3 & H4 & _).
  exists ph, self2, py3. exact H4.
Defined.

Section ListingFacts.
Import Path ImageLoader.

Lemma str_le_total : Total str_le.
Proof. intros a b. unfold str_le. apply String.leb_total. Qed.

Lemma keep_spec env f :
  keep env f = true <-> In (snd (splitext (lower f))) (exts env).
Proof.
  unfold keep. rewrite existsb_exists. split.
  - intros (e & He & Heq). apply String.eqb_eq in Heq. subst e. exact He.
  - intros Hin. eexists. split; [exact Hin|]. apply String.eqb_refl.
Qed.

Lemma exts_spec env e :
  In e (exts env) <->
  In e [".png"; ".gif"]
  \/ (PIL_AVAILABLE env = true /\ In e [".jpg"; ".jpeg"]).
Proof.
  unfold exts. destruct (PIL_AVAILABLE env); cbn; intuition discriminate.
Qed.

(** What [list_images] holds when the directory exists. *)
Lemma list_images_In env p :
  isdir env (IMG_DIR env) = true ->
  In p (list_images env) <->
  exists f, In f (listdir env (IMG_DIR env))
            /\ keep env f = true /\ p = join (IMG_DIR env) f.
Proof.
  intros Hdir. unfold list_images. rewrite Hdir. cbn [negb].
  pose proof (merge_sort_Permutation str_le
    (map (join (IMG_DIR env))
         (List.filter (keep env) (listdir env (IMG_DIR env))))) as Hperm.
  split.
  - intros Hin. apply (Permutation_in _ Hperm) in Hin.
    apply in_map_iff in Hin as (f & <- & Hf).
    apply filter_In in Hf as [Hf Hk]. exists f. auto.
  - intros (f & Hf & Hk & ->).
    apply (Permutation_in _ (Permutation_sym Hperm)).
    apply in_map. apply filter_In. auto.
Qed.

Lemma lower_ascii_keeps (c x : ascii) :
  c = "/"%char \/ c = "."%char ->
  Ascii.eqb (lower_ascii x) c = Ascii.eqb x c.
Proof.
  intros [->| ->]; destruct x as [[] [] [] [] [] [] [] []];
    vm_compute; reflexivity.
Qed.

Lemma rfind_from_lower c l i found :
  c = "/"%char \/ c = "."%char ->
  rfind_from c (map lower_ascii l) i found = rfind_from c l i found.
Proof.
  intros Hc. revert i found.
  induction l as [|x l IH]; intros i found; cbn; [reflexivity|].
  rewrite (lower_ascii_keeps c x Hc). apply IH.
Qed.

Lemma existsb_not_dot_lower l :
  existsb (fun c => negb (Ascii.eqb c ".")) (map lower_ascii l)
  = existsb (fun c => negb (Ascii.eqb c ".")) l.
Proof.
  induction l as [|x l IH]; cbn; [reflexivity|].
  rewrite (lower_ascii_keeps "."%char x) by (right; reflexivity).
  rewrite IH. reflexivity.
Qed.

Lemma chars_lower s : chars (lower s) = map lower_ascii (chars s).
Proof. unfold lower, chars, str. apply list_ascii_of_string_of_list_ascii. Qed.

Lemma lower_str l : lower (str l) = str (map lower_ascii l).
Proof.
  unfold lower, chars, str. rewrite list_ascii_of_string_of_list_ascii.
  reflexivity.
Qed.

(** Lowering a name lowers its extension and nothing else. *)
Lemma splitext_lower f :
  splitext (lower f) = (lower (fst (splitext f)), lower (snd (splitext f))).
Proof.
  unfold splitext. rewrite chars_lower. unfold rfind.
  rewrite !rfind_from_lower by auto.
  rewrite List.skipn_map, List.firstn_map, existsb_not_dot_lower.
  destruct (_ && _); cbn [fst snd].
  - rewrite List.skipn_map, List.firstn_map, !lower_str. reflexivity.
  - reflexivity.
Qed.

End ListingFacts.

(** C8: without the picture directory the listing is empty; otherwise it is
    sorted in string order, and each of its paths is the directory joined
    with one of its entries whose extension, in lower case, is [.png] or
    [.gif], or [.jpg] or [.jpeg] when Pillow is there. *)
Theorem list_images_filtered_sorted :
  forall env,
    (ImageLoader.isdir env (ImageLoader.IMG_DIR env) = false ->
     ImageLoader.list_images env = [])
    /\ Sorted Path.str_le (ImageLoader.list_images env)
    /\ (forall p, In p (ImageLoader.list_images env) ->
        exists f,
          In f (ImageLoader.listdir env (ImageLoader.IMG_DIR env))
          /\ p = Path.join (ImageLoader.IMG_DIR env) f
          /\ (In (snd (Path.splitext (Path.lower f))) [".png"; ".gif"]
              \/ (ImageLoader.PIL_AVAILABLE env = true
                  /\ In (snd (Path.splitext (Path.lower f)))
                        [".jpg"; ".jpeg"]))).
Proof.
  intros env. split; [|split].
  - intros Hdir. unfold ImageLoader.list_images. rewrite Hdir. reflexivity.
  - unfold ImageLoader.list_images.
    destruct (negb _); [constructor|].
    apply @Sorted_merge_sort. exact str_le_total.
  - intros p Hin.
    destruct (ImageLoader.isdir env (ImageLoader.IMG_DIR env)) eqn:Hdir.
    + apply (list_images_In env p Hdir) in Hin as (f & Hf & Hk & ->).
      exists f. split; [exact Hf|]. split; [reflexivity|].
      apply exts_spec, keep_spec. exact Hk.
    + unfold ImageLoader.list_images in Hin. rewrite Hdir in Hin.
      destruct Hin.
Qed.

(** The theorem on the sample machine, which has no Pillow: [c.jpg] and
    [notes.txt] are left out. *)
Lemma list_images_filtered_sorted_witness :
  ImageLoader.list_images Demo.env
  = ["/home/u/app/assets/images/a.png"; "/home/u/app/assets/images/b.GIF"]
  /\ Sorted Path.str_le (ImageLoader.list_images Demo.env).
Proof.
  split; [vm_compute; reflexivity|].
  exact (proj1 (proj2 (list_images_filtered_sorted Demo.env))).
Defined.

(** C10: an entry of the picture directory whose extension is one of the
    accepted ones up to the case of its letters is listed. *)
Theorem list_images_ignores_case :
  forall env f,
    ImageLoader.isdir env (ImageLoader.IMG_DIR env) = true ->
    In f (ImageLoader.listdir env (ImageLoader.IMG_DIR env)) ->
    In (Path.lower (snd (Path.splitext f))) (ImageLoader.exts env) ->
    In (Path.join (ImageLoader.IMG_DIR env) f) (ImageLoader.list_images env).
Proof.
  intros env f Hdir Hf Hext. apply (list_images_In env _ Hdir).
  exists f. split; [exact Hf|]. split; [|reflexivity].
  apply keep_spec. rewrite splitext_lower. exact Hext.
Qed.

(** The theorem on the sample machine, for the entry [b.GIF]. *)
Lemma list_images_ignores_case_witness :
  In "/home/u/app/assets/images/b.GIF" (ImageLoader.list_images Demo.env).
Proof.
  apply (list_images_ignores_case Demo.env "b.GIF").
  - reflexivity.
  - left. reflexivity.
  - right. left. reflexivity.
Defined.

(** ** The matching game *)

(** C1: with the cards A, A, B, B, clicking card 0 and then card 2 leaves the
    two cards in [flipped] and a [flip_back] pending.  Card 3 is still
    enabled, and clicking it before the delay elapses is accepted: the card
    is shown and [flipped] grows to three entries.  Cards 2 and 3 then both
    show B without being matched, and the pending [flip_back] hides all
    three. *)
Lemma third_card_is_flipped :
  exists g g' g'',
    MatchGame.run (MatchGame.build ["A"; "A"; "B"; "B"])
      [MatchGame.Click 0; MatchGame.Click 2] = Some g
    /\ MatchGame.flipped g = [0; 2]
    /\ MatchGame.timers g = 1
    /\ MatchGame.matched g = []
    /\ MatchGame.react g (MatchGame.Click 3) = Some g'
    /\ MatchGame.flip_card 3 g = Some g'
    /\ MatchGame.flipped g' = [0; 2; 3]
    /\ MatchGame.buttons g' !! 2
       = Some (MatchGame.Button "B" MatchGame.disabled)
    /\ MatchGame.buttons g' !! 3
       = Some (MatchGame.Button "B" MatchGame.disabled)
    /\ g' <> g
    /\ MatchGame.react g' MatchGame.Elapse = Some g''
    /\ MatchGame.flipped g'' = []
    /\ MatchGame.matched g'' = []
    /\ MatchGame.buttons g''
       = repeat (MatchGame.Button MatchGame.hidden MatchGame.normal) 4.
Proof.
  eexists _, _, _. split; [reflexivity|].
  repeat (split; [reflexivity|]).
  split; [discriminate|].
  repeat (split; [reflexivity|]). reflexivity.
Qed.

(** C4, as stated, fails: after cards 0 and 1 of A, A, B, B are matched, no
    win message has been shown. *)
Lemma first_pair_does_not_win :
  exists g,
    MatchGame.run (MatchGame.build ["A"; "A"; "B"; "B"])
      [MatchGame.Click 0; MatchGame.Click 1] = Some g
    /\ MatchGame.matched g = [0; 1]
    /\ MatchGame.win_labels g = 0.
Proof. eexists. repeat split; reflexivity. Qed.

(** C4, amended: with the cards A, A, B, B, clicking card 0 and then card 1
    moves both to [matched] and empties [flipped] at once, with no timer
    pending; no win message is shown yet.  It is shown when the second pair
    has been matched as well. *)
Theorem pairs_match_then_win :
  forall A B : string,
    exists g1 g2,
      MatchGame.run (MatchGame.build [A; A; B; B])
        [MatchGame.Click 0; MatchGame.Click 1] = Some g1
      /\ MatchGame.matched g1 = [0; 1]
      /\ MatchGame.flipped g1 = []
      /\ MatchGame.timers g1 = 0
      /\ MatchGame.win_labels g1 = 0
      /\ MatchGame.run g1 [MatchGame.Click 2; MatchGame.Click 3] = Some g2
      /\ MatchGame.matched g2 = [0; 1; 2; 3]
      /\ MatchGame.flipped g2 = []
      /\ MatchGame.win_labels g2 = 1.
Proof.
  intros A B. eexists _, _.
  split.
  { cbn. rewrite String.eqb_refl. cbn. reflexivity. }
  repeat (split; [reflexivity|]).
  split.
  { cbn. rewrite String.eqb_refl. cbn. reflexivity. }
  repeat split.
Qed.

(* ===================================================================== *)
(** * Part III. Further properties *)
(* ===================================================================== *)

(** ** The matching game: what every reachable state satisfies *)

Section GameFacts.
Import MatchGame GameInv.

Lemma mem_In i l : mem i l = true <-> In i l.
Proof.
  unfold mem. rewrite existsb_exists. split.
  - intros (x & Hx & Heq). apply Nat.eqb_eq in Heq. subst x. exact Hx.
  - intros Hin. exists i. split; [exact Hin|apply Nat.eqb_refl].
Qed.

Lemma mem_false i l : mem i l = false <-> ~ In i l.
Proof.
  rewrite <- mem_In. destruct (mem i l); split; congruence.
Qed.

Lemma mem_app i l k : mem i (l ++ k) = mem i l || mem i k.
Proof. unfold mem. apply existsb_app. Qed.

Lemma nth_lookup_words (words : list string) i :
  i < length words -> words !! i = Some (nth i words "").
Proof.
  revert i. induction words as [|w words IH]; intros [|i] Hlt; cbn in *;
    try lia; [reflexivity|]. apply IH. lia.
Qed.

(** A duplicate-free list of card numbers is no longer than the deck. *)
Lemma nodup_bounded_length (l : list nat) n :
  List.NoDup l -> (forall i, In i l -> i < n) -> length l <= n.
Proof.
  intros Hnd Hlt.
  assert (Hincl : incl l (seq 0 n)).
  { intros i Hi. apply in_seq. specialize (Hlt i Hi). lia. }
  pose proof (NoDup_incl_length Hnd Hincl) as Hlen.
  rewrite List.length_seq in Hlen. exact Hlen.
Qed.

Lemma ok_build words : ok words (build words).
Proof.
  split; cbn.
  - reflexivity.
  - apply repeat_length.
  - constructor.
  - intros i [].
  - intros i Hi. unfold face_up. cbn.
    apply nth_error_repeat with (a := Button hidden normal) in Hi.
    revert Hi. generalize (repeat (Button hidden normal) (length words)).
    intros l. revert i. induction l as [|x l IH]; intros [|i]; cbn; auto;
      discriminate.
  - left. split; [reflexivity|lia].
  - exists []. split; [reflexivity|]. intros p [].
  - reflexivity.
Qed.

End GameFacts.

Section GameSteps.
Import MatchGame GameInv.

Lemma face_up_false_iff g i :
  face_up g i = false <-> ~ In i (matched g ++ flipped g).
Proof.
  unfold face_up. rewrite <- mem_app. apply mem_false.
Qed.

Lemma unpair_app ps a b : unpair (ps ++ [(a, b)]) = unpair ps ++ [a; b].
Proof. unfold unpair. rewrite flat_map_app. reflexivity. Qed.

Lemma mem_pair_moved i m a b :
  mem i m || mem i ([a] ++ [b]) = mem i (m ++ [a; b]) || mem i [].
Proof. rewrite !mem_app. cbn. rewrite !orb_false_r. reflexivity. Qed.

(** [flip_card] on a card that lies face down. *)
Lemma ok_flip_card words g index :
  ok words g -> index < length words -> face_up g index = false ->
  exists g', flip_card index g = Some g' /\ ok words g'.
Proof.
  intros Hok Hlt Hdown. destruct Hok as
    [Hwords Hlen Hnd Hrange Hbtn Htim [ps [Hps Hpairs]] Hwin].
  pose proof Hdown as Hnotin. apply face_up_false_iff in Hnotin.
  unfold flip_card. unfold face_up in Hdown. rewrite Hdown.
  rewrite (Hbtn index Hlt). cbn [mbind option_bind].
  rewrite Hwords, (nth_lookup_words words index Hlt). cbn [mbind option_bind].
  assert (Hnd' : List.NoDup (matched g ++ flipped g ++ [index])).
  { rewrite app_assoc. apply List.NoDup_app; [exact Hnd| |].
    - apply List.NoDup_cons; [intros []|apply List.NoDup_nil].
    - intros a Ha [<-|[]]. exact (Hnotin Ha). }
  assert (Hrange' : forall i, In i (matched g ++ flipped g ++ [index]) ->
                              i < length words).
  { intros i Hi. rewrite app_assoc in Hi. apply in_app_or in Hi as [Hi|[<-|[]]];
      [apply Hrange; exact Hi|exact Hlt]. }
  assert (Hbtn' : forall i, i < length words ->
            <[index := Button (nth index words "") disabled]> (buttons g) !! i
            = Some (if mem i (matched g) || mem i (flipped g ++ [index])
                    then Button (nth i words "") disabled
                    else Button hidden normal)).
  { intros i Hi. rewrite mem_app. destruct (decide (i = index)) as [->|Hne].
    - rewrite list_lookup_insert_eq by lia.
      replace (mem index [index]) with true by (cbn; rewrite Nat.eqb_refl; reflexivity).
      rewrite !orb_true_r. reflexivity.
    - rewrite list_lookup_insert_ne by congruence.
      replace (mem i [index]) with false
        by (cbn; symmetry; rewrite orb_false_r; apply Nat.eqb_neq; exact Hne).
      rewrite orb_false_r. apply (Hbtn i Hi). }
  destruct (flipped g) as [|i1 [|i2 rest]] eqn:Hfl; cbn [app].
  - (* first card of a pair *)
    eexists. split; [reflexivity|]. split; cbn; try assumption; try reflexivity.
    + rewrite length_insert. exact Hlen.
    + destruct Htim as [[Ht _]|[_ Hl]]; [left; split; [exact Ht|lia]|cbn in Hl; lia].
    + exists ps. auto.
  - (* second card of a pair *)
    assert (Hi1 : i1 < length words).
    { apply Hrange. apply in_or_app. right. left. reflexivity. }
    rewrite (nth_lookup_words words i1 Hi1), (nth_lookup_words words index Hlt).
    cbn [mbind option_bind].
    assert (Ht0 : timers g = 0).
    { destruct Htim as [[Ht _]|[_ Hl]]; [exact Ht|cbn in Hl; lia]. }
    destruct (String.eqb (nth i1 words "") (nth index words "")) eqn:Heq.
    + apply String.eqb_eq in Heq.
      assert (Hwin0 : win_labels g = 0).
      { rewrite Hwin.
        pose proof (nodup_bounded_length _ _ Hnd Hrange) as Hb.
        rewrite length_app in Hb. cbn in Hb.
        replace (Nat.eqb (length (matched g)) (length words)) with false
          by (symmetry; apply Nat.eqb_neq; lia).
        rewrite andb_false_r. reflexivity. }
      cbn [matched game_words].
      destruct (Nat.eqb (length (matched g ++ [i1; index])) (length words))
        eqn:Hall;
        eexists; (split; [reflexivity|]); unfold show_win_message;
        split; cbn; try assumption; try reflexivity.
      all: try (rewrite length_insert; exact Hlen).
      all: try (rewrite app_nil_r; exact Hnd').
      all: try (intros i Hi; apply Hrange'; rewrite app_nil_r in Hi; exact Hi).
      all: try (intros i Hi; rewrite (Hbtn' i Hi); unfold face_up;
                cbn [matched flipped]; rewrite (mem_pair_moved i);
                reflexivity).
      all: try (left; split; [exact Ht0|lia]).
      all: try (exists (ps ++ [(i1, index)]); split;
                [rewrite unpair_app, Hps; reflexivity|];
                intros p Hp; apply in_app_or in Hp as [Hp|[<-|[]]];
                [apply Hpairs; exact Hp|];
                cbn; rewrite (nth_lookup_words words i1 Hi1),
                  (nth_lookup_words words index Hlt), Heq; reflexivity).
      * rewrite Hwin0, Hall. rewrite length_app. cbn.
        replace (Nat.eqb (length (matched g) + 2) 0) with false
          by (symmetry; apply Nat.eqb_neq; lia). reflexivity.
      * rewrite Hwin0, Hall. rewrite andb_false_r. reflexivity.
    + eexists. split; [reflexivity|]. split; cbn; try assumption; try reflexivity.
      * rewrite length_insert. exact Hlen.
      * right. split; [rewrite Ht0; reflexivity|lia].
      * exists ps. auto.
  - (* a further card while two or more are flipped *)
    assert (Hr : exists x l, rest ++ [index] = x :: l).
    { destruct rest; cbn; eauto. }
    destruct Hr as (x & l & Hr). rewrite Hr.
    eexists. split; [reflexivity|]. rewrite <- Hr.
    split; cbn; try assumption; try reflexivity.
    + rewrite length_insert. exact Hlen.
    + destruct Htim as [[_ Hl]|[Ht _]]; [cbn in Hl; lia|].
      right. split; [exact Ht|]. rewrite length_app. cbn. lia.
    + exists ps. auto.
Qed.
Lemma reset_buttons_spec idxs btns :
  (forall i, In i idxs -> i < length btns) ->
  exists btns',
    reset_buttons idxs btns = Some btns'
    /\ length btns' = length btns
    /\ forall i, i < length btns ->
         btns' !! i = if mem i idxs then Some (Button hidden normal)
                      else btns !! i.
Proof.
  revert btns. induction idxs as [|i0 idxs IH]; intros btns Hin.
  - exists btns. cbn. auto.
  - assert (Hi0 : i0 < length btns) by (apply Hin; left; reflexivity).
    destruct (lookup_lt_is_Some_2 btns i0 Hi0) as [b0 Hb0].
    cbn [reset_buttons]. rewrite Hb0. cbn [mbind option_bind].
    destruct (IH (<[i0 := Button hidden normal]> btns)) as (btns' & Hr & Hl & Hlk).
    { intros i Hi. rewrite length_insert. apply Hin. right. exact Hi. }
    exists btns'. split; [exact Hr|]. rewrite length_insert in Hl, Hlk.
    split; [exact Hl|]. intros i Hi. rewrite (Hlk i Hi).
    cbn [mem existsb]. fold (mem i idxs).
    destruct (mem i idxs); [rewrite orb_true_r; reflexivity|].
    rewrite orb_false_r. destruct (Nat.eqb i i0) eqn:Heq.
    + apply Nat.eqb_eq in Heq. subst i0.
      apply list_lookup_insert_eq. exact Hi.
    + apply Nat.eqb_neq in Heq. apply list_lookup_insert_ne. congruence.
Qed.

(** The delay of the pending [flip_back] elapses. *)
Lemma ok_elapse words g :
  ok words g -> timers g = 1 ->
  exists g',
    flip_back {| game_words := game_words g; buttons := buttons g;
                 flipped := flipped g; matched := matched g;
                 timers := 0; win_labels := win_labels g |} = Some g'
    /\ ok words g'.
Proof.
  intros [Hwords Hlen Hnd Hrange Hbtn Htim Hps Hwin] Ht.
  unfold flip_back. cbn [flipped buttons game_words matched timers win_labels].
  destruct (reset_buttons_spec (flipped g) (buttons g)) as (btns' & Hr & Hl & Hlk).
  { intros i Hi. rewrite Hlen. apply Hrange. apply in_or_app. right. exact Hi. }
  rewrite Hr. cbn [mbind option_bind]. eexists. split; [reflexivity|].
  split; cbn; try assumption.
  - rewrite Hl. exact Hlen.
  - rewrite app_nil_r. apply NoDup_app_remove_r in Hnd. exact Hnd.
  - intros i Hi. apply Hrange. rewrite app_nil_r in Hi.
    apply in_or_app. left. exact Hi.
  - intros i Hi. rewrite Hlk by (rewrite Hlen; exact Hi).
    unfold face_up. cbn [matched flipped]. change (mem i []) with false.
    rewrite orb_false_r. destruct (mem i (flipped g)) eqn:Hf.
    + replace (mem i (matched g)) with false; [reflexivity|].
      symmetry. apply mem_false. intros Hm. apply mem_In in Hf.
      revert Hm Hf. clear -Hnd. induction (matched g) as [|a m IH];
        intros Hm Hf; [destruct Hm|].
      cbn in Hnd. apply List.NoDup_cons_iff in Hnd as [Ha Hnd].
      destruct Hm as [->|Hm]; [apply Ha, in_or_app; right; exact Hf|].
      exact (IH Hnd Hm Hf).
    + rewrite (Hbtn i Hi). unfold face_up. rewrite Hf, orb_false_r.
      reflexivity.
  - left. split; [reflexivity|lia].
Qed.

(** No event raises, and the fields stay consistent. *)
Lemma ok_react words g e :
  ok words g -> exists g', react g e = Some g' /\ ok words g'.
Proof.
  intros Hok. destruct e as [index|]; cbn [react].
  - destruct (Nat.lt_ge_cases index (length words)) as [Hlt|Hge].
    + rewrite (ok_buttons _ _ Hok index Hlt).
      destruct (face_up g index) eqn:Hup.
      * exists g. split; [reflexivity|exact Hok].
      * apply ok_flip_card; assumption.
    + rewrite (lookup_ge_None_2 (buttons g) index)
        by (rewrite (ok_length _ _ Hok); exact Hge).
      exists g. split; [reflexivity|exact Hok].
  - destruct (timers g) as [|n] eqn:Ht.
    + exists g. split; [reflexivity|exact Hok].
    + assert (Hn : n = 0).
      { destruct (ok_timers _ _ Hok) as [[H0 _]|[H1 _]]; lia. }
      subst n. apply ok_elapse; assumption.
Qed.

Lemma ok_run words es : forall g,
  ok words g -> exists g', run g es = Some g' /\ ok words g'.
Proof.
  induction es as [|e es IH]; intros g Hok; cbn [run].
  - exists g. split; [reflexivity|exact Hok].
  - destruct (ok_react words g e Hok) as (g1 & Hr & Hok1).
    rewrite Hr. cbn [mbind option_bind]. apply IH. exact Hok1.
Qed.

Lemma reachable_ok words g : reachable words g -> ok words g.
Proof.
  intros [es Hrun].
  destruct (ok_run words es (build words) (ok_build words)) as (g' & Hr & Hok).
  rewrite Hr in Hrun. injection Hrun as <-. exact Hok.
Qed.

End GameSteps.

(** X1: in a state the game can reach, no click and no elapsed delay raises
    an exception: a click outside the grid or on a disabled button is
    ignored, and every index that [flip_card] and [flip_back] use is in
    range. *)
Theorem game_never_raises :
  forall words g e,
    MatchGame.reachable words g ->
    exists g', MatchGame.react g e = Some g'
               /\ MatchGame.reachable words g'.
Proof.
  intros words g e Hreach.
  destruct (ok_react words g e (reachable_ok words g Hreach)) as (g' & Hr & _).
  exists g'. split; [exact Hr|].
  destruct Hreach as [es Hes]. exists (es ++ [e]).
  clear -Hes Hr. revert Hes. generalize (MatchGame.build words) as g0.
  induction es as [|e0 es IH]; intros g0 Hes; cbn in *.
  - injection Hes as ->. rewrite Hr. reflexivity.
  - destruct (MatchGame.react g0 e0) as [g1|]; [|discriminate].
    cbn in *. apply IH. exact Hes.
Qed.

Lemma game_never_raises_witness :
  exists g',
    MatchGame.react (MatchGame.build ["A"; "B"; "B"; "A"]) (MatchGame.Click 7)
    = Some g'
    /\ MatchGame.reachable ["A"; "B"; "B"; "A"] g'.
Proof.
  apply (game_never_raises ["A"; "B"; "B"; "A"]).
  exists []. reflexivity.
Defined.

(** X2: in a reachable state a card's button is disabled and shows the
    card's word exactly when the card is matched or in [flipped]; every
    other button is enabled and shows the question mark. *)
Theorem face_up_cards_are_disabled :
  forall words g i,
    MatchGame.reachable words g ->
    i < length words ->
    MatchGame.buttons g !! i
    = Some (if GameInv.face_up g i
            then MatchGame.Button (nth i words "") MatchGame.disabled
            else MatchGame.Button MatchGame.hidden MatchGame.normal).
Proof.
  intros words g i Hreach Hi.
  apply (GameInv.ok_buttons _ _ (reachable_ok words g Hreach) i Hi).
Qed.

Lemma face_up_cards_are_disabled_witness :
  exists g,
    MatchGame.run (MatchGame.build ["A"; "B"; "B"; "A"]) [MatchGame.Click 1]
    = Some g
    /\ MatchGame.buttons g !! 1
       = Some (MatchGame.Button "B" MatchGame.disabled)
    /\ MatchGame.buttons g !! 2
       = Some (MatchGame.Button MatchGame.hidden MatchGame.normal).
Proof.
  eexists. split; [reflexivity|]. split.
  - exact (face_up_cards_are_disabled ["A"; "B"; "B"; "A"] _ 1
             (ex_intro _ [MatchGame.Click 1] eq_refl) ltac:(cbn; lia)).
  - exact (face_up_cards_are_disabled ["A"; "B"; "B"; "A"] _ 2
             (ex_intro _ [MatchGame.Click 1] eq_refl) ltac:(cbn; lia)).
Defined.

(** X3: in a reachable state no card occurs twice in [matched] and
    [flipped] taken together, and [matched] is a sequence of pairs of cards
    that carry the same word. *)
Theorem matched_cards_form_equal_pairs :
  forall words g,
    MatchGame.reachable words g ->
    List.NoDup (MatchGame.matched g ++ MatchGame.flipped g)
    /\ exists ps,
         MatchGame.matched g = GameInv.unpair ps
         /\ forall p, In p ps ->
              fst p < length words /\ snd p < length words
              /\ nth (fst p) words "" = nth (snd p) words "".
Proof.
  intros words g Hreach. pose proof (reachable_ok words g Hreach) as Hok.
  split; [apply (GameInv.ok_nodup _ _ Hok)|].
  destruct (GameInv.ok_pairs _ _ Hok) as (ps & Hps & Hpairs).
  exists ps. split; [exact Hps|]. intros p Hp.
  assert (Hin : forall i, In i [fst p; snd p] -> i < length words).
  { intros i Hi. apply (GameInv.ok_range _ _ Hok). apply in_or_app. left.
    rewrite Hps. unfold GameInv.unpair. apply in_flat_map.
    exists p. split; assumption. }
  assert (H1 : fst p < length words) by (apply Hin; left; reflexivity).
  assert (H2 : snd p < length words) by (apply Hin; right; left; reflexivity).
  split; [exact H1|]. split; [exact H2|].
  specialize (Hpairs p Hp).
  rewrite (nth_lookup_words words _ H1), (nth_lookup_words words _ H2) in Hpairs.
  congruence.
Qed.

Lemma matched_cards_form_equal_pairs_witness :
  exists g,
    MatchGame.run (MatchGame.build ["A"; "B"; "B"; "A"])
      [MatchGame.Click 1; MatchGame.Click 2; MatchGame.Click 0] = Some g
    /\ MatchGame.matched g = [1; 2]
    /\ List.NoDup (MatchGame.matched g ++ MatchGame.flipped g).
Proof.
  eexists. split; [reflexivity|]. split; [reflexivity|].
  refine (proj1 (matched_cards_form_equal_pairs ["A"; "B"; "B"; "A"] _ _)).
  exists [MatchGame.Click 1; MatchGame.Click 2; MatchGame.Click 0].
  reflexivity.
Defined.

(** X4: in a reachable state the win message has been shown at most once,
    and it has been shown exactly when the deck is not empty and every card
    is matched. *)
Theorem win_shown_once_when_all_matched :
  forall words g,
    MatchGame.reachable words g ->
    MatchGame.win_labels g <= 1
    /\ (MatchGame.win_labels g = 1 <->
        words <> [] /\ forall i, i < length words -> In i (MatchGame.matched g)).
Proof.
  intros words g Hreach. pose proof (reachable_ok words g Hreach) as Hok.
  pose proof (GameInv.ok_win _ _ Hok) as Hwin.
  assert (Hnd : List.NoDup (MatchGame.matched g)).
  { eapply NoDup_app_remove_r. apply (GameInv.ok_nodup _ _ Hok). }
  assert (Hrange : forall i, In i (MatchGame.matched g) -> i < length words).
  { intros i Hi. apply (GameInv.ok_range _ _ Hok). apply in_or_app. left.
    exact Hi. }
  pose proof (nodup_bounded_length _ _ Hnd Hrange) as Hle.
  assert (Hall : length (MatchGame.matched g) = length words <->
                 forall i, i < length words -> In i (MatchGame.matched g)).
  { split.
    - intros Hlen i Hi.
      apply (NoDup_length_incl Hnd (l' := seq 0 (length words))).
      + rewrite List.length_seq. lia.
      + intros j Hj. apply in_seq. specialize (Hrange j Hj). lia.
      + apply in_seq. lia.
    - intros Hin. apply Nat.le_antisymm; [exact Hle|].
      assert (Hincl : incl (seq 0 (length words)) (MatchGame.matched g)).
      { intros j Hj. apply in_seq in Hj. apply Hin. lia. }
      pose proof (NoDup_incl_length (seq_NoDup (length words) 0) Hincl) as Hl.
      rewrite List.length_seq in Hl. exact Hl. }
  split.
  - rewrite Hwin. destruct (_ && _); lia.
  - rewrite Hwin, <- Hall.
    destruct (Nat.eqb_spec (length (MatchGame.matched g)) 0) as [H0|H0];
      destruct (Nat.eqb_spec (length (MatchGame.matched g)) (length words))
        as [Hn|Hn]; cbn [negb andb].
    + split; [discriminate|]. intros [Hne _].
      destruct words; [congruence|cbn in *; lia].
    + split; [discriminate|]. intros [_ H]. contradiction.
    + split; [|reflexivity]. intros _. split; [|exact Hn].
      intros ->. cbn in *. lia.
    + split; [discriminate|]. intros [_ H]. contradiction.
Qed.

Lemma win_shown_once_when_all_matched_witness :
  exists g,
    MatchGame.run (MatchGame.build ["A"; "B"; "B"; "A"])
      [MatchGame.Click 1; MatchGame.Click 2;
       MatchGame.Click 0; MatchGame.Click 3] = Some g
    /\ MatchGame.win_labels g = 1
    /\ MatchGame.win_labels g <= 1.
Proof.
  eexists. split; [reflexivity|]. split; [reflexivity|].
  refine (proj1 (win_shown_once_when_all_matched ["A"; "B"; "B"; "A"] _ _)).
  exists [MatchGame.Click 1; MatchGame.Click 2;
          MatchGame.Click 0; MatchGame.Click 3].
  reflexivity.
Defined.

(** X5: in a reachable state at most one [flip_back] is pending, and one is
    pending exactly when two or more cards are in [flipped]. *)
Theorem one_flip_back_pending :
  forall words g,
    MatchGame.reachable words g ->
    MatchGame.timers g <= 1
    /\ (MatchGame.timers g = 1 <-> 2 <= length (MatchGame.flipped g)).
Proof.
  intros words g Hreach.
  destruct (GameInv.ok_timers _ _ (reachable_ok words g Hreach))
    as [[H0 Hl]|[H1 Hl]]; lia.
Qed.

Lemma one_flip_back_pending_witness :
  exists g,
    MatchGame.run (MatchGame.build ["A"; "B"; "B"; "A"])
      [MatchGame.Click 0; MatchGame.Click 1; MatchGame.Click 2] = Some g
    /\ MatchGame.flipped g = [0; 1; 2]
    /\ MatchGame.timers g <= 1.
Proof.
  eexists. split; [reflexivity|]. split; [reflexivity|].
  refine (proj1 (one_flip_back_pending ["A"; "B"; "B"; "A"] _ _)).
  exists [MatchGame.Click 0; MatchGame.Click 1; MatchGame.Click 2].
  reflexivity.
Defined.

(** ** Shuffling, the deck and the gallery *)

Section ShuffleFacts.
Import Random Shuffle.
Context {A : Type}.

Lemma swap_length (x : list A) i j : length (swap x i j) = length x.
Proof.
  unfold swap. destruct (x !! i); [|reflexivity].
  destruct (x !! j); [|reflexivity]. rewrite !length_insert. reflexivity.
Qed.

Lemma swap_Permutation (x : list A) i j : Permutation (swap x i j) x.
Proof.
  unfold swap. destruct (x !! i) as [a|] eqn:Hi; [|reflexivity].
  destruct (x !! j) as [b|] eqn:Hj; [|reflexivity].
  pose proof (lookup_lt_Some _ _ _ Hi) as Hli.
  pose proof (lookup_lt_Some _ _ _ Hj) as Hlj.
  apply Permutation_inj. split; [rewrite !length_insert; reflexivity|].
  exists (fun k => if decide (k = i) then j else if decide (k = j) then i else k).
  split.
  - intros k1 k2. repeat case_decide; intros; subst; congruence.
  - intros k. destruct (decide (k = j)) as [->|Hkj].
    + rewrite list_lookup_insert_eq by (rewrite length_insert; exact Hlj).
      destruct (decide (j = i)) as [->|Hji]; congruence.
    + rewrite list_lookup_insert_ne by congruence.
      destruct (decide (k = i)) as [->|Hki].
      * rewrite list_lookup_insert_eq by exact Hli. congruence.
      * rewrite list_lookup_insert_ne by congruence. reflexivity.
Qed.

Lemma shuffle_from_Permutation i (x : list A) g :
  Permutation (fst (shuffle_from i x g)) x.
Proof.
  revert x g. induction i as [|i IH]; intros x g; cbn; [reflexivity|].
  rewrite IH. apply swap_Permutation.
Qed.

Lemma shuffle_Permutation (x : list A) g : Permutation (fst (shuffle x g)) x.
Proof. apply shuffle_from_Permutation. Qed.

End ShuffleFacts.

(** X6: the deck that [_build_quiz_tab] deals has twelve cards, one per
    button of the grid, and each of the six words is on exactly two of
    them; the tab starts in the state [MatchGame.build] describes. *)
Theorem quiz_deck_has_each_word_twice :
  forall g : Random.source,
    let game := fst (Quiz._build_quiz_tab g) in
    game = MatchGame.build (MatchGame.game_words game)
    /\ length (MatchGame.game_words game) = 12
    /\ forall w,
         count_occ string_dec (MatchGame.game_words game) w
         = if bool_decide (In w Quiz.words) then 2 else 0.
Proof.
  intros g. cbv zeta. unfold Quiz._build_quiz_tab.
  pose proof (shuffle_Permutation (Quiz.words ++ Quiz.words) g) as Hperm.
  destruct (Shuffle.shuffle (Quiz.words ++ Quiz.words) g) as [gw g'].
  cbn [fst] in *. cbn [MatchGame.game_words].
  assert (Hlen : length gw = 12).
  { rewrite (Permutation_length Hperm). reflexivity. }
  split; [|split].
  - unfold MatchGame.build. rewrite Hlen. reflexivity.
  - exact Hlen.
  - intros w. rewrite (Permutation_count_occ string_dec) in Hperm.
    rewrite Hperm. case_bool_decide as Hin.
    + cbn in Hin.
      repeat (destruct Hin as [<-|Hin]; [vm_compute; reflexivity|]).
      destruct Hin.
    + cbn in Hin. unfold Quiz.words. cbn [app count_occ].
      repeat (destruct (string_dec _ w) as [Heq|_];
              [exfalso; apply Hin; tauto|]).
      reflexivity.
Qed.

Section GalleryFacts.
Import ImageLoader Gallery.
Local Open Scope Z_scope.

Lemma getitem_in_range {A} (l : list A) (i : Z) :
  0 <= i < Z.of_nat (length l) -> exists x, getitem l i = Some x.
Proof.
  intros Hi. unfold getitem.
  replace (i <? 0) with false by (symmetry; apply Z.ltb_ge; lia).
  apply lookup_lt_is_Some_2. lia.
Qed.

(** [_show_current] with the index on a picture: the label changes only
    when the picture could be loaded. *)
Lemma show_current_eq env self loader py path :
  getitem (images self) (cur_idx self) = Some path ->
  _show_current env (self, loader, py)
  = Some (let '(ph, loader', py') := load env loader py path in
          ({| images := images self; cur_idx := cur_idx self;
              label := match ph with Some p => Some p | None => label self end |},
           loader', py')).
Proof.
  intros Hpath. unfold _show_current.
  destruct (images self) as [|x l] eqn:Himg.
  - unfold getitem in Hpath. cbn in Hpath.
    destruct (cur_idx self <? 0); [destruct (_ <? 0)|]; discriminate.
  - rewrite Hpath. cbn [mbind option_bind].
    destruct (load env loader py path) as [[[ph|] loader'] py'];
      [reflexivity|]. destruct self. cbn in *. rewrite Himg. reflexivity.
Qed.

Lemma turn_eq step env self loader py :
  images self <> [] ->
  let i := (cur_idx self + step) mod Z.of_nat (length (images self)) in
  0 <= i < Z.of_nat (length (images self))
  /\ exists path,
       getitem (images self) i = Some path
       /\ turn step env (self, loader, py)
          = Some (let '(ph, loader', py') := load env loader py path in
                  ({| images := images self; cur_idx := i;
                      label := match ph with
                               | Some p => Some p
                               | None => label self
                               end |}, loader', py')).
Proof.
  intros Hne. cbv zeta.
  assert (Hlen : 0 < Z.of_nat (length (images self))).
  { destruct (images self); [congruence|cbn; lia]. }
  pose proof (Z.mod_pos_bound (cur_idx self + step) _ Hlen) as Hi.
  split; [exact Hi|].
  destruct (getitem_in_range (images self) _ Hi) as [path Hpath].
  exists path. split; [exact Hpath|]. unfold turn.
  destruct (images self) as [|x l] eqn:Himg; [congruence|].
  rewrite <- Himg in *. rewrite (show_current_eq env _ loader py path);
    [reflexivity|exact Hpath].
Qed.

End GalleryFacts.

(** X7: with at least one picture, Next and Previous never raise, leave the
    list of pictures as it is, and put [cur_idx] at the next, respectively
    previous, position modulo the number of pictures, whatever the index
    was before. *)
Theorem gallery_turn_stays_in_range :
  forall env self loader py,
    Gallery.images self <> [] ->
    let n := Z.of_nat (length (Gallery.images self)) in
    (exists g l p,
        Gallery.show_next env (self, loader, py) = Some (g, l, p)
        /\ Gallery.images g = Gallery.images self
        /\ Gallery.cur_idx g = ((Gallery.cur_idx self + 1) mod n)%Z
        /\ (0 <= Gallery.cur_idx g < n)%Z)
    /\ (exists g l p,
        Gallery.show_prev env (self, loader, py) = Some (g, l, p)
        /\ Gallery.images g = Gallery.images self
        /\ Gallery.cur_idx g = ((Gallery.cur_idx self - 1) mod n)%Z
        /\ (0 <= Gallery.cur_idx g < n)%Z).
Proof.
  intros env self loader py Hne n.
  split.
  - destruct (turn_eq 1 env self loader py Hne) as [Hi (path & _ & Ht)].
    unfold Gallery.show_next. rewrite Ht.
    destruct (ImageLoader.load env loader py path) as [[ph l] p].
    eexists _, _, _. split; [reflexivity|]. cbn. auto.
  - destruct (turn_eq (-1) env self loader py Hne) as [Hi (path & _ & Ht)].
    unfold Gallery.show_prev. rewrite Ht.
    destruct (ImageLoader.load env loader py path) as [[ph l] p].
    eexists _, _, _. split; [reflexivity|]. cbn. auto.
Qed.

(** X8: from an index inside the list, Next followed by Previous, and
    Previous followed by Next, come back to the same index. *)
Theorem gallery_next_prev_round_trip :
  forall env self loader py g1 l1 p1 g2 l2 p2,
    (0 <= Gallery.cur_idx self < Z.of_nat (length (Gallery.images self)))%Z ->
    (Gallery.show_next env (self, loader, py) = Some (g1, l1, p1)
     /\ Gallery.show_prev env (g1, l1, p1) = Some (g2, l2, p2))
    \/ (Gallery.show_prev env (self, loader, py) = Some (g1, l1, p1)
        /\ Gallery.show_next env (g1, l1, p1) = Some (g2, l2, p2)) ->
    Gallery.cur_idx g2 = Gallery.cur_idx self
    /\ Gallery.images g2 = Gallery.images self.
Proof.
  intros env self loader py g1 l1 p1 g2 l2 p2 Hi Hsteps.
  assert (Hne : Gallery.images self <> []).
  { destruct (Gallery.images self); [cbn in Hi; lia|congruence]. }
  assert (Hturn : forall s1 s2,
    Gallery.turn s1 env (self, loader, py) = Some (g1, l1, p1) ->
    Gallery.turn s2 env (g1, l1, p1) = Some (g2, l2, p2) ->
    Gallery.images g2 = Gallery.images self
    /\ Gallery.cur_idx g2
       = (((Gallery.cur_idx self + s1)
           mod Z.of_nat (length (Gallery.images self)) + s2)
          mod Z.of_nat (length (Gallery.images self)))%Z).
  { intros s1 s2 H1 H2.
    destruct (turn_eq s1 env self loader py Hne) as [_ (path & _ & Ht)].
    rewrite Ht in H1.
    destruct (ImageLoader.load env loader py path) as [[ph l] p].
    injection H1 as <- <- <-.
    match type of H2 with
    | Gallery.turn _ _ (?g, _, _) = _ =>
        destruct (turn_eq s2 env g l p Hne) as [_ (path2 & _ & Ht2)]
    end.
    rewrite Ht2 in H2.
    destruct (ImageLoader.load env l p path2) as [[ph2 l'] p'].
    injection H2 as <- <- <-. cbn. auto. }
  destruct Hsteps as [[H1 H2]|[H1 H2]];
    destruct (Hturn _ _ H1 H2) as [Himg Hidx]; (split; [|exact Himg]);
    rewrite Hidx.
  - rewrite Zplus_mod_idemp_l.
    replace (Gallery.cur_idx self + 1 + -1)%Z with (Gallery.cur_idx self) by lia.
    apply Z.mod_small. exact Hi.
  - rewrite Zplus_mod_idemp_l.
    replace (Gallery.cur_idx self + -1 + 1)%Z with (Gallery.cur_idx self) by lia.
    apply Z.mod_small. exact Hi.
Qed.

(** X9: when the picture that Next turns to is not in the cache and cannot
    be decoded, the index moves on but the label keeps showing the picture
    it showed before, and the cache is unchanged. *)
Theorem gallery_keeps_picture_on_failure :
  forall env self loader py path,
    let i := ((Gallery.cur_idx self + 1)
              mod Z.of_nat (length (Gallery.images self)))%Z in
    Gallery.images self <> [] ->
    Gallery.getitem (Gallery.images self) i = Some path ->
    ImageLoader.cache loader
      !! Path.abspath (ImageLoader.getcwd env) path = None ->
    ImageLoader.decode env loader (Path.abspath (ImageLoader.getcwd env) path)
    = None ->
    exists py',
      Gallery.show_next env (self, loader, py)
      = Some ({| Gallery.images := Gallery.images self;
                 Gallery.cur_idx := i;
                 Gallery.label := Gallery.label self |}, loader, py').
Proof.
  intros env self loader py path i Hne Hpath Hmiss Hfail.
  destruct (turn_eq 1 env self loader py Hne) as [_ (path' & Hpath' & Ht)].
  fold i in Hpath', Ht. rewrite Hpath in Hpath'. injection Hpath' as <-.
  unfold Gallery.show_next. rewrite Ht. unfold ImageLoader.load.
  rewrite Hmiss, Hfail. eexists. reflexivity.
Qed.

(** X10: Shuffle never raises, rearranges the list of pictures without
    losing or adding one and, when there is a picture, goes back to
    index 0. *)
Theorem gallery_shuffle_permutes :
  forall env rng self loader py,
    exists g l p,
      fst (Gallery.shuffle_gallery env rng (self, loader, py)) = Some (g, l, p)
      /\ Permutation (Gallery.images g) (Gallery.images self)
      /\ (Gallery.images self <> [] -> Gallery.cur_idx g = 0%Z).
Proof.
  intros env rng self loader py. unfold Gallery.shuffle_gallery.
  destruct (Gallery.images self) as [|x rest] eqn:Himg.
  - cbn. eexists _, _, _. split; [reflexivity|]. rewrite Himg.
    split; [reflexivity|congruence].
  - rewrite <- Himg.
    pose proof (shuffle_Permutation (Gallery.images self) rng) as Hperm.
    destruct (Shuffle.shuffle (Gallery.images self) rng) as [imgs rng'].
    cbn [fst] in *.
    assert (Hlen : (0 <= 0 < Z.of_nat (length imgs))%Z).
    { rewrite (Permutation_length Hperm), Himg. cbn. lia. }
    destruct (getitem_in_range imgs 0%Z Hlen) as [path Hpath].
    rewrite (show_current_eq env _ loader py path) by exact Hpath.
    destruct (ImageLoader.load env loader py path) as [[ph l] p].
    eexists _, _, _. split; [reflexivity|]. cbn. auto.
Qed.

(** X7 on the sample machine: Next from the first picture. *)
Lemma gallery_turn_stays_in_range_witness :
  exists g l p,
    Gallery.show_next Demo.env DemoGallery.start = Some (g, l, p)
    /\ Gallery.cur_idx g = 1%Z.
Proof.
  destruct (proj1 (gallery_turn_stays_in_range Demo.env DemoGallery.gallery
                     Demo.loader Demo.py
                     ltac:(vm_compute; discriminate)))
    as (g & l & p & Hnext & _ & Hidx & _).
  exists g, l, p. split; [exact Hnext|]. rewrite Hidx. vm_compute. reflexivity.
Defined.

(** X8 on the sample machine. *)
Lemma gallery_next_prev_round_trip_witness :
  exists g1 l1 p1 g2 l2 p2,
    Gallery.show_next Demo.env DemoGallery.start = Some (g1, l1, p1)
    /\ Gallery.show_prev Demo.env (g1, l1, p1) = Some (g2, l2, p2)
    /\ Gallery.cur_idx g1 = 1%Z
    /\ Gallery.cur_idx g2 = 0%Z.
Proof.
  eexists _, _, _, _, _, _.
  split; [reflexivity|]. split; [reflexivity|]. split; [reflexivity|].
  refine (proj1 (gallery_next_prev_round_trip Demo.env DemoGallery.gallery
            Demo.loader Demo.py _ _ _ _ _ _ _ (or_introl (conj _ _)))).
  - vm_compute. split; [discriminate|reflexivity].
  - reflexivity.
  - reflexivity.
Defined.

(** X9 on the sample machine: Next turns to the unreadable [b.GIF]. *)
Lemma gallery_keeps_picture_on_failure_witness :
  exists py',
    Gallery.show_next Demo.env DemoGallery.start
    = Some ({| Gallery.images := Gallery.images DemoGallery.gallery;
               Gallery.cur_idx := 1;
               Gallery.label := None |}, Demo.loader, py').
Proof.
  exact (gallery_keeps_picture_on_failure Demo.env DemoGallery.gallery
           Demo.loader Demo.py "/home/u/app/assets/images/b.GIF"
           ltac:(vm_compute; discriminate)
           ltac:(vm_compute; reflexivity)
           ltac:(vm_compute; reflexivity)
           ltac:(vm_compute; reflexivity)).
Defined.

(** ** Canvases: what moving and creating items keeps *)

Section FrameFacts.
Import Tk Frame.
Context {C : Type} (add : C -> C -> C).

Lemma shift_length dx dy (cs : list C) :
  length (shift add dx dy cs) = length cs.
Proof.
  assert (H : length (shift add dx dy cs) = length cs
              /\ forall x, length (shift add dx dy (x :: cs)) = S (length cs)).
  { induction cs as [|y cs [IH1 IH2]]; [split; reflexivity|].
    split; [apply IH2|]. intros x. cbn. rewrite IH1. reflexivity. }
  apply H.
Qed.

Lemma get_coords_move_length id id' dx dy (cv : canvas C) :
  length (get_coords id' (move add id dx dy cv))
  = length (get_coords id' cv).
Proof.
  unfold get_coords. rewrite find_item_move.
  destruct (find_item id' cv) as [it|]; cbn; [|reflexivity].
  destruct (Nat.eqb id' id); cbn; [apply shift_length|reflexivity].
Qed.

Lemma outline_move id dx dy (cv : canvas C) :
  outline (move add id dx dy cv) = outline cv.
Proof.
  unfold outline, move. cbn. rewrite map_map. apply map_ext.
  intros e. unfold move_item. destruct (Nat.eqb (fst e) id); reflexivity.
Qed.

Lemma find_item_none id (cv : canvas C) :
  find_item id cv = None <-> ~ In id (map fst (outline cv)).
Proof.
  unfold find_item, outline. rewrite map_map. cbn [fst].
  induction (display cv) as [|e l IH]; cbn.
  - split; [intros _ []|reflexivity].
  - destruct (Nat.eqb_spec (fst e) id) as [Heq|Hne]; cbn.
    + split; [discriminate|]. intros H. exfalso. apply H. left. exact Heq.
    + rewrite IH. split; [intros H [Heq|Hin]; [congruence|exact (H Hin)]|].
      intros H Hin. apply H. right. exact Hin.
Qed.

Lemma find_item_app id n (l k : list (nat * item C)) :
  find_item id (Canvas n (l ++ k))
  = match find_item id (Canvas n l) with
    | Some it => Some it
    | None => find_item id (Canvas n k)
    end.
Proof.
  unfold find_item. cbn. induction l as [|e l IH]; cbn; [reflexivity|].
  destruct (Nat.eqb (fst e) id); [reflexivity|exact IH].
Qed.

Lemma find_item_fresh (cv : canvas C) id :
  canvas_ok cv -> next_id cv <= id -> find_item id cv = None.
Proof.
  intros Hok Hid. apply find_item_none. unfold outline. rewrite map_map.
  intros Hin. apply in_map_iff in Hin as (e & <- & He).
  specialize (Hok e He). cbn in Hid. lia.
Qed.

Lemma find_item_create_new it (cv : canvas C) :
  canvas_ok cv -> find_item (next_id cv) (snd (create it cv)) = Some it.
Proof.
  intros Hok. unfold create. cbn [snd]. rewrite find_item_app.
  replace (find_item (next_id cv) (Canvas (S (next_id cv)) (display cv)))
    with (find_item (next_id cv) cv) by reflexivity.
  rewrite (find_item_fresh cv (next_id cv) Hok) by lia.
  unfold find_item. cbn. rewrite Nat.eqb_refl. reflexivity.
Qed.

Lemma find_item_create_old it (cv : canvas C) id x :
  find_item id cv = Some x -> find_item id (snd (create it cv)) = Some x.
Proof.
  intros Hx. unfold create. cbn [snd]. rewrite find_item_app.
  replace (find_item id (Canvas (S (next_id cv)) (display cv)))
    with (find_item id cv) by reflexivity.
  rewrite Hx. reflexivity.
Qed.

Lemma find_item_move_other id id' dx dy (cv : canvas C) :
  id' <> id -> find_item id' (move add id dx dy cv) = find_item id' cv.
Proof.
  intros Hne. rewrite find_item_move. apply Nat.eqb_neq in Hne. rewrite Hne.
  destruct (find_item id' cv); reflexivity.
Qed.

Lemma find_item_bound id it (cv : canvas C) :
  canvas_ok cv -> find_item id cv = Some it -> id < next_id cv.
Proof.
  intros Hok Hit. destruct (Nat.lt_ge_cases id (next_id cv)) as [Hlt|Hge];
    [exact Hlt|].
  rewrite (find_item_fresh cv id Hok Hge) in Hit. discriminate.
Qed.

Lemma canvas_ok_create it (cv : canvas C) :
  canvas_ok cv -> canvas_ok (snd (create it cv)).
Proof.
  intros Hok e He. unfold create in *. cbn in *.
  apply in_app_or in He as [He|[<-|[]]]; [specialize (Hok e He); lia|cbn; lia].
Qed.

End FrameFacts.

(** ** Confetti: construction and animation *)

Section ConfettiRun.
Import Tk Random Confetti Frame ConfettiInv.

Lemma randint_success a b g :
  (a <= b)%Z ->
  exists r, randint a b g = Some (r, snd (next g)) /\ (a <= r <= b)%Z.
Proof.
  intros Hab. unfold randint.
  replace (b <? a)%Z with false by (symmetry; apply Z.ltb_ge; exact Hab).
  unfold next. cbn [snd]. eexists. split; [reflexivity|].
  pose proof (Z.mod_pos_bound (raw g (pos g)) (b - a + 1)). lia.
Qed.

Lemma choice_colors g :
  exists c, choice COLORS g = Some (c, snd (next g)) /\ In c COLORS.
Proof.
  unfold choice, next. cbn [snd].
  pose proof (Z.mod_pos_bound (raw g (pos g)) (Z.of_nat (length COLORS)) eq_refl)
    as Hm.
  destruct (nth_error COLORS (Z.to_nat (raw g (pos g) mod Z.of_nat (length COLORS))))
    as [c|] eqn:Hc.
  - exists c. cbn [mbind option_bind]. split; [reflexivity|].
    eapply nth_error_In. exact Hc.
  - apply nth_error_None in Hc. lia.
Qed.

(** One round of the loop of the constructor: six draws and one oval. *)
Lemma new_piece_spec width height cv g :
  (0 <= width)%Z -> (0 <= height)%Z ->
  exists speed drift it,
    new_piece width height (cv, g)
    = Some ((next_id cv, speed, drift),
            (snd (create it cv), Source (raw g) (6 + pos g)))
    /\ is_piece_oval width height it.
Proof.
  intros Hw Hh. unfold new_piece.
  destruct (randint_success 0 width g Hw) as (x & -> & Hx).
  cbn [mbind option_bind].
  destruct (randint_success (- height) 0 (snd (next g)) ltac:(lia))
    as (y & -> & Hy).
  cbn [mbind option_bind].
  destruct (randint_success 3 7 (snd (next (snd (next g)))) ltac:(lia))
    as (r & -> & Hr).
  cbn [mbind option_bind].
  destruct (choice_colors (snd (next (snd (next (snd (next g)))))))
    as (c & -> & Hc).
  cbn [mbind option_bind]. unfold create at 1.
  eexists _, _, _. split; [reflexivity|].
  exists x, y, r. cbn. auto.
Qed.

Lemma new_pieces_spec width height count : forall acc cv g,
  (0 <= width)%Z -> (0 <= height)%Z ->
  exists new items,
    new_pieces width height count acc (cv, g)
    = Some (acc ++ new,
            (Canvas (next_id cv + count) (display cv ++ items),
             Source (raw g) (6 * count + pos g)))
    /\ map shape_of new = seq (next_id cv) count
    /\ map fst items = seq (next_id cv) count
    /\ Forall (fun e => is_piece_oval width height (snd e)) items.
Proof.
  induction count as [|count IH]; intros acc cv g Hw Hh.
  - exists [], []. cbn. rewrite !app_nil_r, Nat.add_0_r.
    destruct cv, g; cbn. repeat split; constructor.
  - destruct (new_piece_spec width height cv g Hw Hh)
      as (speed & drift & it & Hnew & Hoval).
    cbn [new_pieces]. rewrite Hnew. cbn [mbind option_bind].
    destruct (IH (acc ++ [(next_id cv, speed, drift)]) (snd (create it cv))
                (Source (raw g) (6 + pos g)) Hw Hh)
      as (new & items & Hrec & Hshapes & Hids & Hov).
    cbn [create snd next_id display raw pos] in Hrec, Hshapes, Hids |- *.
    exists ((next_id cv, speed, drift) :: new), ((next_id cv, it) :: items).
    split.
    + replace (next_id cv + S count)%nat with (S (next_id cv) + count)%nat
        by lia.
      replace (6 * S count + pos g)%nat with (6 * count + (6 + pos g))%nat
        by lia.
      rewrite <- !app_assoc in Hrec. exact Hrec.
    + cbn. rewrite Hshapes, Hids. repeat split; constructor; assumption.
Qed.

Lemma find_item_in_new (n : nat) (l items : list (nat * item float)) id it :
  (forall e, In e l -> (fst e < n)%nat) ->
  map fst items = seq n (length items) ->
  In (id, it) items ->
  find_item id (Canvas (n + length items)%nat (l ++ items)) = Some it.
Proof.
  intros Hold Hids Hin. rewrite find_item_app.
  assert (Hfresh : find_item id (Canvas n l) = None).
  { apply find_item_fresh; [exact Hold|]. cbn.
    apply (in_map fst) in Hin. rewrite Hids in Hin.
    apply in_seq in Hin. cbn in Hin. lia. }
  change (find_item id (Canvas (n + length items)%nat l))
    with (find_item id (Canvas n l)).
  rewrite Hfresh. change (find_item id (Canvas (n + length items)%nat items))
    with (find_item id (Canvas n items)).
  clear Hold Hfresh l. revert n Hids.
  induction items as [|[id0 it0] items IH]; intros n Hids; [destruct Hin|].
  cbn in Hids. injection Hids as -> Hids.
  unfold find_item. cbn. destruct (Nat.eqb_spec n id) as [->|Hne].
  - destruct Hin as [[= ->]|Hin]; [reflexivity|].
    apply (in_map fst) in Hin. rewrite Hids in Hin. apply in_seq in Hin.
    cbn in Hin. lia.
  - destruct Hin as [[= -> ->]|Hin]; [congruence|].
    apply (IH Hin (S n) Hids).
Qed.

(** A round of [step] succeeds on an oval that is there. *)
Lemma step_piece_success self_w self_h p cv g :
  (0 <= self_w)%Z -> length (get_coords (shape_of p) cv) = 4%nat ->
  exists cv' g', step_piece self_w self_h p (cv, g) = Some (cv', g').
Proof.
  intros Hw Hlen. destruct p as [[shape speed] drift].
  unfold shape_of in Hlen. cbn [fst] in Hlen. unfold step_piece.
  rewrite <- (get_coords_move_length PrimFloat.add shape shape drift speed)
    in Hlen.
  destruct (get_coords shape (move PrimFloat.add shape drift speed cv))
    as [|x1 [|y1 [|x2 [|y2 [|? ?]]]]]; try discriminate Hlen.
  destruct (Num.of_int self_h <? y1)%float; [|eauto].
  destruct (randint_success 0 self_w g Hw) as (rx & -> & _).
  cbn [mbind option_bind]. eauto.
Qed.

Lemma step_piece_keeps self_w self_h p cv g cv' g' :
  step_piece self_w self_h p (cv, g) = Some (cv', g') ->
  outline cv' = outline cv
  /\ forall id, length (get_coords id cv') = length (get_coords id cv).
Proof.
  destruct p as [[shape speed] drift]. unfold step_piece. intros Hstep.
  destruct (get_coords shape (move PrimFloat.add shape drift speed cv))
    as [|x1 [|y1 [|x2 [|y2 [|? ?]]]]]; try discriminate.
  destruct (Num.of_int self_h <? y1)%float; cbn in Hstep.
  - destruct (randint 0 self_w g) as [[rx g1]|]; [|discriminate].
    cbn in Hstep. injection Hstep as <- <-.
    split; [rewrite !outline_move; reflexivity|].
    intros id. rewrite !get_coords_move_length. reflexivity.
  - injection Hstep as <- <-.
    split; [apply outline_move|]. intros id. apply get_coords_move_length.
Qed.

Lemma step_pieces_keeps self_w self_h ps : forall st st',
  step_pieces self_w self_h ps st = Some st' ->
  outline (fst st') = outline (fst st)
  /\ forall id, length (get_coords id (fst st'))
                = length (get_coords id (fst st)).
Proof.
  induction ps as [|p ps IH]; intros st st' Hrun; cbn in Hrun.
  - injection Hrun as <-. auto.
  - destruct st as [cv g].
    destruct (step_piece self_w self_h p (cv, g)) as [[cv1 g1]|] eqn:Hp;
      [|discriminate].
    cbn in Hrun. destruct (IH _ _ Hrun) as [Ho Hl].
    destruct (step_piece_keeps _ _ _ _ _ _ _ Hp) as [Ho1 Hl1].
    cbn [fst] in *. split; [congruence|]. intros id. rewrite Hl. apply Hl1.
Qed.

Lemma step_pieces_success self_w self_h ps : forall cv g,
  (0 <= self_w)%Z ->
  (forall p, In p ps -> length (get_coords (shape_of p) cv) = 4%nat) ->
  exists st', step_pieces self_w self_h ps (cv, g) = Some st'.
Proof.
  induction ps as [|p ps IH]; intros cv g Hw Hall; cbn [step_pieces];
    [eauto|].
  destruct (step_piece_success self_w self_h p cv g Hw) as (cv1 & g1 & Hp).
  { apply Hall. left. reflexivity. }
  rewrite Hp. cbn [mbind option_bind]. apply IH; [exact Hw|]. intros q Hq.
  destruct (step_piece_keeps _ _ _ _ _ _ _ Hp) as [_ Hl].
  rewrite Hl. apply Hall. right. exact Hq.
Qed.

Lemma steps_success n : forall self cv g,
  (0 <= w self)%Z -> ovals_present self cv ->
  exists cv' g', steps n self (cv, g) = Some (cv', g')
                 /\ ovals_present self cv'
                 /\ outline cv' = outline cv.
Proof.
  induction n as [|n IH]; intros self cv g Hw Hall; cbn [steps].
  - exists cv, g. auto.
  - destruct (step_pieces_success (w self) (h self) (pieces self) cv g Hw Hall)
      as [[cv1 g1] Hstep].
    unfold step at 1. rewrite Hstep. cbn [mbind option_bind].
    destruct (step_pieces_keeps _ _ _ _ _ Hstep) as [Ho Hl]. cbn [fst] in *.
    destruct (IH self cv1 g1 Hw) as (cv' & g' & Hrun & Hall' & Ho').
    { intros p Hp. rewrite Hl. apply Hall. exact Hp. }
    exists cv', g'. split; [exact Hrun|]. split; [exact Hall'|]. congruence.
Qed.

Lemma step_pieces_missing self_w self_h ps : forall cv g p,
  In p ps -> find_item (shape_of p) cv = None ->
  step_pieces self_w self_h ps (cv, g) = None.
Proof.
  induction ps as [|q ps IH]; intros cv g p Hin Hnone; [destruct Hin|].
  cbn [step_pieces].
  destruct (step_piece self_w self_h q (cv, g)) as [[cv1 g1]|] eqn:Hq;
    [|reflexivity].
  cbn [mbind option_bind]. destruct Hin as [->|Hin].
  - exfalso. destruct p as [[shape speed] drift].
    unfold shape_of in Hnone. cbn [fst] in Hnone. unfold step_piece in Hq.
    assert (Hc : get_coords shape (move PrimFloat.add shape drift speed cv) = []).
    { unfold get_coords. rewrite find_item_move, Hnone. reflexivity. }
    rewrite Hc in Hq. discriminate.
  - apply (IH cv1 g1 p Hin).
    destruct (step_piece_keeps _ _ _ _ _ _ _ Hq) as [Ho _].
    apply find_item_none. rewrite Ho. apply find_item_none. exact Hnone.
Qed.

Lemma step_pieces_find_other self_w self_h ps : forall st st' id,
  step_pieces self_w self_h ps st = Some st' ->
  ~ In id (map shape_of ps) ->
  find_item id (fst st') = find_item id (fst st).
Proof.
  induction ps as [|p ps IH]; intros st st' id Hrun Hnot;
    cbn [step_pieces] in Hrun.
  - injection Hrun as <-. reflexivity.
  - destruct st as [cv g].
    destruct (step_piece self_w self_h p (cv, g)) as [[cv1 g1]|] eqn:Hp;
      [|discriminate].
    cbn [mbind option_bind] in Hrun. rewrite (IH _ _ id Hrun).
    2:{ intros Hin. apply Hnot. right. exact Hin. }
    cbn [fst]. assert (Hne : id <> shape_of p).
    { intros ->. apply Hnot. left. reflexivity. }
    destruct p as [[shape speed] drift]. unfold shape_of in Hne.
    cbn [fst] in Hne. unfold step_piece in Hp.
    destruct (get_coords shape (move PrimFloat.add shape drift speed cv))
      as [|x1 [|y1 [|x2 [|y2 [|? ?]]]]]; try discriminate.
    destruct (Num.of_int self_h <? y1)%float; cbn in Hp.
    + destruct (randint 0 self_w g) as [[rx g2]|]; [|discriminate].
      cbn in Hp. injection Hp as <- <-.
      rewrite !find_item_move_other by exact Hne. reflexivity.
    + injection Hp as <- <-. apply find_item_move_other. exact Hne.
Qed.

(** What the constructor builds, in one statement. *)
Lemma init_spec cv width height count g :
  (0 <= width)%Z -> (0 <= height)%Z ->
  exists ps items,
    init cv width height count g
    = Some ({| w := width; h := height; pieces := ps |},
            (Canvas (next_id cv + count)%nat (display cv ++ items),
             Source (raw g) (6 * count + pos g)))
    /\ map shape_of ps = seq (next_id cv) count
    /\ map fst items = seq (next_id cv) count
    /\ Forall (fun e => is_piece_oval width height (snd e)) items.
Proof.
  intros Hw Hh. unfold init.
  destruct (new_pieces_spec width height count [] cv g Hw Hh)
    as (new & items & -> & H).
  cbn [mbind option_bind app]. exists new, items.
  split; [reflexivity|exact H].
Qed.

End ConfettiRun.

(** X11: for an area of non-negative width and height the constructor of
    [Confetti] succeeds and makes [count] pieces; their ovals get the next
    [count] item ids of the canvas, all different; the loop takes exactly
    six draws from the random source for each piece. *)
Theorem confetti_init_pieces :
  forall cv width height count g,
    (0 <= width)%Z -> (0 <= height)%Z ->
    exists self cv' g',
      Confetti.init cv width height count g = Some (self, (cv', g'))
      /\ Confetti.w self = width /\ Confetti.h self = height
      /\ length (Confetti.pieces self) = count
      /\ map Confetti.shape_of (Confetti.pieces self)
         = seq (Tk.next_id cv) count
      /\ List.NoDup (map Confetti.shape_of (Confetti.pieces self))
      /\ Random.raw g' = Random.raw g
      /\ Random.pos g' = 6 * count + Random.pos g.
Proof.
  intros cv width height count g Hw Hh.
  destruct (init_spec cv width height count g Hw Hh)
    as (ps & items & Hinit & Hshapes & _ & _).
  eexists _, _, _. split; [exact Hinit|]. cbn.
  split; [reflexivity|]. split; [reflexivity|].
  split; [rewrite <- (length_map Confetti.shape_of), Hshapes;
          apply List.length_seq|].
  split; [exact Hshapes|].
  split; [rewrite Hshapes; apply seq_NoDup|].
  split; reflexivity.
Qed.

(** X11 on the sample run. *)
Lemma confetti_init_pieces_witness :
  exists self cv' g',
    Confetti.init Tk.empty 800 500 2 Demo.confetti_source
    = Some (self, (cv', g'))
    /\ map Confetti.shape_of (Confetti.pieces self) = [1; 2]
    /\ Random.pos g' = 12.
Proof.
  destruct (confetti_init_pieces Tk.empty 800 500 2 Demo.confetti_source
              ltac:(lia) ltac:(lia))
    as (self & cv' & g' & Hinit & _ & _ & _ & Hshapes & _ & _ & Hpos).
  exists self, cv', g'. split; [exact Hinit|]. split; [exact Hshapes|exact Hpos].
Defined.

(** X12: the constructor leaves the items that were on the canvas as they
    are and appends one oval per piece: a square of side 3 to 7 tagged
    ["confetti"], in one of the ten colours, with its left edge in
    [0, width] and its top edge in [-height, 0]. *)
Theorem confetti_init_ovals :
  forall cv width height count g,
    (0 <= width)%Z -> (0 <= height)%Z ->
    exists self cv' g' items,
      Confetti.init cv width height count g = Some (self, (cv', g'))
      /\ Tk.display cv' = Tk.display cv ++ items
      /\ length items = count
      /\ Forall (fun e => ConfettiInv.is_piece_oval width height (snd e)) items.
Proof.
  intros cv width height count g Hw Hh.
  destruct (init_spec cv width height count g Hw Hh)
    as (ps & items & Hinit & _ & Hids & Hovals).
  eexists _, _, _, items. split; [exact Hinit|]. cbn.
  split; [reflexivity|]. split; [|exact Hovals].
  rewrite <- (length_map fst), Hids. apply List.length_seq.
Qed.

(** X12 on the sample run. *)
Lemma confetti_init_ovals_witness :
  exists self cv' g' items,
    Confetti.init Tk.empty 800 500 2 Demo.confetti_source
    = Some (self, (cv', g'))
    /\ Tk.display cv' = items /\ length items = 2.
Proof.
  destruct (confetti_init_ovals Tk.empty 800 500 2 Demo.confetti_source
              ltac:(lia) ltac:(lia))
    as (self & cv' & g' & items & Hinit & Hdisp & Hlen & _).
  exists self, cv', g', items. split; [exact Hinit|]. split; assumption.
Defined.

(** X13: a system built by the constructor on a canvas with well-formed ids
    can be animated for any number of frames without an exception, with any
    random source; the frames never add, delete, recolour or retag an
    item. *)
Theorem confetti_animation_never_raises :
  forall cv width height count g self cv' g',
    Frame.canvas_ok cv ->
    (0 <= width)%Z -> (0 <= height)%Z ->
    Confetti.init cv width height count g = Some (self, (cv', g')) ->
    forall n g2,
      exists cv'' g'',
        Confetti.steps n self (cv', g2) = Some (cv'', g'')
        /\ Frame.outline cv'' = Frame.outline cv'.
Proof.
  intros cv width height count g self cv' g' Hok Hw Hh Hinit n g2.
  destruct (init_spec cv width height count g Hw Hh)
    as (ps & items & Hinit' & Hshapes & Hids & Hovals).
  rewrite Hinit' in Hinit. injection Hinit as <- <- <-.
  assert (Hlen : length items = count).
  { rewrite <- (length_map fst), Hids. apply List.length_seq. }
  destruct (steps_success n
              {| Confetti.w := width; Confetti.h := height;
                 Confetti.pieces := ps |}
              (Tk.Canvas (Tk.next_id cv + count) (Tk.display cv ++ items)) g2)
    as (cv'' & g'' & Hrun & _ & Ho); [exact Hw| |eauto].
  intros p Hp. cbn in Hp.
  assert (Hin : In (Confetti.shape_of p) (map fst items)).
  { rewrite Hids, <- Hshapes. apply in_map. exact Hp. }
  apply in_map_iff in Hin as ([id it] & Hid & Hit). cbn in Hid. subst id.
  rewrite List.Forall_forall in Hovals. specialize (Hovals _ Hit).
  destruct Hovals as (x & y & r & _ & _ & _ & _ & Hitem). cbn in Hitem.
  unfold Tk.get_coords. rewrite <- Hlen.
  rewrite (find_item_in_new (Tk.next_id cv) (Tk.display cv) items _ it);
    [rewrite Hitem; reflexivity|exact Hok|rewrite Hlen; exact Hids|exact Hit].
Qed.

(** X13 on the sample run: 200 frames. *)
Lemma confetti_animation_never_raises_witness :
  exists self cv' g' cv'' g'',
    Confetti.init Tk.empty 800 500 2 Demo.confetti_source
    = Some (self, (cv', g'))
    /\ Confetti.steps 200 self (cv', g') = Some (cv'', g'').
Proof.
  destruct (Confetti.init Tk.empty 800 500 2 Demo.confetti_source)
    as [[self [cv' g']]|] eqn:Hinit; [|discriminate Hinit].
  destruct (confetti_animation_never_raises Tk.empty 800 500 2
              Demo.confetti_source self cv' g'
              ltac:(intros e []) ltac:(lia) ltac:(lia) Hinit 200 g')
    as (cv'' & g'' & Hrun & _).
  exists self, cv', g', cv'', g''. split; [reflexivity|exact Hrun].
Defined.

(** X14: when the oval of one of the pieces is no longer on the canvas, as
    after [canvas.delete("all")], [step] raises. *)
Theorem confetti_step_raises_without_oval :
  forall self cv g p,
    In p (Confetti.pieces self) ->
    Tk.find_item (Confetti.shape_of p) cv = None ->
    Confetti.step self (cv, g) = None.
Proof.
  intros self cv g p Hin Hnone. unfold Confetti.step.
  eapply step_pieces_missing; eassumption.
Qed.

(** X15: [step] leaves every item that is not an oval of the system exactly
    as it was, coordinates included, and changes nothing but coordinates on
    the canvas. *)
Theorem confetti_step_keeps_other_items :
  forall self cv g cv' g',
    Confetti.step self (cv, g) = Some (cv', g') ->
    Frame.outline cv' = Frame.outline cv
    /\ forall id,
         ~ In id (map Confetti.shape_of (Confetti.pieces self)) ->
         Tk.find_item id cv' = Tk.find_item id cv.
Proof.
  intros self cv g cv' g' Hstep. unfold Confetti.step in Hstep. split.
  - apply (step_pieces_keeps _ _ _ _ _ Hstep).
  - intros id Hnot. apply (step_pieces_find_other _ _ _ _ _ id Hstep Hnot).
Qed.


(** X14 on the sample run: the canvas is cleared after the system was
    built. *)
Lemma confetti_step_raises_without_oval_witness :
  exists self cv g,
    Confetti.init Tk.empty 800 500 2 Demo.confetti_source = Some (self, (cv, g))
    /\ Confetti.step self (Frame.delete_all cv, g) = None.
Proof.
  let r := eval vm_compute in
    (Confetti.init Tk.empty 800 500 2 Demo.confetti_source) in
  lazymatch r with
  | Some (?s, (?c, ?g)) =>
      exists s, c, g; split; [vm_compute; reflexivity|];
      lazymatch s with
      | {| Confetti.pieces := ?p :: _ |} =>
          apply (confetti_step_raises_without_oval s _ g p)
      end
  end.
  - left. reflexivity.
  - reflexivity.
Defined.

(** X15 on the sample run: the first frame. *)
Lemma confetti_step_keeps_other_items_witness :
  exists self cv g cv' g',
    Confetti.init Tk.empty 800 500 2 Demo.confetti_source = Some (self, (cv, g))
    /\ Confetti.step self (cv, g) = Some (cv', g')
    /\ Frame.outline cv' = Frame.outline cv.
Proof.
  let r := eval vm_compute in
    (Confetti.init Tk.empty 800 500 2 Demo.confetti_source) in
  lazymatch r with
  | Some (?s, (?c, ?g)) =>
      let r' := eval vm_compute in (Confetti.step s (c, g)) in
      lazymatch r' with
      | Some (?c', ?g') =>
          exists s, c, g, c', g'; split; [vm_compute; reflexivity|];
          split; [vm_compute; reflexivity|];
          refine (proj1 (confetti_step_keeps_other_items s c g c' g' _))
      end
  end.
  vm_compute. reflexivity.
Defined.

(** ** Balloons: construction and drift *)

Section BalloonRun.
Import Tk Balloons Frame BalloonInv.
Local Open Scope Z_scope.

Lemma rise_floor y : -60 <= y -> -60 <= rise y.
Proof. unfold rise. destruct (Z.ltb_spec (y - 1) (-60)); lia. Qed.

Lemma iter_rise_down (k : nat) y :
  Z.of_nat k <= y + 60 -> Nat.iter k rise y = y - Z.of_nat k.
Proof.
  induction k as [|k IH]; intros Hk; [cbn; lia|].
  rewrite Nat.iter_succ, IH by lia. unfold rise.
  destruct (Z.ltb_spec (y - Z.of_nat k - 1) (-60)); lia.
Qed.

(** The drift has period 500 inside the band it stays in. *)
Lemma iter_rise_period y :
  -60 <= y <= 439 -> Nat.iter 500 rise y = y.
Proof.
  intros Hy.
  replace 500%nat
    with (Z.to_nat (439 - y) + (1 + Z.to_nat (y + 60)))%nat by lia.
  rewrite Nat.iter_add. rewrite (Nat.iter_add 1).
  rewrite (iter_rise_down (Z.to_nat (y + 60)) y) by lia.
  replace (y - Z.of_nat (Z.to_nat (y + 60))) with (-60) by lia.
  change (Nat.iter 1 rise (-60)) with 439.
  rewrite iter_rise_down by lia. lia.
Qed.

(** One run of the loop body, in terms of [hangs] and [rise]. *)
Lemma float_up_one_hangs b s cv x y :
  b <> s -> hangs x y (b, s) cv ->
  exists cv', float_up_one (b, s) cv = Some cv' /\ hangs x (rise y) (b, s) cv'.
Proof.
  intros Hne [Hb Hs]. cbn [fst snd] in *.
  destruct (float_up_one (b, s) cv) as [cv'|] eqn:Hone.
  - exists cv'. split; [reflexivity|].
    destruct (float_up_one_own b s cv cv' _ _ _ _ _ _ _ _ Hne Hb Hs Hone)
      as [Hstay Hwrap].
    unfold hangs, rise. cbn [fst snd].
    destruct (Z.ltb_spec (y - 1) (-60)) as [Hlt|Hge].
    + destruct (Hwrap Hlt) as [-> ->]. split; f_equal; try lia;
        f_equal; try lia; f_equal; try lia; f_equal; lia.
    + destruct (Hstay Hge) as [-> ->]. split; f_equal; try lia;
        f_equal; try lia; f_equal; try lia; f_equal; lia.
  - exfalso. unfold float_up_one in Hone.
    rewrite get_coords_move_other, get_coords_move_same, Hb in Hone
      by exact Hne.
    cbn in Hone. destruct (_ <? _); discriminate.
Qed.

Lemma hangs_other bs cv cv' x y :
  get_coords (fst bs) cv' = get_coords (fst bs) cv ->
  get_coords (snd bs) cv' = get_coords (snd bs) cv ->
  hangs x y bs cv -> hangs x y bs cv'.
Proof. unfold hangs. intros -> ->. auto. Qed.

(** One run of [float_up] over balloons that all hang on the canvas. *)
Lemma float_up_hangs balloons : forall cv (pos : balloon -> Z * Z),
  List.NoDup (ids balloons) ->
  (forall bs, In bs balloons -> hangs (fst (pos bs)) (snd (pos bs)) bs cv) ->
  exists cv',
    float_up balloons cv = Some cv'
    /\ (forall bs, In bs balloons ->
          hangs (fst (pos bs)) (rise (snd (pos bs))) bs cv')
    /\ (forall id, ~ In id (ids balloons) ->
          get_coords id cv' = get_coords id cv).
Proof.
  induction balloons as [|[b s] rest IH]; intros cv pos Hnd Hall.
  - exists cv. cbn. split; [reflexivity|]. split; [intros ? []|reflexivity].
  - cbn [ids flat_map fst snd app] in Hnd. fold (ids rest) in Hnd.
    apply List.NoDup_cons_iff in Hnd as [Hb Hnd].
    apply List.NoDup_cons_iff in Hnd as [Hs Hnd].
    assert (Hne : b <> s) by (intros ->; apply Hb; left; reflexivity).
    destruct (float_up_one_hangs b s cv _ _ Hne (Hall (b, s) (or_introl eq_refl)))
      as (cv1 & Hone & Hh1).
    destruct (IH cv1 pos Hnd) as (cv' & Hrun & Hrest & Hframe).
    { intros bs Hin. apply (hangs_other bs cv cv1); [| |apply Hall; right; exact Hin].
      - apply (float_up_one_other _ _ _ _ Hone); cbn [fst snd]; intros Heq;
          [apply Hb; right|apply Hs]; rewrite <- Heq; unfold ids;
          apply in_flat_map; exists bs; (split; [exact Hin|cbn; tauto]).
      - apply (float_up_one_other _ _ _ _ Hone); cbn [fst snd]; intros Heq;
          [apply Hb; right|apply Hs]; rewrite <- Heq; unfold ids;
          apply in_flat_map; exists bs; (split; [exact Hin|cbn; tauto]). }
    exists cv'. cbn [float_up]. rewrite Hone. cbn [mbind option_bind].
    split; [exact Hrun|]. split.
    + intros bs [<-|Hin]; [|apply Hrest; exact Hin].
      apply (hangs_other (b, s) cv1 cv'); [| |exact Hh1]; cbn [fst snd];
        apply Hframe; [exact (fun H => Hb (or_intror H))|exact Hs].
    + intros id Hnot. rewrite Hframe.
      * apply (float_up_one_other _ _ _ _ Hone); cbn [fst snd]; intros ->;
          apply Hnot; cbn; tauto.
      * intros Hin. apply Hnot. cbn. tauto.
Qed.

(** A run of [float_up] touches no item but the balloons. *)
Lemma float_up_find_other balloons : forall cv cv' id,
  float_up balloons cv = Some cv' ->
  ~ In id (ids balloons) ->
  find_item id cv' = find_item id cv.
Proof.
  induction balloons as [|[b s] rest IH]; intros cv cv' id Hrun Hnot;
    cbn [float_up] in Hrun.
  - injection Hrun as <-. reflexivity.
  - destruct (float_up_one (b, s) cv) as [cv1|] eqn:Hone; [|discriminate].
    cbn [mbind option_bind] in Hrun.
    rewrite (IH _ _ id Hrun) by (intros Hin; apply Hnot; cbn; tauto).
    assert (Hb : id <> b) by (intros ->; apply Hnot; cbn; tauto).
    assert (Hs : id <> s) by (intros ->; apply Hnot; cbn; tauto).
    unfold float_up_one in Hone.
    destruct (nth_error _ 1) as [y|]; [|discriminate].
    cbn [mbind option_bind] in Hone.
    destruct (y <? -60); injection Hone as <-;
      rewrite !find_item_move_other by assumption; reflexivity.
Qed.

Lemma ticks_hangs n : forall balloons cv (pos : balloon -> Z * Z),
  List.NoDup (ids balloons) ->
  (forall bs, In bs balloons -> hangs (fst (pos bs)) (snd (pos bs)) bs cv) ->
  exists cv',
    ticks n balloons cv = Some cv'
    /\ forall bs, In bs balloons ->
         hangs (fst (pos bs)) (Nat.iter n rise (snd (pos bs))) bs cv'.
Proof.
  induction n as [|n IH]; intros balloons cv pos Hnd Hall.
  - exists cv. split; [reflexivity|exact Hall].
  - destruct (float_up_hangs balloons cv pos Hnd Hall) as (cv1 & Hrun & Hh & _).
    destruct (IH balloons cv1 (fun bs => (fst (pos bs), rise (snd (pos bs)))) Hnd Hh)
      as (cv' & Hticks & Hh').
    exists cv'. cbn [ticks]. rewrite Hrun. cbn [mbind option_bind].
    split; [exact Hticks|]. intros bs Hin. specialize (Hh' bs Hin).
    cbn [fst snd] in Hh'. rewrite Nat.iter_succ_r. exact Hh'.
Qed.

End BalloonRun.

Section BalloonMake.
Import Tk Balloons Frame BalloonInv.

Lemma make_spec colors : forall i acc (cv : canvas Z),
  canvas_ok cv ->
  exists new cv',
    make i colors acc cv = (acc ++ new, cv')
    /\ length new = length colors
    /\ ids new = seq (next_id cv) (2 * length colors)
    /\ canvas_ok cv'
    /\ (forall id it, find_item id cv = Some it -> find_item id cv' = Some it)
    /\ (forall k bs, new !! k = Some bs ->
          fst bs = next_id cv + 2 * k
          /\ hangs (if Nat.eqb ((i + k) mod 2) 0 then 30 else 70)
                   (400 + Z.of_nat (i + k) * 60) bs cv').
Proof.
  induction colors as [|color colors IH]; intros i acc cv Hok.
  - exists [], cv. cbn. rewrite app_nil_r.
    repeat split; auto; intros;
      match goal with
      | H : [] !! ?j = Some _ |- _ => destruct j; discriminate H
      end.
  - cbn [make].
    set (x := (if Nat.eqb (i mod 2) 0 then 30 else 70)%Z).
    set (y := (400 + Z.of_nat i * 60)%Z).
    set (body := Item oval [x; y; (x + 40)%Z; (y + 50)%Z] color []).
    set (str := Item line [(x + 20)%Z; (y + 50)%Z; (x + 20)%Z; (y + 70)%Z]
                     "black" []).
    pose proof (canvas_ok_create body cv Hok) as Hok1.
    pose proof (canvas_ok_create str _ Hok1) as Hok2.
    pose proof (find_item_create_new body cv Hok) as Hb.
    pose proof (find_item_create_new str _ Hok1) as Hs.
    apply (find_item_create_old str) in Hb.
    destruct (create body cv) as [b cv1] eqn:Hc1.
    destruct (create str cv1) as [s cv2] eqn:Hc2.
    unfold create in Hc1, Hc2. injection Hc1 as <- <-.
    cbn [next_id] in Hc2. injection Hc2 as <- <-.
    cbn [snd create next_id display] in Hok1, Hok2, Hb, Hs.
    match goal with
    | |- context [make (S i) colors ?a ?c] =>
        destruct (IH (S i) a c Hok2)
          as (new & cv' & Hmake & Hlen & Hids & Hok' & Hold & Hnew)
    end.
    exists ((next_id cv, S (next_id cv)) :: new), cv'.
    split; [rewrite Hmake, <- app_assoc; reflexivity|].
    split; [cbn; rewrite Hlen; reflexivity|].
    split.
    { cbn [ids flat_map fst snd app]. fold (ids new). rewrite Hids.
      cbn [next_id length]. replace (2 * S (length colors))
        with (S (S (2 * length colors))) by lia. reflexivity. }
    split; [exact Hok'|]. split.
    { intros id it Hit. apply Hold.
      exact (find_item_create_old str _ _ _
               (find_item_create_old body cv _ _ Hit)). }
    intros [|k] bs Hk.
    + cbn in Hk. injection Hk as <-. replace (i + 0) with i by lia.
      split; [cbn; lia|].
      unfold hangs, get_coords. cbn [fst snd].
      rewrite (Hold _ _ Hb), (Hold _ _ Hs). split; reflexivity.
    + cbn in Hk. destruct (Hnew k bs Hk) as [Hid Hh].
      split; [rewrite Hid; cbn [next_id]; lia|].
      replace (i + S k) with (S i + k) by lia. exact Hh.
Qed.

End BalloonMake.

(** X16: on a canvas with well-formed ids, [animate_balloons] returns
    without an exception, with one balloon per colour drawn and moved up
    once by its first call of [float_up], and leaves the other items alone.
    The ids of bodies and strings are the next ids of the canvas, all
    different; balloon number [i] has its body at x = 30 or 70 by the parity
    of [i] and at y = 399 + 60 i, 40 wide and 50 high, with a string of
    length 20 hanging from the middle of its lower edge. *)
Theorem animate_balloons_spec :
  forall colors (cv : Tk.canvas Z),
    Frame.canvas_ok cv ->
    exists balloons cv',
      Balloons.animate_balloons colors cv = Some (balloons, cv')
      /\ length balloons = length colors
      /\ Balloons.ids balloons = seq (Tk.next_id cv) (2 * length colors)
      /\ List.NoDup (Balloons.ids balloons)
      /\ (forall id it, Tk.find_item id cv = Some it ->
                        Tk.find_item id cv' = Some it)
      /\ (forall i bs, balloons !! i = Some bs ->
            BalloonInv.hangs (if Nat.eqb (i mod 2) 0 then 30 else 70)
                             (399 + Z.of_nat i * 60) bs cv').
Proof.
  intros colors cv Hok. unfold Balloons.animate_balloons.
  destruct (make_spec colors 0 [] cv Hok)
    as (new & cv1 & Hmake & Hlen & Hids & _ & Hold & Hnew).
  cbn [app] in Hmake. rewrite Hmake.
  assert (Hnd : List.NoDup (Balloons.ids new))
    by (rewrite Hids; apply seq_NoDup).
  set (pos := fun bs : Balloons.balloon =>
                let i := (fst bs - Tk.next_id cv) / 2 in
                ((if Nat.eqb (i mod 2) 0 then 30 else 70)%Z,
                 (400 + Z.of_nat i * 60)%Z)).
  assert (Hindex : forall i bs, new !! i = Some bs ->
                     (fst bs - Tk.next_id cv) / 2 = i).
  { intros i bs Hi. destruct (Hnew i bs Hi) as [-> _].
    replace (Tk.next_id cv + 2 * i - Tk.next_id cv) with (i * 2) by lia.
    apply Nat.div_mul. discriminate. }
  destruct (float_up_hangs new cv1 pos Hnd) as (cv' & Hrun & Hh & _).
  { intros bs Hin. apply list_elem_of_In, list_elem_of_lookup_1 in Hin.
    destruct Hin as [i Hi]. unfold pos. cbn [fst snd].
    rewrite (Hindex i bs Hi). exact (proj2 (Hnew i bs Hi)). }
  rewrite Hrun. cbn [mbind option_bind]. exists new, cv'.
  split; [reflexivity|]. split; [exact Hlen|]. split; [exact Hids|].
  split; [exact Hnd|]. split.
  - intros id it Hit.
    rewrite (float_up_find_other new cv1 cv' id Hrun); [exact (Hold id it Hit)|].
    rewrite Hids. intros Hin. apply in_seq in Hin.
    pose proof (find_item_bound id it cv Hok Hit). lia.
  - intros i bs Hi.
    assert (Hin : In bs new).
    { apply list_elem_of_In. eapply list_elem_of_lookup_2. exact Hi. }
    specialize (Hh bs Hin). unfold pos in Hh. cbn [fst snd] in Hh.
    rewrite (Hindex i bs Hi) in Hh.
    replace (BalloonInv.rise (400 + Z.of_nat i * 60))
      with (399 + Z.of_nat i * 60)%Z in Hh; [exact Hh|].
    unfold BalloonInv.rise.
    destruct (Z.ltb_spec (400 + Z.of_nat i * 60 - 1) (-60)); lia.
Qed.

(** X16 on the left canvas of the welcome screen. *)
Lemma animate_balloons_spec_witness :
  exists balloons cv',
    Balloons.animate_balloons Demo.left_colors Tk.empty = Some (balloons, cv')
    /\ Balloons.ids balloons = seq 1 12
    /\ forall bs, balloons !! 0 = Some bs -> BalloonInv.hangs 30 399 bs cv'.
Proof.
  destruct (animate_balloons_spec Demo.left_colors Tk.empty ltac:(intros e []))
    as (balloons & cv' & Hrun & _ & Hids & _ & _ & Hh).
  exists balloons, cv'. split; [exact Hrun|]. split; [exact Hids|].
  intros bs Hbs. exact (Hh 0 bs Hbs).
Defined.

(** X17: when every balloon hangs on the canvas and no id is used twice,
    [float_up] can run any number of times without an exception.  After [n]
    runs each balloon still hangs, string attached, at its old x; its top
    edge is where [n] applications of [rise] take it, and it is never above
    -60 if it was not at the start. *)
Theorem balloons_drift_trajectory :
  forall balloons cv (pos : Balloons.balloon -> Z * Z) n,
    List.NoDup (Balloons.ids balloons) ->
    (forall bs, In bs balloons ->
       BalloonInv.hangs (fst (pos bs)) (snd (pos bs)) bs cv) ->
    exists cv',
      Balloons.ticks n balloons cv = Some cv'
      /\ forall bs, In bs balloons ->
           BalloonInv.hangs (fst (pos bs))
             (Nat.iter n BalloonInv.rise (snd (pos bs))) bs cv'
           /\ ((-60 <= snd (pos bs))%Z ->
               (-60 <= Nat.iter n BalloonInv.rise (snd (pos bs)))%Z).
Proof.
  intros balloons cv pos n Hnd Hall.
  destruct (ticks_hangs n balloons cv pos Hnd Hall) as (cv' & Hrun & Hh).
  exists cv'. split; [exact Hrun|]. intros bs Hin. split; [apply Hh, Hin|].
  intros Hy. clear -Hy. induction n as [|n IH]; [exact Hy|].
  rewrite Nat.iter_succ. apply rise_floor. exact IH.
Qed.

(** X18: a balloon whose top edge is between -60 and 439 is back at the
    same place after 500 runs of [float_up]. *)
Theorem balloons_period_500 :
  forall balloons cv (pos : Balloons.balloon -> Z * Z),
    List.NoDup (Balloons.ids balloons) ->
    (forall bs, In bs balloons ->
       BalloonInv.hangs (fst (pos bs)) (snd (pos bs)) bs cv
       /\ (-60 <= snd (pos bs) <= 439)%Z) ->
    exists cv',
      Balloons.ticks 500 balloons cv = Some cv'
      /\ forall bs, In bs balloons ->
           BalloonInv.hangs (fst (pos bs)) (snd (pos bs)) bs cv'.
Proof.
  intros balloons cv pos Hnd Hall.
  destruct (ticks_hangs 500 balloons cv pos Hnd (fun bs H => proj1 (Hall bs H)))
    as (cv' & Hrun & Hh).
  exists cv'. split; [exact Hrun|]. intros bs Hin.
  specialize (Hh bs Hin). rewrite iter_rise_period in Hh; [exact Hh|].
  apply Hall. exact Hin.
Qed.

(** X17 on a canvas with one balloon: ten runs. *)
Lemma balloons_drift_trajectory_witness :
  exists cv',
    Balloons.ticks 10 (fst DemoBalloons.single) (snd DemoBalloons.single)
    = Some cv'
    /\ BalloonInv.hangs 30 390 (1, 2) cv'.
Proof.
  destruct (balloons_drift_trajectory (fst DemoBalloons.single)
              (snd DemoBalloons.single) DemoBalloons.start_pos 10)
    as (cv' & Hrun & Hh).
  - cbn. nodup_literal.
  - intros bs Hin. cbn in Hin. destruct Hin as [<-|[]].
    split; reflexivity.
  - exists cv'. split; [exact Hrun|].
    exact (proj1 (Hh (1, 2) ltac:(left; reflexivity))).
Defined.

(** X18 on a canvas with one balloon, which starts at y = 400. *)
Lemma balloons_period_500_witness :
  exists cv',
    Balloons.ticks 500 (fst DemoBalloons.single) (snd DemoBalloons.single)
    = Some cv'
    /\ BalloonInv.hangs 30 400 (1, 2) cv'.
Proof.
  destruct (balloons_period_500 (fst DemoBalloons.single)
              (snd DemoBalloons.single) DemoBalloons.start_pos)
    as (cv' & Hrun & Hh).
  - cbn. nodup_literal.
  - intros bs Hin. cbn in Hin. destruct Hin as [<-|[]].
    split; [split; reflexivity|]. cbn. lia.
  - exists cv'. split; [exact Hrun|].
    exact (Hh (1, 2) ltac:(left; reflexivity)).
Defined.

(** ** The heart: what a beat draws, and the timer queue *)

Section HeartDrawing.
Import Tk Heart HeartObs.
Variables sin cos : float -> float.
Variable pow : float -> float -> float.

Lemma heart_points_length cx cy size steps :
  length (heart_points sin cos pow cx cy size steps) = steps.
Proof. unfold heart_points. rewrite length_map. apply List.length_seq. Qed.

Lemma heart_items_delete (cv : Tk.canvas float) :
  heart_items (delete "heart" cv) = [].
Proof.
  unfold heart_items, delete. cbn [display].
  induction (display cv) as [|e l IH]; cbn; [reflexivity|].
  destruct (has_tag "heart" (snd e)) eqn:He; cbn; [exact IH|].
  rewrite He. exact IH.
Qed.

Lemma draw_segment_eq pts (cv : Tk.canvas float) i :
  i < length pts ->
  draw_segment pts cv i
  = Canvas (S (next_id cv)) (display cv ++ [(next_id cv, segment pts i)]).
Proof.
  intros Hi. unfold draw_segment, segment.
  assert (Hj : (i + 1) mod length pts < length pts)
    by (apply Nat.mod_upper_bound; lia).
  destruct (nth_error pts i) as [[x1 y1]|] eqn:H1;
    [|apply nth_error_None in H1; lia].
  destruct (nth_error pts ((i + 1) mod length pts)) as [[x2 y2]|] eqn:H2;
    [|apply nth_error_None in H2; lia].
  rewrite (nth_error_nth _ _ _ H1), (nth_error_nth _ _ _ H2). reflexivity.
Qed.

Lemma draw_segments_eq pts idx : forall cv : Tk.canvas float,
  (forall i, In i idx -> i < length pts) ->
  fold_left (draw_segment pts) idx cv
  = Canvas (next_id cv + length idx)
           (display cv
            ++ combine (seq (next_id cv) (length idx)) (map (segment pts) idx)).
Proof.
  induction idx as [|i idx IH]; intros cv Hidx.
  - cbn. rewrite Nat.add_0_r, app_nil_r. destruct cv; reflexivity.
  - cbn [fold_left]. rewrite draw_segment_eq by (apply Hidx; left; reflexivity).
    rewrite IH by (intros j Hj; apply Hidx; right; exact Hj).
    cbn [next_id display length seq map combine].
    rewrite <- app_assoc. cbn [app]. f_equal. lia.
Qed.

Lemma heart_items_app n (l k : list (nat * item float)) :
  heart_items (Canvas n (l ++ k))
  = heart_items (Canvas n l) ++ heart_items (Canvas n k).
Proof. unfold heart_items. cbn. apply List.filter_app. Qed.

Lemma heart_items_segments n pts ids js :
  heart_items (Canvas n (combine ids (map (segment pts) js)))
  = combine ids (map (segment pts) js).
Proof.
  unfold heart_items. cbn [display]. revert ids.
  induction js as [|j js IH]; intros [|a ids]; cbn; try reflexivity.
  rewrite IH. reflexivity.
Qed.

(** What a beat leaves on the canvas under the tag ["heart"]. *)
Lemma beat_heart_items c app :
  animating app = true ->
  let pts := heart_points sin cos pow (cx c) (cy c) (base c * scale c) 160 in
  heart_items (Heart.canvas (fst (beat sin cos pow c app)))
  = combine (seq (next_id (Heart.canvas app)) 160)
            (map (segment pts) (seq 0 160)).
Proof.
  intros Ha pts. unfold beat. rewrite Ha. cbn [negb].
  destruct (advance (scale c) (growing c)) as [s g]. cbn [fst Heart.canvas].
  fold pts. unfold draw_outline.
  assert (Hlen : length pts = 160) by apply heart_points_length.
  rewrite draw_segments_eq
    by (intros i Hi; apply in_seq in Hi; rewrite Hlen in *; lia).
  rewrite Hlen, List.length_seq, heart_items_app.
  change (heart_items (Canvas (next_id (delete "heart" (Heart.canvas app)) + 160)
                              (display (delete "heart" (Heart.canvas app)))))
    with (heart_items (delete "heart" (Heart.canvas app))).
  rewrite heart_items_delete. cbn [List.app]. apply heart_items_segments.
Qed.

End HeartDrawing.

Section HeartLoop.
Import Tk Heart HeartObs HeartTimers.
Variables sin cos : float -> float.
Variable pow : float -> float -> float.

Lemma not_heart_beat c app :
  Obs.not_heart (Heart.canvas (fst (beat sin cos pow c app)))
  = Obs.not_heart (Heart.canvas app).
Proof.
  unfold beat. destruct (animating app); simpl; [|reflexivity].
  destruct (advance (scale c) (growing c)). simpl.
  rewrite not_heart_draw_outline. apply not_heart_delete.
Qed.

Lemma not_heart_ticks n st :
  Obs.not_heart (Heart.canvas (fst (Nat.iter n (tick sin cos pow) st)))
  = Obs.not_heart (Heart.canvas (fst st)).
Proof.
  induction n as [|n IH]; [reflexivity|].
  rewrite Nat.iter_succ. unfold tick at 1.
  destruct (snd (Nat.iter n (tick sin cos pow) st)); [|exact IH].
  rewrite not_heart_beat. exact IH.
Qed.

Lemma beat_animating c app :
  animating app = true ->
  exists app' c',
    beat sin cos pow c app = (app', Some c') /\ animating app' = true.
Proof.
  intros Ha. unfold beat. rewrite Ha. cbn [negb].
  destruct (advance (scale c) (growing c)). eexists _, _.
  split; reflexivity.
Qed.

Lemma beat_idle c app :
  animating app = false -> beat sin cos pow c app = (app, None).
Proof. intros Ha. unfold beat. rewrite Ha. reflexivity. Qed.

Lemma fire_animating st :
  animating (fst st) = true ->
  animating (fst (fire sin cos pow st)) = true
  /\ length (snd (fire sin cos pow st)) = length (snd st).
Proof.
  destruct st as [app q]. cbn [fst snd]. intros Ha. unfold fire.
  cbn [fst snd]. destruct q as [|c rest]; [auto|].
  destruct (beat_animating c app Ha) as (app' & c' & -> & Ha').
  cbn [fst snd scheduled]. rewrite length_app. cbn [length].
  split; [exact Ha'|lia].
Qed.

Lemma fires_animating n st :
  animating (fst st) = true ->
  animating (fst (Nat.iter n (fire sin cos pow) st)) = true
  /\ length (snd (Nat.iter n (fire sin cos pow) st)) = length (snd st).
Proof.
  intros Ha. induction n as [|n [IHa IHl]]; [auto|].
  rewrite Nat.iter_succ.
  destruct (fire_animating _ IHa) as [Ha' Hl']. split; [exact Ha'|congruence].
Qed.

End HeartLoop.

(** X19: while the animation is on, a beat leaves exactly 160 items tagged
    ["heart"] on the canvas, whatever was there before: red lines with the
    next 160 ids, the i-th from point i of the outline to point i + 1, and
    the last one back to point 0, so that the outline is closed. *)
Theorem beat_draws_closed_outline :
  forall (sin cos : float -> float) (pow : float -> float -> float) c app,
    Heart.animating app = true ->
    let pts := Heart.heart_points sin cos pow (Heart.cx c) (Heart.cy c)
                 (Heart.base c * Heart.scale c)%float 160 in
    HeartObs.heart_items (Heart.canvas (fst (Heart.beat sin cos pow c app)))
    = combine (seq (Tk.next_id (Heart.canvas app)) 160)
              (map (HeartObs.segment pts) (seq 0 160)).
Proof. intros sin cos pow c app Ha. apply beat_heart_items. exact Ha. Qed.

(** X19 on an empty canvas. *)
Lemma beat_draws_closed_outline_witness :
  length (HeartObs.heart_items
            (Heart.canvas (fst (Heart.beat DemoHeart.id_fn DemoHeart.id_fn
                                  DemoHeart.cube DemoHeart.call
                                  DemoHeart.home))))
  = 160.
Proof.
  rewrite (beat_draws_closed_outline DemoHeart.id_fn DemoHeart.id_fn
             DemoHeart.cube DemoHeart.call DemoHeart.home eq_refl).
  rewrite length_combine, List.length_seq, length_map, List.length_seq.
  reflexivity.
Defined.

(** X20: starting the heart, letting the timer fire any number of times and
    pressing the button again switches the animation off, schedules
    nothing, removes every item tagged ["heart"] and leaves all other items
    of the canvas as they were before the start. *)
Theorem heart_start_stop_restores :
  forall (sin cos : float -> float) (pow : float -> float -> float)
         w h app n,
    Heart.animating app = false ->
    let running := Nat.iter n (Heart.tick sin cos pow)
                     (Heart.draw_beating_heart sin cos pow w h app) in
    let stopped := Heart.draw_beating_heart sin cos pow w h (fst running) in
    Heart.animating (fst stopped) = false
    /\ snd stopped = None
    /\ HeartObs.heart_items (Heart.canvas (fst stopped)) = []
    /\ Obs.not_heart (Heart.canvas (fst stopped))
       = Obs.not_heart (Heart.canvas app).
Proof.
  intros sin cos pow w h app n Ha. cbv zeta.
  destruct (heart_loop_args sin cos pow w h app n Ha) as [Hrun _].
  cbv zeta in Hrun. unfold Heart.draw_beating_heart at 1 3 5 7.
  rewrite Hrun. cbn [fst snd Heart.animating Heart.canvas].
  repeat split.
  - apply heart_items_delete.
  - rewrite not_heart_delete, not_heart_ticks.
    unfold Heart.draw_beating_heart. rewrite Ha.
    rewrite not_heart_beat. reflexivity.
Qed.

(** X20 on an empty canvas, after three beats. *)
Lemma heart_start_stop_restores_witness :
  Heart.animating
    (fst (Heart.draw_beating_heart DemoHeart.id_fn DemoHeart.id_fn
            DemoHeart.cube 800 500
            (fst (Nat.iter 3 (Heart.tick DemoHeart.id_fn DemoHeart.id_fn
                                DemoHeart.cube)
                    (Heart.draw_beating_heart DemoHeart.id_fn DemoHeart.id_fn
                       DemoHeart.cube 800 500 DemoHeart.idle)))))
  = false.
Proof.
  exact (proj1 (heart_start_stop_restores DemoHeart.id_fn DemoHeart.id_fn
                  DemoHeart.cube 800 500 DemoHeart.idle 3 eq_refl)).
Defined.

(** X21: pressing the button stops a running heart but does not cancel the
    call of [beat] that is already scheduled; pressing it again before that
    call has run starts a second loop beside the first.  From then on the
    number of pending calls stays one higher than before, however often the
    timer fires. *)
Theorem heart_restart_doubles_loop :
  forall (sin cos : float -> float) (pow : float -> float -> float)
         w h (st : HeartTimers.state) n,
    Heart.animating (fst st) = true ->
    let restarted :=
      HeartTimers.press sin cos pow w h (HeartTimers.press sin cos pow w h st) in
    let later := Nat.iter n (HeartTimers.fire sin cos pow) restarted in
    Heart.animating (fst later) = true
    /\ length (snd later) = S (length (snd st)).
Proof.
  intros sin cos pow w h st n Ha. cbv zeta.
  assert (Hre : Heart.animating
                  (fst (HeartTimers.press sin cos pow w h
                          (HeartTimers.press sin cos pow w h st))) = true
                /\ length (snd (HeartTimers.press sin cos pow w h
                                  (HeartTimers.press sin cos pow w h st)))
                   = S (length (snd st))).
  { unfold HeartTimers.press at 2 4. unfold Heart.draw_beating_heart.
    rewrite Ha. cbn [fst snd HeartTimers.scheduled].
    unfold HeartTimers.press, Heart.draw_beating_heart.
    cbn [fst snd Heart.animating].
    match goal with
    | |- context [Heart.beat sin cos pow ?c ?a] =>
        destruct (beat_animating sin cos pow c a eq_refl)
          as (app' & c' & -> & Ha')
    end.
    cbn. rewrite app_nil_r, length_app. cbn. split; [exact Ha'|lia]. }
  destruct Hre as [Ha2 Hl2].
  destruct (fires_animating sin cos pow n _ Ha2) as [Ha3 Hl3].
  split; [exact Ha3|congruence].
Qed.

(** X21 with one call pending at the start. *)
Lemma heart_restart_doubles_loop_witness :
  length (snd (Nat.iter 5
                 (HeartTimers.fire DemoHeart.id_fn DemoHeart.id_fn DemoHeart.cube)
                 (HeartTimers.press DemoHeart.id_fn DemoHeart.id_fn
                    DemoHeart.cube 800 500
                    (HeartTimers.press DemoHeart.id_fn DemoHeart.id_fn
                       DemoHeart.cube 800 500
                       (DemoHeart.home, [DemoHeart.call])))))
  = 2.
Proof.
  exact (proj2 (heart_restart_doubles_loop DemoHeart.id_fn DemoHeart.id_fn
                  DemoHeart.cube 800 500 (DemoHeart.home, [DemoHeart.call]) 5
                  eq_refl)).
Defined.

(** ** Media loader: the cache, the canonical paths and the downscaling *)

(** X22: [load] returns exactly what the cache holds for the canonical path
    when it is done; it never replaces or removes an entry, and it touches
    no key but that of the path it was given. *)
Theorem load_keeps_cache_entries :
  forall env self py p,
    let key := Path.abspath (ImageLoader.getcwd env) p in
    let '(r, self', py') := ImageLoader.load env self py p in
    r = ImageLoader.cache self' !! key
    /\ (forall k ph, ImageLoader.cache self !! k = Some ph ->
                     ImageLoader.cache self' !! k = Some ph)
    /\ (forall k, k <> key ->
                  ImageLoader.cache self' !! k = ImageLoader.cache self !! k)
    /\ ImageLoader.max_w self' = ImageLoader.max_w self
    /\ ImageLoader.max_h self' = ImageLoader.max_h self.
Proof.
  intros env self py p key. unfold ImageLoader.load. fold key.
  destruct (ImageLoader.cache self !! key) as [ph0|] eqn:Hc.
  - repeat split; auto.
  - destruct (ImageLoader.decode env self key) as [[w h]|].
    + cbn. split; [rewrite lookup_insert_eq; reflexivity|].
      split; [|split; [|auto]].
      * intros k ph Hk. destruct (decide (k = key)) as [->|Hne];
          [congruence|]. rewrite lookup_insert_ne by congruence. exact Hk.
      * intros k Hne. apply lookup_insert_ne. congruence.
    + repeat split; auto.
Qed.

Section PathFacts.
Import Path.

Lemma isabs_chars p : isabs p = true -> exists l, chars p = "/"%char :: l.
Proof.
  destruct p as [|c s]; [discriminate|]. cbn.
  destruct c as [[] [] [] [] [] [] [] []]; intros H; try discriminate H.
  eexists. reflexivity.
Qed.

(** [normpath] keeps a leading slash. *)
Lemma normpath_isabs p : isabs p = true -> isabs (normpath p) = true.
Proof.
  intros Habs. destruct (isabs_chars p Habs) as [l Hl].
  unfold normpath. destruct (String.eqb_spec p "") as [->|_]; [discriminate|].
  rewrite Hl.
  set (n := match l with
            | "/"%char :: "/"%char :: _ => 1
            | "/"%char :: _ => 2
            | _ => 1
            end).
  assert (Hn : exists m, n = S m).
  { unfold n. destruct l as [|c1 [|c2 l']]; eauto.
    - destruct (Ascii.eqb_spec c1 "/"); [subst; eauto|].
      destruct c1 as [[] [] [] [] [] [] [] []]; eauto.
    - destruct c1 as [[] [] [] [] [] [] [] []]; eauto;
        destruct c2 as [[] [] [] [] [] [] [] []]; eauto. }
  destruct Hn as [m Hm].
  replace (match "/"%char :: l with
           | "/"%char :: "/"%char :: "/"%char :: _ => 1
           | "/"%char :: "/"%char :: _ => 2
           | "/"%char :: _ => 1
           | _ => 0
           end) with n by reflexivity.
  rewrite Hm. cbn [repeat List.app str string_of_list_ascii].
  reflexivity.
Qed.

Lemma abspath_isabs cwd p : isabs cwd = true -> isabs (abspath cwd p) = true.
Proof.
  intros Hcwd. unfold abspath. apply normpath_isabs.
  destruct (isabs p) eqn:Hp; [exact Hp|].
  unfold join. rewrite Hp.
  destruct (String.eqb cwd "" || endswith_slash cwd);
    apply isabs_append; exact Hcwd.
Qed.

End PathFacts.

(** X23: when the working directory is an absolute path, every key that
    [load] adds to the cache is an absolute path: a cache whose keys are
    all absolute stays that way. *)
Theorem load_keys_are_absolute :
  forall env self py p k,
    Path.isabs (ImageLoader.getcwd env) = true ->
    (forall k', is_Some (ImageLoader.cache self !! k') -> Path.isabs k' = true) ->
    is_Some (ImageLoader.cache (snd (fst (ImageLoader.load env self py p))) !! k) ->
    Path.isabs k = true.
Proof.
  intros env self py p k Hcwd Hkeys Hk.
  unfold ImageLoader.load in Hk.
  destruct (ImageLoader.cache self !! Path.abspath (ImageLoader.getcwd env) p)
    as [ph0|] eqn:Hc; [apply Hkeys; exact Hk|].
  destruct (ImageLoader.decode env self _) as [[w h]|];
    [|apply Hkeys; exact Hk].
  cbn in Hk. destruct (decide (k = Path.abspath (ImageLoader.getcwd env) p))
    as [->|Hne]; [apply abspath_isabs; exact Hcwd|].
  rewrite lookup_insert_ne in Hk by congruence. apply Hkeys. exact Hk.
Qed.

(** X23 on the sample machine. *)
Lemma load_keys_are_absolute_witness :
  Path.isabs "/home/u/app/assets/images/a.png" = true.
Proof.
  apply (load_keys_are_absolute Demo.env Demo.loader Demo.py
           "assets/images/a.png").
  - reflexivity.
  - intros k' [ph Hph]. discriminate Hph.
  - eexists. vm_compute. reflexivity.
Defined.

Section ScaleFacts.
Import ImageLoader.
Local Open Scope Z_scope.

Lemma qmax_l a b : (a <= qmax a b)%Q.
Proof.
  unfold qmax. destruct (Qle_bool a b) eqn:H.
  - apply Qle_bool_iff. exact H.
  - apply Qle_refl.
Qed.

Lemma qmax_r a b : (b <= qmax a b)%Q.
Proof.
  unfold qmax. destruct (Qle_bool a b) eqn:H; [apply Qle_refl|].
  destruct (Qlt_le_dec b a) as [Hlt|Hle]; [apply Qlt_le_weak; exact Hlt|].
  apply Qle_bool_iff in Hle. congruence.
Qed.

Lemma qmax_cases a b : qmax a b = a \/ qmax a b = b.
Proof. unfold qmax. destruct (Qle_bool a b); auto. Qed.

Lemma ratio_le_Z w m k :
  0 < m -> (inject_Z w / inject_Z m <= inject_Z k)%Q <-> w <= k * m.
Proof.
  intros Hm. destruct m as [|p|p]; try lia.
  unfold Qle, Qdiv, Qmult, Qinv, inject_Z. cbn. lia.
Qed.

Lemma subsample_bounds k n m :
  2 <= k -> 0 < n -> n <= k * m ->
  0 < subsample k n /\ subsample k n <= m /\ subsample k n <= n.
Proof.
  intros Hk Hn Hnm. unfold subsample. split; [|split].
  - apply Z.div_str_pos. lia.
  - apply Z.lt_succ_r. apply Z.div_lt_upper_bound; nia.
  - apply Z.lt_succ_r. apply Z.div_lt_upper_bound; nia.
Qed.

End ScaleFacts.

(** X24: when Tk opens a picture of positive size and the bounds of the
    loader are positive, [_load_with_tk] returns a picture that fits the
    bounds and is not larger than the original; a picture that fits
    already is returned as it is. *)
Theorem tk_picture_fits_bounds :
  forall env self path w h,
    ImageLoader.tk_PhotoImage env path = Some (w, h) ->
    (0 < w)%Z -> (0 < h)%Z ->
    (0 < ImageLoader.max_w self)%Z -> (0 < ImageLoader.max_h self)%Z ->
    exists w' h',
      ImageLoader._load_with_tk env self path = Some (w', h')
      /\ (0 < w' <= ImageLoader.max_w self)%Z
      /\ (0 < h' <= ImageLoader.max_h self)%Z
      /\ (w' <= w)%Z /\ (h' <= h)%Z
      /\ ((w <= ImageLoader.max_w self)%Z ->
          (h <= ImageLoader.max_h self)%Z -> w' = w /\ h' = h).
Proof.
  intros env self path w h Hopen Hw Hh Hmw Hmh.
  unfold ImageLoader._load_with_tk. rewrite Hopen. cbn [mbind option_bind].
  replace (Z.eqb (ImageLoader.max_w self) 0) with false
    by (symmetry; apply Z.eqb_neq; lia).
  replace (Z.eqb (ImageLoader.max_h self) 0) with false
    by (symmetry; apply Z.eqb_neq; lia).
  cbn [orb].
  set (a := (inject_Z w / inject_Z (ImageLoader.max_w self))%Q).
  set (b := (inject_Z h / inject_Z (ImageLoader.max_h self))%Q).
  set (s := ImageLoader.qmax (ImageLoader.qmax a b) 1%Q).
  assert (Ha : (a <= s)%Q).
  { eapply Qle_trans; [apply (qmax_l a b)|apply qmax_l]. }
  assert (Hb : (b <= s)%Q).
  { eapply Qle_trans; [apply (qmax_r a b)|apply qmax_l]. }
  destruct (Qle_bool s 1) eqn:Hs; cbn [negb].
  - apply Qle_bool_iff in Hs. exists w, h. split; [reflexivity|].
    assert (Hw1 : (w <= 1 * ImageLoader.max_w self)%Z).
    { apply ratio_le_Z; [exact Hmw|]. eapply Qle_trans; [exact Ha|exact Hs]. }
    assert (Hh1 : (h <= 1 * ImageLoader.max_h self)%Z).
    { apply ratio_le_Z; [exact Hmh|]. eapply Qle_trans; [exact Hb|exact Hs]. }
    repeat split; lia.
  - assert (Hgt : (1 < s)%Q).
    { apply Qnot_le_lt. intros Hle. apply Qle_bool_iff in Hle. congruence. }
    pose proof (Qle_ceiling s) as Hceil.
    assert (Hk : (2 <= Qceiling s)%Z).
    { assert (H1 : (inject_Z 1 < inject_Z (Qceiling s))%Q).
      { eapply Qlt_le_trans; [exact Hgt|exact Hceil]. }
      rewrite <- Zlt_Qlt in H1. lia. }
    assert (Hwk : (w <= Qceiling s * ImageLoader.max_w self)%Z).
    { apply ratio_le_Z; [exact Hmw|]. eapply Qle_trans; [exact Ha|exact Hceil]. }
    assert (Hhk : (h <= Qceiling s * ImageLoader.max_h self)%Z).
    { apply ratio_le_Z; [exact Hmh|]. eapply Qle_trans; [exact Hb|exact Hceil]. }
    destruct (subsample_bounds _ _ _ Hk Hw Hwk) as (Hw1 & Hw2 & Hw3).
    destruct (subsample_bounds _ _ _ Hk Hh Hhk) as (Hh1 & Hh2 & Hh3).
    eexists _, _. split; [reflexivity|].
    repeat split; try assumption.
    all: exfalso.
    all: assert (Ha1 : (a <= 1)%Q)
           by (apply (ratio_le_Z w _ 1); [exact Hmw|lia]).
    all: assert (Hb1 : (b <= 1)%Q)
           by (apply (ratio_le_Z h _ 1); [exact Hmh|lia]).
    all: unfold s in Hgt;
         destruct (qmax_cases (ImageLoader.qmax a b) 1%Q) as [E|E];
         rewrite E in Hgt; [|apply Qlt_irrefl in Hgt; exact Hgt];
         destruct (qmax_cases a b) as [E'|E']; rewrite E' in Hgt;
         [apply (Qlt_not_le _ _ Hgt); exact Ha1
         |apply (Qlt_not_le _ _ Hgt); exact Hb1].
Qed.

(** X24 on the sample machine: [a.png] of 1500 by 500 pixels becomes 500 by
    167 for the bounds 720 by 480. *)
Lemma tk_picture_fits_bounds_witness :
  exists w' h',
    ImageLoader._load_with_tk Demo.env Demo.loader
      "/home/u/app/assets/images/a.png" = Some (w', h')
    /\ (0 < w' <= 720)%Z /\ (0 < h' <= 480)%Z.
Proof.
  destruct (tk_picture_fits_bounds Demo.env Demo.loader
              "/home/u/app/assets/images/a.png" 1500 500
              eq_refl ltac:(lia) ltac:(lia)
              ltac:(cbn; lia) ltac:(cbn; lia))
    as (w' & h' & Hload & Hw & Hh & _).
  exists w', h'. split; [exact Hload|]. split; assumption.
Defined.

Section KeepFacts.
Import Path ImageLoader.

Lemma rfind_from_absent c l : forall i found,
  ~ In c l -> rfind_from c l i found = found.
Proof.
  induction l as [|x l IH]; intros i found Hnot; cbn; [reflexivity|].
  destruct (Ascii.eqb_spec x c) as [->|Hne];
    [exfalso; apply Hnot; left; reflexivity|].
  apply IH. intros Hin. apply Hnot. right. exact Hin.
Qed.

Lemma rfind_from_lower_bound c l : forall i found,
  (-1 <= found)%Z -> (0 <= i)%Z -> (-1 <= rfind_from c l i found)%Z.
Proof.
  induction l as [|x l IH]; intros i found Hf Hi; cbn; [exact Hf|].
  apply IH; [destruct (Ascii.eqb x c); lia|lia].
Qed.

Lemma splitext_no_dot f :
  ~ In "."%char (chars f) -> splitext f = (f, "").
Proof.
  intros Hnot. unfold splitext, rfind.
  rewrite (rfind_from_absent "." (chars f)) by exact Hnot.
  pose proof (rfind_from_lower_bound "/" (chars f) 0 (-1) ltac:(lia) ltac:(lia)).
  replace (rfind_from "/" (chars f) 0 (-1) <? -1)%Z with false
    by (symmetry; apply Z.ltb_ge; lia).
  reflexivity.
Qed.

End KeepFacts.

(** X25: a directory entry whose name has no dot has no extension and is
    never kept by the filter of [list_images], with or without Pillow. *)
Theorem names_without_dot_are_skipped :
  forall env f,
    ~ In "."%char (Path.chars f) -> ImageLoader.keep env f = false.
Proof.
  intros env f Hnot. unfold ImageLoader.keep.
  rewrite splitext_no_dot.
  - cbn [snd]. unfold ImageLoader.exts.
    destruct (ImageLoader.PIL_AVAILABLE env); reflexivity.
  - rewrite chars_lower. intros Hin. apply in_map_iff in Hin as (x & Hx & Hin).
    apply Hnot. replace "."%char with x; [exact Hin|].
    pose proof (lower_ascii_keeps "."%char x (or_intror eq_refl)) as Hk.
    rewrite Hx, Ascii.eqb_refl in Hk. symmetry in Hk.
    apply Ascii.eqb_eq in Hk. exact Hk.
Qed.

(** X25 for an entry called [README]. *)
Lemma names_without_dot_are_skipped_witness :
  ImageLoader.keep Demo.env "README" = false.
Proof.
  apply names_without_dot_are_skipped. cbn. intuition discriminate.
Defined.

(** ** The countdown *)

Section DateFacts.
Import Dates.
Local Open Scope Z_scope.

Lemma days_before_year_succ y :
  _days_before_year (y + 1)
  = _days_before_year y + 365 + (if _is_leap y then 1 else 0).
Proof.
  unfold _days_before_year, _is_leap. cbv zeta.
  replace (y + 1 - 1) with y by lia.
  destruct (Z.eqb_spec (y mod 4) 0); destruct (Z.eqb_spec (y mod 100) 0);
    destruct (Z.eqb_spec (y mod 400) 0); cbn [negb andb orb];
    Z.div_mod_to_equations; lia.
Qed.

Lemma month_cases m :
  1 <= m <= 12 ->
  m = 1 \/ m = 2 \/ m = 3 \/ m = 4 \/ m = 5 \/ m = 6
  \/ m = 7 \/ m = 8 \/ m = 9 \/ m = 10 \/ m = 11 \/ m = 12.
Proof. lia. Qed.

Lemma days_in_month_ge y m :
  1 <= m <= 12 -> _DAYS_IN_MONTH m <= _days_in_month y m.
Proof.
  intros Hm. unfold _days_in_month.
  destruct (Z.eqb_spec m 2) as [->|_]; [|cbn [andb]; lia].
  destruct (_is_leap y); cbn [andb]; [vm_compute; discriminate|lia].
Qed.

Lemma make_valid y m d :
  1 <= y <= 9999 -> 1 <= m <= 12 -> 1 <= d <= _days_in_month y m ->
  make y m d = Some (Date y m d).
Proof.
  intros Hy Hm Hd. unfold make.
  replace (1 <=? y) with true by (symmetry; apply Z.leb_le; lia).
  replace (y <=? 9999) with true by (symmetry; apply Z.leb_le; lia).
  replace (1 <=? m) with true by (symmetry; apply Z.leb_le; lia).
  replace (m <=? 12) with true by (symmetry; apply Z.leb_le; lia).
  replace (1 <=? d) with true by (symmetry; apply Z.leb_le; lia).
  replace (d <=? _days_in_month y m) with true
    by (symmetry; apply Z.leb_le; lia).
  reflexivity.
Qed.

Lemma make_inv y m d a :
  make y m d = Some a ->
  a = Date y m d /\ 1 <= y <= 9999 /\ 1 <= m <= 12
  /\ 1 <= d <= _days_in_month y m.
Proof.
  unfold make. destruct (_ && _) eqn:Hvalid; [|discriminate].
  intros [= <-]. rewrite !andb_true_iff, !Z.leb_le in Hvalid. tauto.
Qed.

End DateFacts.

(** Replaces the entries of the month tables at numerals by their values. *)
Ltac month_tables :=
  repeat match goal with
         | |- context [Dates._DAYS_IN_MONTH ?k] =>
             let v := eval vm_compute in (Dates._DAYS_IN_MONTH k) in
             change (Dates._DAYS_IN_MONTH k) with v in *
         | |- context [Dates._DAYS_BEFORE_MONTH ?k] =>
             let v := eval vm_compute in (Dates._DAYS_BEFORE_MONTH k) in
             change (Dates._DAYS_BEFORE_MONTH k) with v in *
         | H : context [Dates._DAYS_IN_MONTH ?k] |- _ =>
             let v := eval vm_compute in (Dates._DAYS_IN_MONTH k) in
             change (Dates._DAYS_IN_MONTH k) with v in *
         end;
  repeat match goal with
         | |- context [Z.eqb (Zpos ?p) (Zpos ?q)] =>
             let v := eval vm_compute in (Z.eqb (Zpos p) (Zpos q)) in
             change (Z.eqb (Zpos p) (Zpos q)) with v in *
         | |- context [Z.ltb (Zpos ?p) (Zpos ?q)] =>
             let v := eval vm_compute in (Z.ltb (Zpos p) (Zpos q)) in
             change (Z.ltb (Zpos p) (Zpos q)) with v in *
         | |- context [Z.leb (Zpos ?p) (Zpos ?q)] =>
             let v := eval vm_compute in (Z.leb (Zpos p) (Zpos q)) in
             change (Z.leb (Zpos p) (Zpos q)) with v in *
         | H : context [Z.eqb (Zpos ?p) (Zpos ?q)] |- _ =>
             let v := eval vm_compute in (Z.eqb (Zpos p) (Zpos q)) in
             change (Z.eqb (Zpos p) (Zpos q)) with v in *
         end.

(** X26: for every day [today] of the calendar before the year 9999 and
    every month and day that exist in all years, the countdown is defined,
    lies between 0 and 365, and is 0 exactly on the day itself. *)
Theorem countdown_within_a_year :
  forall y mt dt today m d,
    Dates.make y mt dt = Some today ->
    (y <= 9998)%Z ->
    (1 <= m <= 12)%Z -> (1 <= d <= Dates._DAYS_IN_MONTH m)%Z ->
    exists n,
      Dates.days_left today m d = Some n
      /\ (0 <= n <= 365)%Z
      /\ (n = 0%Z <-> (mt = m /\ dt = d)).
Proof.
  intros y mt dt today m d Hmake Hy Hm Hd.
  apply make_inv in Hmake as (-> & Hy1 & Hmt & Hdt).
  pose proof (days_in_month_ge y m Hm) as Hge.
  pose proof (days_in_month_ge (y + 1) m Hm) as Hge'.
  unfold Dates.days_left. cbn [Dates.year].
  rewrite (make_valid y m d) by lia. cbn [mbind option_bind].
  rewrite (make_valid (y + 1) m d) by lia.
  pose proof (days_before_year_succ y) as Hsucc.
  assert (Hgoal :
    let n := if Dates.lt (Dates.Date y m d) (Dates.Date y mt dt)
             then Dates.days_between (Dates.Date (y + 1) m d) (Dates.Date y mt dt)
             else Dates.days_between (Dates.Date y m d) (Dates.Date y mt dt) in
    (0 <= n <= 365)%Z /\ (n = 0%Z <-> mt = m /\ dt = d)).
  { unfold Dates.lt, Dates.days_between, Dates.toordinal, Dates._ymd2ord,
      Dates._days_before_month, Dates._days_in_month in *.
    cbn [Dates.year Dates.month Dates.day].
    rewrite Z.ltb_irrefl, Z.eqb_refl. cbn [orb andb].
    clear Hge Hge'.
    destruct (Dates._is_leap y); destruct (Dates._is_leap (y + 1));
    destruct (month_cases mt Hmt) as
      [->|[->|[->|[->|[->|[->|[->|[->|[->|[->|[->| ->]]]]]]]]]]];
    destruct (month_cases m Hm) as
      [->|[->|[->|[->|[->|[->|[->|[->|[->|[->|[->| ->]]]]]]]]]]];
    month_tables; cbn [andb orb negb] in *;
    try (destruct (Z.ltb_spec d dt)); lia. }
  cbv zeta in Hgoal.
  destruct (Dates.lt (Dates.Date y m d) (Dates.Date y mt dt));
    eexists; (split; [reflexivity|exact Hgoal]).
Qed.

(** X26 for the 21st of January 2024 and the date of the 20th of
    January. *)
Lemma countdown_within_a_year_witness :
  exists n,
    Dates.days_left (Dates.Date 2024 1 21) 1 20 = Some n
    /\ (0 <= n <= 365)%Z.
Proof.
  destruct (countdown_within_a_year 2024 1 21 (Dates.Date 2024 1 21) 1 20
              eq_refl ltac:(lia) ltac:(lia) ltac:(vm_compute; split; discriminate))
    as (n & Hn & Hrange & _).
  exists n. split; [exact Hn|exact Hrange].
Defined.

(** X27: the countdown to the 29th of February raises when the current
    year is not a leap year, and also when that day has passed, because the
    next year never is one. *)
Theorem countdown_to_leap_day_raises :
  forall today,
    Dates._is_leap (Dates.year today) = false
    \/ (2 < Dates.month today)%Z ->
    Dates.days_left today 2 29 = None.
Proof.
  intros today Hcase. unfold Dates.days_left.
  destruct (Dates.make (Dates.year today) 2 29) as [event|] eqn:Hmake;
    [|reflexivity].
  cbn [mbind option_bind].
  apply make_inv in Hmake as (-> & Hy & _ & Hd).
  unfold Dates._days_in_month in Hd. cbn [Z.eqb Pos.eqb andb] in Hd.
  destruct (Dates._is_leap (Dates.year today)) eqn:Hleap;
    [|vm_compute in Hd; exfalso; apply (proj2 Hd); reflexivity].
  destruct Hcase as [Hcase|Hcase]; [discriminate|].
  unfold Dates.lt. cbn [Dates.year Dates.month Dates.day].
  rewrite Z.ltb_irrefl, Z.eqb_refl.
  replace (2 <? Dates.month today)%Z with true
    by (symmetry; apply Z.ltb_lt; exact Hcase).
  cbn [orb andb]. unfold Dates.make, Dates._days_in_month.
  replace (Dates._is_leap (Dates.year today + 1)) with false.
  - cbn [Z.eqb Pos.eqb andb]. change (29 <=? Dates._DAYS_IN_MONTH 2)%Z with false.
    rewrite !andb_false_r. reflexivity.
  - symmetry. unfold Dates._is_leap in *.
    apply andb_true_iff in Hleap as [H4 _]. apply Z.eqb_eq in H4.
    replace ((Dates.year today + 1) mod 4 =? 0)%Z with false; [reflexivity|].
    symmetry. apply Z.eqb_neq. Z.div_mod_to_equations. lia.
Qed.

(** X27 for the 1st of March 2024. *)
Lemma countdown_to_leap_day_raises_witness :
  Dates.days_left (Dates.Date 2024 3 1) 2 29 = None.
Proof.
  apply countdown_to_leap_day_raises. right. cbn. lia.
Defined.
